(** * lessdb: the skip list, the block decoder and the memtable

    A shallow embedding of [SkipList.h], [Block.cc] and [MemTable.cc] and
    the properties of their specification.

    Pointers are addresses into an explicit store, loops over linked
    structures carry fuel, and everything that halts the C++ program (a
    failed [assert], a read through an invalid pointer) is a [fault]. *)

From Stdlib Require Import ZArith Lia.
From stdpp Require Import base tactics option list sorting.

(** ** Results of running a piece of the program *)

Inductive fault : Type :=
  | AssertFail   (* a failed [assert]: the program halts *)
  | Undefined    (* a read or write outside the object it goes through,
                    or a read of what was never written *)
  | Thrown       (* a C++ exception leaves the function *)
  | OutOfFuel.   (* the model of a loop ran out of steps *)

Inductive res (A : Type) : Type :=
  | Ok (a : A)
  | Err (e : fault).
Arguments Ok {A} a.
Arguments Err {A} e.

#[global] Instance res_ret : MRet res := λ A a, Ok a.
#[global] Instance res_bind : MBind res := λ A B f m,
  match m with Ok a => f a | Err e => Err e end.

Definition assert (b : bool) : res unit := if b then Ok tt else Err AssertFail.

(** ** SkipList.h *)

Section SkipList.
Context {T : Type}.
(** [compare_(a, b)]: a goes before b. *)
Variable compare_ : T → T → bool.
(** The value [T(0)] that the constructor stores in the head node. *)
Variable T0 : T.

Definition MaxLevel : nat := 12.

(** [Node *]: [None] is [nullptr], [Some a] the node at address [a]. *)
Definition ptr : Type := option nat.

(** [forward] has one slot per level of the node; a slot that was never
    stored to ([Node::Make] leaves them so) is [None]. *)
Record Node : Type := mkNode {
  key : T;
  forward : list (option ptr)
}.

(** The list and the nodes it owns. Nodes are never freed: a new node takes
    the next address of [nodes]. [gen_] is the sequence of numbers that
    [distrib_(gen_)] will draw. *)
Record SkipList : Type := mkSkipList {
  nodes : list Node;
  height_ : nat;
  gen_ : nat → nat
}.

Definition head_ : nat := 0.

Definition Iterator : Type := ptr.

Definition deref (s : SkipList) (x : nat) : res Node :=
  match nodes s !! x with
  | Some n => Ok n
  | None => Err Undefined
  end.

(** [Node::Next] and [Node::NoSyncNext]: the two differ in memory order
    only. *)
Definition Next (s : SkipList) (x : nat) (level : nat) : res ptr :=
  n ← deref s x;
  match forward n !! level with
  | Some (Some p) => Ok p
  | _ => Err Undefined
  end.

Definition NoSyncNext := Next.

(** [Node::SetNext] and [Node::NoSyncSetNext]. *)
Definition SetNext (s : SkipList) (x : nat) (next : ptr) (level : nat)
  : res SkipList :=
  n ← deref s x;
  if decide (level < length (forward n)) then
    Ok (mkSkipList
          (<[x := mkNode (key n) (<[level := Some next]> (forward n))]> (nodes s))
          (height_ s) (gen_ s))
  else Err Undefined.

Definition NoSyncSetNext := SetNext.

(** [Node::Make]: the new node and its address. *)
Definition Make (s : SkipList) (k : T) (height : nat) : nat * SkipList :=
  (length (nodes s),
   mkSkipList (nodes s ++ [mkNode k (replicate height None)])
              (height_ s) (gen_ s)).

Definition getHeight (s : SkipList) : nat := height_ s.

Definition random (s : SkipList) : nat * SkipList :=
  (gen_ s 0, mkSkipList (nodes s) (height_ s) (λ i, gen_ s (S i))).

(** [while (height < MaxLevel && random() == 0) height++]; the loop runs
    at most [MaxLevel] times. *)
Fixpoint randomLevel_loop (n : nat) (height : nat) (s : SkipList)
  : nat * SkipList :=
  match n with
  | 0 => (height, s)
  | S n' =>
      if decide (height < MaxLevel) then
        let '(r, s') := random s in
        if decide (r = 0) then randomLevel_loop n' (S height) s'
        else (height, s')
      else (height, s)
  end.

Definition randomLevel (s : SkipList) : nat * SkipList :=
  randomLevel_loop MaxLevel 1 s.

Definition keyEq (k1 k2 : T) : bool :=
  negb (compare_ k2 k1) && negb (compare_ k1 k2).

Definition Begin (s : SkipList) : res Iterator := Next s head_ 0.
Definition End : Iterator := None.

(** [operator*] of an iterator. *)
Definition star (s : SkipList) (it : Iterator) : res T :=
  match it with
  | Some x => n ← deref s x; Ok (key n)
  | None => Err Undefined
  end.

(** [operator++] of an iterator. *)
Definition incr (s : SkipList) (it : Iterator) : res Iterator :=
  match it with
  | Some x => Next s x 0
  | None => Err Undefined
  end.

(** The inner loop of the four searches,
    [while (next != nullptr && cond(next->key)) { x = next; next = x->Next(level); }]
    entered with [next = x->Next(level)]; it leaves [x] and [next]. *)
Fixpoint advance (cond : T → bool) (fuel : nat) (s : SkipList)
    (level : nat) (x : nat) : res (nat * ptr) :=
  match fuel with
  | 0 => Err OutOfFuel
  | S fuel' =>
      next ← Next s x level;
      match next with
      | None => Ok (x, None)
      | Some y =>
          n ← deref s y;
          if cond (key n) then advance cond fuel' s level y
          else Ok (x, next)
      end
  end.

Definition fuel_of (s : SkipList) : nat := S (length (nodes s)).

(** [update[level] = x] on an array of [MaxLevel] pointers. *)
Definition array_set (update : list (option nat)) (i : nat) (x : nat)
  : res (list (option nat)) :=
  if decide (i < length update) then Ok (<[i := Some x]> update)
  else Err Undefined.

Definition array_get (update : list (option nat)) (i : nat) : res nat :=
  match update !! i with
  | Some (Some x) => Ok x
  | _ => Err Undefined
  end.

(** The first loop of [Insert], [n] levels left: [level = n - 1]. *)
Fixpoint Insert_search (s : SkipList) (k : T) (n : nat) (x : nat)
    (update : list (option nat)) : res (nat * list (option nat)) :=
  match n with
  | 0 => Ok (x, update)
  | S level =>
      '(x', _) ← advance (λ k', compare_ k' k) (fuel_of s) s level x;
      update' ← array_set update level x';
      Insert_search s k level x' update'
  end.

(** The loop of [Find]. *)
Fixpoint Find_search (s : SkipList) (k : T) (n : nat) (x : nat) : res nat :=
  match n with
  | 0 => Ok x
  | S level =>
      '(x', _) ← advance (λ k', compare_ k' k) (fuel_of s) s level x;
      Find_search s k level x'
  end.

Definition Find (s : SkipList) (k : T) : res Iterator :=
  x ← Find_search s k (getHeight s) head_;
  x ← Next s x 0;
  match x with
  | Some y =>
      n ← deref s y;
      if compare_ k (key n) then Ok End else Ok (Some y)
  | None => Ok None
  end.

(** The loop of [LowerBound] and of [UpperBound]; falling out of it is
    [assert(0)]. *)
Fixpoint Bound_search (cond : T → bool) (s : SkipList) (n : nat) (x : nat)
  : res Iterator :=
  match n with
  | 0 => Err AssertFail
  | S level =>
      '(x', next) ← advance cond (fuel_of s) s level x;
      if decide (level = 0) then Ok next
      else Bound_search cond s level x'
  end.

Definition LowerBound (s : SkipList) (k : T) : res Iterator :=
  Bound_search (λ k', compare_ k' k) s (getHeight s) head_.

Definition UpperBound (s : SkipList) (k : T) : res Iterator :=
  Bound_search (λ k', negb (compare_ k k')) s (getHeight s) head_.

(** [for (int i = getHeight(); i < level; i++) update[i] = head_;] with
    [n] rounds left. *)
Fixpoint Insert_raise (n : nat) (i : nat) (update : list (option nat))
  : res (list (option nat)) :=
  match n with
  | 0 => Ok update
  | S n' =>
      update' ← array_set update i head_;
      Insert_raise n' (S i) update'
  end.

(** [for (int i = 0; i < level; i++) { ... }] with [n] rounds left. *)
Fixpoint Insert_link (n : nat) (i : nat) (update : list (option nat))
    (x : nat) (s : SkipList) : res SkipList :=
  match n with
  | 0 => Ok s
  | S n' =>
      u ← array_get update i;
      nxt ← NoSyncNext s u i;
      s1 ← NoSyncSetNext s x nxt i;
      s2 ← SetNext s1 u (Some x) i;
      Insert_link n' (S i) update x s2
  end.

(** [Insert] from [int level = randomLevel();] to its end: the key is not
    in the list and [update] holds the node before it on each level. *)
Definition Insert_new (s : SkipList) (k : T) (update : list (option nat))
  : res (Iterator * SkipList) :=
  let '(level, s) := randomLevel s in
  '(update, s) ←
    (if decide (getHeight s < level) then
       update' ← Insert_raise (level - getHeight s) (getHeight s) update;
       Ok (update', mkSkipList (nodes s) level (gen_ s))
     else Ok (update, s));
  let '(x, s) := Make s k level in
  s ← Insert_link level 0 update x s;
  Ok (Some x, s).

Definition Insert (s : SkipList) (k : T) : res (Iterator * SkipList) :=
  '(x, update) ← Insert_search s k (getHeight s) head_ (replicate MaxLevel None);
  x ← Next s x 0;
  found ← match x with
          | Some y => n ← deref s y; Ok (keyEq k (key n))
          | None => Ok false
          end;
  if (found : bool) then Ok (x, s)
  else
    f ← Find s k;
    _ ← assert (bool_decide (f = End));
    Insert_new s k update.

(** The constructor: a head of [MaxLevel] null slots, height 1. *)
Definition SkipList_new (gen : nat → nat) : SkipList :=
  mkSkipList [mkNode T0 (replicate MaxLevel (Some None))] 1 gen.

(** Inserting a sequence of keys, one call after the other. *)
Fixpoint InsertAll (s : SkipList) (ks : list T) : res SkipList :=
  match ks with
  | [] => Ok s
  | k :: ks' => '(_, s') ← Insert s k; InsertAll s' ks'
  end.

(** Walking from an iterator to [End()] with [operator++], collecting
    [*it]. *)
Fixpoint walk (fuel : nat) (s : SkipList) (it : Iterator) : res (list T) :=
  match fuel with
  | 0 => Err OutOfFuel
  | S fuel' =>
      match it with
      | None => Ok []
      | Some _ =>
          k ← star s it;
          it' ← incr s it;
          ks ← walk fuel' s it';
          Ok (k :: ks)
      end
  end.

Definition traverse (s : SkipList) : res (list T) :=
  it ← Begin s; walk (fuel_of s) s it.

End SkipList.

(** ** Slice.h, DataView.h, Coding.h

    These headers are not among the sources; what [Block.cc] uses of them is
    modelled here. The bytes a block borrows are a [list Z] and a pointer
    into them is its offset from [data_]. *)

Definition byte_at (mem : list Z) (p : Z) : res Z :=
  if decide (0 ≤ p)%Z then
    match mem !! Z.to_nat p with
    | Some b => Ok b
    | None => Err Undefined
    end
  else Err Undefined.

(** The [n] bytes at [p]; reading no byte reads nothing. *)
Definition read_bytes (mem : list Z) (p n : Z) : res (list Z) :=
  if decide (n = 0)%Z then Ok []
  else if decide (0 ≤ p ∧ 0 < n ∧ p + n ≤ Z.of_nat (length mem))%Z then
    Ok (take (Z.to_nat n) (drop (Z.to_nat p) mem))
  else Err Undefined.

(** Modelled from the spec: [Slice] of [Slice.h], the "non-owning (pointer,
    length) pair". *)
Record Slice : Type := mkSlice { RawData : Z; Len : Z }.

(** Modelled from the spec: [Slice::Skip(n)] drops the first [n] bytes of
    the view. A view is never extended; skipping more than it holds is an
    invariant violation, which halts. *)
Definition Skip (buf : Slice) (n : Z) : res Slice :=
  _ ← assert (bool_decide (n ≤ Len buf)%Z);
  Ok (mkSlice (RawData buf + n) (Len buf - n)).

(** Modelled from the spec: [DataView::ReadNum<uint32_t>], a "fixed-width"
    four-byte number, least significant byte first. *)
Definition ReadNum32 (mem : list Z) (p : Z) : res Z :=
  b0 ← byte_at mem p;
  b1 ← byte_at mem (p + 1);
  b2 ← byte_at mem (p + 2);
  b3 ← byte_at mem (p + 3);
  Ok (b0 + 256 * b1 + 65536 * b2 + 16777216 * b3)%Z.

(** Modelled from the spec: [coding::GetVar32], "little-endian, 7 data bits
    per byte, high bit set to indicate continuation", of an unsigned 32-bit
    number, so at most five bytes. It throws when the view ends inside the
    number or the fifth byte asks for a sixth; otherwise it leaves the view
    after the number. *)
Fixpoint GetVar32_loop (n : nat) (mem : list Z) (p len shift acc : Z)
  : res (Z * Slice) :=
  match n with
  | 0 => Err Thrown
  | S n' =>
      if decide (len ≤ 0)%Z then Err Thrown
      else
        b ← byte_at mem p;
        let acc' := Z.lor acc (Z.shiftl (Z.land b 127) shift) in
        if decide (b < 128)%Z then
          Ok ((acc' mod 2 ^ 32)%Z, mkSlice (p + 1) (len - 1))
        else GetVar32_loop n' mem (p + 1) (len - 1) (shift + 7) acc'
  end.

Definition GetVar32 (mem : list Z) (buf : Slice) : res (Z * Slice) :=
  GetVar32_loop 5 mem (RawData buf) (Len buf) 0 0.

(** [try { ... } catch (std::exception &)]: [None] when the body threw. *)
Definition try_catch {A} (m : res A) : res (option A) :=
  match m with
  | Ok a => Ok (Some a)
  | Err Thrown => Ok None
  | Err e => Err e
  end.

(** ** Block.cc *)

Inductive Status : Type := StatusOK | Corruption.

#[global] Instance Status_eq_dec : EqDecision Status.
Proof. solve_decision. Defined.

(** A block: the borrowed bytes, their number, and what the constructor
    reads off their end. [num_restart_] is a [uint32_t]. *)
Record Block : Type := mkBlock {
  data_ : list Z;
  size_ : Z;
  num_restart_ : Z;
  data_end_ : Z
}.

(** A cursor. [last_key_] is a pointer or [nullptr]; [key_] is the
    [mutable std::string] that caches the key. The block it points to is
    passed along with it. *)
Record BlockConstIterator : Type := mkIter {
  buf_ : Z;
  buf_len_ : Z;
  shared_ : Z;
  unshared_ : Z;
  value_len_ : Z;
  last_key_ : option Z;
  restart_pos_ : Z;
  key_ : list Z;
  stat_ : Status
}.

Section Block.
(** [comp_->Compare(a, b)]: negative, zero or positive. *)
Variable Compare : list Z → list Z → Z.

Definition uint32 (x : Z) : Z := (x mod 2 ^ 32)%Z.
Definition size_t (x : Z) : Z := (x mod 2 ^ 64)%Z.

Definition Block_new (content : list Z) : res Block :=
  let size := Z.of_nat (length content) in
  num_restart ← ReadNum32 content (size - 4);
  _ ← assert (bool_decide (uint32 (4 * (num_restart + 1)) ≤ size)%Z);
  Ok (mkBlock content size num_restart
        (size - uint32 (4 * (num_restart + 1)))).

Definition restartPoint (b : Block) (id : Z) : res Z :=
  _ ← assert (bool_decide (uint32 id ≤ num_restart_ b)%Z);
  r ← ReadNum32 (data_ b)
        (size_ b - uint32 (4 * (num_restart_ b - id + 1)));
  _ ← assert (bool_decide (r ≤ data_end_ b)%Z);
  Ok r.

(** The key is returned as a view; its bytes are read here. *)
Definition keyAtRestartPoint (b : Block) (id : Z) : res (list Z) :=
  pos ← restartPoint b id;
  let buf := mkSlice pos (data_end_ b - pos) in
  '(shared, buf) ← GetVar32 (data_ b) buf;
  _ ← assert (bool_decide (shared = 0%Z));
  '(unshared, buf) ← GetVar32 (data_ b) buf;
  '(value_len, buf) ← GetVar32 (data_ b) buf;
  read_bytes (data_ b) (RawData buf) unshared.

Definition set_stat (it : BlockConstIterator) (st : Status) : BlockConstIterator :=
  mkIter (buf_ it) (buf_len_ it) (shared_ it) (unshared_ it) (value_len_ it)
         (last_key_ it) (restart_pos_ it) (key_ it) st.

(** [init(p)]. [GetVar32] stores the three numbers into the cursor's
    fields one after the other, so a failure leaves the earlier ones
    stored. *)
Definition init (b : Block) (it : BlockConstIterator) (p : Z)
  : res BlockConstIterator :=
  let len := size_t (data_end_ b - p) in
  if decide (0 < len)%Z then
    r1 ← try_catch (GetVar32 (data_ b) (mkSlice p len));
    match r1 with
    | None => Ok (set_stat it Corruption)
    | Some (shared, buf) =>
        let it := mkIter (buf_ it) (buf_len_ it) shared (unshared_ it)
                    (value_len_ it) (last_key_ it) (restart_pos_ it)
                    (key_ it) (stat_ it) in
        r2 ← try_catch (GetVar32 (data_ b) buf);
        match r2 with
        | None => Ok (set_stat it Corruption)
        | Some (unshared, buf) =>
            let it := mkIter (buf_ it) (buf_len_ it) shared unshared
                        (value_len_ it) (last_key_ it) (restart_pos_ it)
                        (key_ it) (stat_ it) in
            r3 ← try_catch (GetVar32 (data_ b) buf);
            match r3 with
            | None => Ok (set_stat it Corruption)
            | Some (value_len, buf) =>
                Ok (mkIter (RawData buf) (Len buf) shared unshared value_len
                      (last_key_ it)
                      (if decide (unshared = 0%Z) then uint32 p
                       else restart_pos_ it)
                      (key_ it) (stat_ it))
            end
        end
    end
  else
    Ok (mkIter p 0 (shared_ it) (unshared_ it) (value_len_ it)
          (last_key_ it) (restart_pos_ it) (key_ it) (stat_ it)).

(** The constructor. It writes [last_key_] and [restart_pos_] and leaves
    [buf_], [buf_len_] and the three lengths to [init]. When a length field
    does not decode, [init] returns with the status set before it has
    written where the cursor stands: the position of that cursor is a value
    that was never written, and the comparison with [end()] in
    [lower_bound] and the loop of [Key()] read it next. No cursor of the
    model stands for it; the construction is [Undefined] then. An end
    cursor is given its position and no lengths: they are 0 here, and the
    source reads them on an end cursor only in [Value()] and
    [operator++]. *)
Definition ConstIterator (b : Block) (p : Z) (restart : Z)
  : res BlockConstIterator :=
  it ← init b (mkIter 0 0 0 0 0 None restart [] StatusOK) p;
  match stat_ it with
  | StatusOK => Ok it
  | Corruption => Err Undefined
  end.

Definition begin (b : Block) : res BlockConstIterator := ConstIterator b 0 0.
Definition end_ (b : Block) : res BlockConstIterator :=
  ConstIterator b (data_end_ b) 0.

Definition equal (it other : BlockConstIterator) : bool :=
  bool_decide (buf_ it = buf_ other) && bool_decide (buf_len_ it = buf_len_ other).

Definition increment (b : Block) (it : BlockConstIterator)
  : res BlockConstIterator :=
  let buf := mkSlice (buf_ it) (buf_len_ it) in
  let it := mkIter (buf_ it) (buf_len_ it) (shared_ it) (unshared_ it)
              (value_len_ it) (Some (buf_ it)) (restart_pos_ it) (key_ it)
              (stat_ it) in
  buf ← Skip buf (unshared_ it);
  buf ← Skip buf (value_len_ it);
  it ← init b it (RawData buf);
  Ok (mkIter (buf_ it) (buf_len_ it) (shared_ it) (unshared_ it)
        (value_len_ it) (last_key_ it) (restart_pos_ it) [] (stat_ it)).

Definition block_fuel (b : Block) : nat := S (length (data_ b)).

(** [while (it.buf_ < buf_) it++;] *)
Fixpoint Key_replay (fuel : nat) (b : Block) (it : BlockConstIterator)
    (buf : Z) : res BlockConstIterator :=
  match fuel with
  | 0 => Err OutOfFuel
  | S fuel' =>
      if decide (buf_ it < buf)%Z then
        it' ← increment b it; Key_replay fuel' b it' buf
      else Ok it
  end.

(** [key_.append(p, n)]: appending no byte reads nothing, also from
    [nullptr]. *)
Definition append_from (mem : list Z) (p : option Z) (n : Z) : res (list Z) :=
  match p with
  | Some q => read_bytes mem q n
  | None => if decide (n = 0%Z) then Ok [] else Err Undefined
  end.

(** [Key()] returns the key and leaves it in [key_]. *)
Definition Key (b : Block) (it : BlockConstIterator)
  : res (list Z * BlockConstIterator) :=
  _ ← assert (bool_decide (buf_ it ≠ data_end_ b));
  match key_ it with
  | _ :: _ => Ok (key_ it, it)
  | [] =>
      _ ← match last_key_ it with
          | None =>
              r ← ConstIterator b (restart_pos_ it) (restart_pos_ it);
              r ← Key_replay (block_fuel b) b r (buf_ it);
              assert (bool_decide (buf_ r = buf_ it))
          | Some _ => Ok tt
          end;
      pre ← append_from (data_ b) (last_key_ it) (shared_ it);
      suf ← read_bytes (data_ b) (buf_ it) (unshared_ it);
      let k := pre ++ suf in
      Ok (k, mkIter (buf_ it) (buf_len_ it) (shared_ it) (unshared_ it)
               (value_len_ it) (last_key_ it) (restart_pos_ it) k (stat_ it))
  end.

Definition Value (b : Block) (it : BlockConstIterator) : res (list Z) :=
  read_bytes (data_ b) (buf_ it + unshared_ it) (value_len_ it).

(** [while (rb - lb > 1) { ... }] of [lower_bound]; [lb], [rb] and [mid]
    are [int]. *)
Fixpoint restart_search (fuel : nat) (b : Block) (target : list Z)
    (lb rb : Z) : res (Z * Z) :=
  match fuel with
  | 0 => Err OutOfFuel
  | S fuel' =>
      if decide (1 < rb - lb)%Z then
        let mid := ((lb + rb) `quot` 2)%Z in
        k ← keyAtRestartPoint b mid;
        if decide (0 ≤ Compare k target)%Z
        then restart_search fuel' b target lb mid
        else restart_search fuel' b target mid rb
      else Ok (lb, rb)
  end.

(** [for (; it != end(); it++) if (Compare(it.Key(), target) >= 0) break;] *)
Fixpoint scan (fuel : nat) (b : Block) (target : list Z)
    (it : BlockConstIterator) : res BlockConstIterator :=
  match fuel with
  | 0 => Err OutOfFuel
  | S fuel' =>
      e ← end_ b;
      if equal it e then Ok it
      else
        '(k, it) ← Key b it;
        if decide (0 ≤ Compare k target)%Z then Ok it
        else it' ← increment b it; scan fuel' b target it'
  end.

Definition lower_bound (b : Block) (target : list Z)
  : res BlockConstIterator :=
  '(lb, rb) ← restart_search (S (Z.to_nat (num_restart_ b))) b target
                0 (num_restart_ b);
  k ← keyAtRestartPoint b lb;
  if decide (0 < Compare k target)%Z then
    _ ← assert (bool_decide (lb = 0 ∧ rb = lb + 1)%Z);
    end_ b
  else
    pos ← restartPoint b lb;
    it ← ConstIterator b pos pos;
    scan (block_fuel b) b target it.

Definition find (b : Block) (target : list Z) : res BlockConstIterator :=
  it ← lower_bound b target;
  '(k, it) ← Key b it;
  if decide (Compare k target ≠ 0%Z) then end_ b else Ok it.

End Block.

(** ** MemTable.cc *)

(** Modelled from the spec: what [coding::AppendVarString] of [Coding.h]
    appends is a "length-prefixed" byte string, the length as a var32:
    "little-endian, 7 data bits per byte, high bit set to indicate
    continuation". *)
Fixpoint PutVar32_loop (n : nat) (x : Z) : list Z :=
  match n with
  | O => []
  | S n' =>
      if decide (x < 128)%Z then [x]
      else Z.lor (Z.land x 127) 128 :: PutVar32_loop n' (Z.shiftr x 7)
  end.

Definition PutVar32 (x : Z) : list Z := PutVar32_loop 5 (x mod 2 ^ 32)%Z.

(** Modelled from the spec: [coding::AppendVarString(&buf, s)] of
    [Coding.h]. *)
Definition AppendVarString (buf s : list Z) : list Z :=
  buf ++ PutVar32 (Z.of_nat (length s)) ++ s.

(** Modelled from the spec: the "record kind (Value | Deletion)" of
    [InternalKey.h]. *)
Inductive ValueType : Type := kTypeDeletion | kTypeValue.

(** Modelled from the spec: the arena, which "returns a freshly carved,
    exclusively owned region" and never takes one back. It is the regions
    handed out so far, the address of a region being its index. *)
Record Arena : Type := mkArena { regions : list (list Z) }.

(** Modelled from the spec: [Arena::allocate(n)]. *)
Definition allocate (a : Arena) (n : nat) : nat * Arena :=
  (length (regions a), mkArena (regions a ++ [replicate n 0%Z])).

(** [memcpy(dest, src, n)] into a region of the arena. *)
Definition memcpy (a : Arena) (dest : nat) (src : list Z) (n : nat) : res Arena :=
  match regions a !! dest with
  | Some r =>
      if decide (n ≤ length r ∧ n ≤ length src) then
        Ok (mkArena (<[dest := take n src ++ drop n r]> (regions a)))
      else Err Undefined
  | None => Err Undefined
  end.

(** The list of a memtable holds pointers to entries. Once written an entry
    is never written again, so the pointer is modelled by the bytes it
    points to; the head node of the list holds the null pointer, modelled
    by no bytes. *)
Record MemTable : Type := mkMemTable {
  arena_ : Arena;
  table_ : @SkipList (list Z)
}.

Section MemTable.
(** [InternalKeyBuf(key, sequence, type).Data()]; [InternalKey.h] is not
    among the sources. *)
Variable InternalKeyBuf : list Z → Z → ValueType → list Z.
(** The order of [table_] on entries; [MemTable.h] is not among the
    sources. *)
Variable compare_ : list Z → list Z → bool.

Definition pointee (a : Arena) (p : nat) : res (list Z) :=
  match regions a !! p with
  | Some r => Ok r
  | None => Err Undefined
  end.

Definition Add (m : MemTable) (sequence : Z) (type : ValueType)
    (key value : list Z) : res MemTable :=
  let buf := AppendVarString [] (InternalKeyBuf key sequence type) in
  let buf := AppendVarString buf value in
  let '(entry, arena) := allocate (arena_ m) (length buf) in
  arena ← memcpy arena entry buf (length buf);
  e ← pointee arena entry;
  '(_, table) ← Insert compare_ (table_ m) e;
  Ok (mkMemTable arena table).

Definition MemTable_new (gen : nat → nat) : MemTable :=
  mkMemTable (mkArena []) (SkipList_new [] gen).

(** A sequence of calls of [Add]. *)
Fixpoint AddAll (m : MemTable)
    (ops : list (Z * ValueType * list Z * list Z)) : res MemTable :=
  match ops with
  | [] => Ok m
  | (sequence, type, key, value) :: ops' =>
      m' ← Add m sequence type key value; AddAll m' ops'
  end.

End MemTable.

(** ** The skip list: representation invariant *)

Arguments fuel_of : simpl never.

Lemma bind_Ok {A B} (a : A) (f : A → res B) : (Ok a ≫= f) = f a.
Proof. reflexivity. Qed.

Lemma bind_Err {A B} (e : fault) (f : A → res B) : (Err e ≫= f) = Err e.
Proof. reflexivity. Qed.

(** The last element of [x :: A]. *)
Fixpoint lastd (x : nat) (A : list nat) : nat :=
  match A with
  | [] => x
  | a :: A' => lastd a A'
  end.

Lemma lastd_app x A B : lastd x (A ++ B) = lastd (lastd x A) B.
Proof. revert x. induction A as [|a A IH]; intros x; simpl; auto. Qed.

Lemma lastd_elem x A : lastd x A ∈ x :: A.
Proof.
  revert x. induction A as [|a A IH]; intros x; simpl.
  - apply list_elem_of_here.
  - apply list_elem_of_further, IH.
Qed.

Lemma lastd_nil_or x A : (A = [] ∧ lastd x A = x) ∨ lastd x A ∈ A.
Proof.
  destruct A as [|a A]; [left; done|right]. simpl. apply lastd_elem.
Qed.

Section SkipList_spec.
Context {T : Type} (compare_ : T → T → bool) (T0 : T).
Implicit Types (s : @SkipList T) (x p l : nat) (k : T) (cond : T → bool).

Definition lt (a b : T) : Prop := compare_ a b = true.
Definition equiv (a b : T) : Prop :=
  compare_ a b = false ∧ compare_ b a = false.

Definition keyOf s x : T := from_option key T0 (nodes s !! x).

(** [chain s l x ps]: following the level-[l] pointers from [x] visits
    exactly the nodes [ps] and then reaches [nullptr]. *)
Fixpoint chain s l x (ps : list nat) : Prop :=
  match ps with
  | [] => Next s x l = Ok None
  | p :: ps' => Next s x l = Ok (Some p) ∧ chain s l p ps'
  end.

Lemma Next_deref s x l q : Next s x l = Ok q → ∃ n, nodes s !! x = Some n.
Proof.
  unfold Next, deref. destruct (nodes s !! x); [eauto|discriminate].
Qed.

Lemma chain_head s l x ps : chain s l x ps → Next s x l = Ok (head ps).
Proof. destruct ps; simpl; [done|tauto]. Qed.

Lemma chain_valid_start s l x ps : chain s l x ps → x < length (nodes s).
Proof.
  intros H%chain_head. apply Next_deref in H as [n Hn].
  by apply lookup_lt_Some in Hn.
Qed.

Lemma chain_valid s l x ps p :
  chain s l x ps → p ∈ ps → p < length (nodes s).
Proof.
  revert x. induction ps as [|q ps IH]; intros x Hc Hin.
  - by apply not_elem_of_nil in Hin.
  - destruct Hc as [_ Hc]. apply elem_of_cons in Hin as [->|Hin].
    + eapply chain_valid_start, Hc.
    + eapply IH; eauto.
Qed.

Lemma chain_app s l x A B :
  chain s l x (A ++ B) → chain s l (lastd x A) B.
Proof.
  revert x. induction A as [|a A IH]; intros x; simpl; [done|].
  intros [_ H]. by apply IH.
Qed.

Lemma chain_frame s s' l x ps :
  (∀ a, a ∈ x :: ps → Next s' a l = Next s a l) →
  chain s l x ps → chain s' l x ps.
Proof.
  revert x. induction ps as [|q ps IH]; intros x Hn; simpl.
  - intros <-. apply Hn, list_elem_of_here.
  - intros [H1 H2]. split.
    + rewrite <- H1. apply Hn, list_elem_of_here.
    + apply IH; [|done]. intros a Ha. by apply Hn, list_elem_of_further.
Qed.

(** Linking [p] in after the last node of [x :: A]. *)
Lemma chain_link s s' l x A B p :
  NoDup (x :: A) →
  chain s l x (A ++ B) →
  Next s' (lastd x A) l = Ok (Some p) →
  chain s' l p B →
  (∀ a, a ∈ x :: A → a ≠ lastd x A → Next s' a l = Next s a l) →
  chain s' l x (A ++ p :: B).
Proof.
  revert x. induction A as [|a A IH]; intros x Hnd Hc Hl Hp Hfr; simpl in *.
  - done.
  - destruct Hc as [Hx Hc]. apply NoDup_cons in Hnd as [Hx' Hnd]. split.
    + rewrite <- Hx. apply Hfr; [apply list_elem_of_here|].
      intros ->. apply Hx', lastd_elem.
    + apply IH; auto. intros b Hb. by apply Hfr, list_elem_of_further.
Qed.

Lemma advance_chain cond s l ps : ∀ fuel x,
  chain s l x ps → length ps < fuel →
  ∃ A B, ps = A ++ B ∧
    Forall (λ p, cond (keyOf s p) = true) A ∧
    (∀ b, head B = Some b → cond (keyOf s b) = false) ∧
    advance cond fuel s l x = Ok (lastd x A, head B).
Proof.
  induction ps as [|p ps IH]; intros fuel x Hc Hf;
    (destruct fuel as [|fuel]; [simpl in Hf; lia|]); simpl in *.
  - rewrite Hc, bind_Ok. exists [], []. by repeat split.
  - destruct Hc as [Hx Hc]. rewrite Hx, bind_Ok.
    destruct (Next_deref _ _ _ _ (chain_head _ _ _ _ Hc)) as [n Hn].
    unfold deref. rewrite Hn, bind_Ok.
    assert (keyOf s p = key n) as Hk by (unfold keyOf; by rewrite Hn).
    destruct (cond (key n)) eqn:Hcond.
    + destruct (IH fuel p Hc ltac:(lia)) as (A & B & -> & HA & HB & Hadv).
      exists (p :: A), B. repeat split; auto.
      constructor; [by rewrite Hk|done].
    + exists [], (p :: ps). repeat split; auto.
      intros b [= <-]. by rewrite Hk.
Qed.

(** The representation invariant: [L l] is the list of nodes on level
    [l], in the order of the level's pointers. *)
Record Inv s (L : nat → list nat) : Prop := {
  inv_height : 1 ≤ height_ s ≤ MaxLevel;
  inv_chain : ∀ l, l < MaxLevel → chain s l 0 (L l);
  inv_empty : ∀ l, height_ s ≤ l → L l = [];
  inv_sub : ∀ l p, p ∈ L (S l) → p ∈ L l;
  inv_sorted : ∀ l, StronglySorted lt (keyOf s <$> L l);
  inv_nodup : ∀ l, NoDup (0 :: L l);
  inv_bound : ∀ l, length (L l) < length (nodes s)
}.

(** [cond] holds on an initial segment of every sorted list. *)
Definition downward cond : Prop :=
  ∀ a b, lt a b → cond b = true → cond a = true.

(** [x] is the last node of level [l] on which [cond] holds, the head if
    there is none; [A] are the nodes up to it and [B] the ones after. *)
Definition split_at s (L : nat → list nat) cond l x A B : Prop :=
  L l = A ++ B ∧
  Forall (λ p, cond (keyOf s p) = true) A ∧
  Forall (λ p, cond (keyOf s p) = false) B ∧
  x = lastd 0 A.

Lemma sorted_tail_false s cond b B :
  downward cond →
  StronglySorted lt (keyOf s <$> b :: B) →
  cond (keyOf s b) = false →
  Forall (λ p, cond (keyOf s p) = false) (b :: B).
Proof.
  intros Hd Hs Hb. rewrite fmap_cons in Hs.
  apply StronglySorted_cons in Hs as [Hall _].
  constructor; [done|]. apply Forall_forall. intros p Hp.
  rewrite Forall_forall in Hall.
  destruct (cond (keyOf s p)) eqn:E; [|done].
  rewrite <- Hb. symmetry. eapply Hd; [|exact E].
  apply Hall. by apply list_elem_of_fmap_2.
Qed.

Lemma advance_level s L cond l x A' B' :
  Inv s L → downward cond → l < MaxLevel →
  split_at s L cond (S l) x A' B' →
  ∃ A B, split_at s L cond l (lastd 0 A) A B ∧
    advance cond (fuel_of s) s l x = Ok (lastd 0 A, head B).
Proof.
  intros HI Hd Hl (HL & HA' & _ & ->).
  assert (∃ C D, L l = C ++ D ∧ lastd 0 A' = lastd 0 C ∧
            Forall (λ p, cond (keyOf s p) = true) C) as (C & D & HCD & Hx & HC).
  { destruct (lastd_nil_or 0 A') as [[-> ->]|Hin].
    - exists [], (L l). repeat split; auto.
    - assert (lastd 0 A' ∈ L l) as Hin'.
      { apply (inv_sub _ _ HI). rewrite HL. apply elem_of_app. by left. }
      apply list_elem_of_split in Hin' as (C & D & HCD).
      exists (C ++ [lastd 0 A']), D. split; [by rewrite <- app_assoc|].
      split; [by rewrite lastd_app|].
      rewrite Forall_forall in HA'. pose proof (HA' _ Hin) as Hcx.
      apply Forall_app. split; [|by constructor].
      apply Forall_forall. intros c Hc. eapply Hd; [|exact Hcx].
      pose proof (inv_sorted _ _ HI l) as Hs. rewrite HCD, fmap_app in Hs.
      eapply StronglySorted_app_1_elem_of; [exact Hs| |].
      + by apply list_elem_of_fmap_2.
      + rewrite fmap_cons. apply list_elem_of_here. }
  pose proof (inv_chain _ _ HI l Hl) as Hch. rewrite HCD in Hch.
  apply chain_app in Hch. rewrite <- Hx in Hch.
  destruct (advance_chain cond s l D (fuel_of s) _ Hch) as (A & B & -> & HA & HB & Hadv).
  { pose proof (inv_bound _ _ HI l) as Hb. rewrite HCD, length_app in Hb.
    unfold fuel_of. lia. }
  exists (C ++ A), B. rewrite lastd_app, <- Hx. split; [|done].
  split; [by rewrite <- app_assoc|]. split; [by apply Forall_app|].
  split; [|by rewrite lastd_app, Hx]. destruct B as [|b B]; [constructor|].
  apply sorted_tail_false; [done| |by apply HB].
  pose proof (inv_sorted _ _ HI l) as Hs.
  rewrite HCD, app_assoc, fmap_app in Hs.
  by apply StronglySorted_app_1_r in Hs.
Qed.

Lemma split_at_top s L cond l :
  Inv s L → height_ s ≤ l → split_at s L cond l 0 [] [].
Proof. intros HI Hl. repeat split; auto. by apply (inv_empty _ _ HI). Qed.

(** The nodes of a level on which [cond] holds, up to the first one on
    which it does not, and the rest. *)
Fixpoint below s cond (ps : list nat) : list nat :=
  match ps with
  | [] => []
  | p :: ps' => if cond (keyOf s p) then p :: below s cond ps' else []
  end.

Fixpoint above s cond (ps : list nat) : list nat :=
  match ps with
  | [] => []
  | p :: ps' => if cond (keyOf s p) then above s cond ps' else ps
  end.

Lemma below_above_app s cond A B :
  Forall (λ p, cond (keyOf s p) = true) A →
  (∀ b, head B = Some b → cond (keyOf s b) = false) →
  below s cond (A ++ B) = A ∧ above s cond (A ++ B) = B.
Proof.
  intros HA HB. induction HA as [|a A Ha HA IH]; simpl.
  - destruct B as [|b B]; simpl; [done|]. by rewrite (HB b eq_refl).
  - rewrite Ha. destruct IH as [-> ->]. done.
Qed.

Lemma split_at_eq s L cond l x A B :
  split_at s L cond l x A B →
  A = below s cond (L l) ∧ B = above s cond (L l) ∧
  x = lastd 0 (below s cond (L l)).
Proof.
  intros (HL & HA & HB & ->). rewrite HL.
  destruct (below_above_app s cond A B HA) as [-> ->]; [|done].
  intros b Hb. destruct B; simplify_eq/=. by inversion HB.
Qed.

(** The node after which a key satisfying [cond] no longer is found on
    level [l]: what the searches leave in [x]. *)
Definition pred s (L : nat → list nat) cond l : nat :=
  lastd 0 (below s cond (L l)).

Lemma pred_top s L cond l : Inv s L → height_ s ≤ l → pred s L cond l = 0.
Proof. intros HI Hl. unfold pred. by rewrite (inv_empty _ _ HI). Qed.

Lemma split_at_pred s L cond l :
  Inv s L → downward cond → l < MaxLevel →
  split_at s L cond l (pred s L cond l)
    (below s cond (L l)) (above s cond (L l)) ∧
  advance cond (fuel_of s) s l (pred s L cond (S l))
    = Ok (pred s L cond l, head (above s cond (L l))).
Proof.
  intros HI Hd. revert l.
  assert (∀ n l, MaxLevel ≤ l + n →
    ∃ A B, split_at s L cond l (pred s L cond l) A B) as Htop.
  { induction n as [|n IH]; intros l Hl.
    - pose proof (inv_height _ _ HI). exists [], [].
      rewrite (pred_top _ _ _ _ HI) by lia. apply split_at_top; [done|lia].
    - destruct (decide (MaxLevel ≤ l)) as [?|Hlt]; [apply (IH l); lia|].
      destruct (IH (S l)) as (A' & B' & Hsp); [lia|].
      destruct (advance_level s L cond l (pred s L cond (S l)) A' B' HI Hd)
        as (A & B & Hs & _); [lia|done|].
      exists A, B. destruct (split_at_eq _ _ _ _ _ _ _ Hs) as (_ & _ & Hx).
      unfold pred. by rewrite <- Hx. }
  intros l Hl.
  destruct (Htop MaxLevel (S l)) as (A' & B' & Hsp); [lia|].
  destruct (advance_level s L cond l (pred s L cond (S l)) A' B' HI Hd)
    as (A & B & Hs & Hadv); [lia|done|].
  destruct (split_at_eq _ _ _ _ _ _ _ Hs) as (-> & -> & _).
  unfold pred. done.
Qed.

Lemma Next_pred s L cond :
  Inv s L → downward cond →
  Next s (pred s L cond 0) 0 = Ok (head (above s cond (L 0))).
Proof.
  intros HI Hd.
  destruct (split_at_pred s L cond 0 HI Hd) as [(HL & _ & _ & Hx) _];
    [unfold MaxLevel; lia|].
  pose proof (inv_chain _ _ HI 0) as Hc. rewrite HL in Hc.
  rewrite Hx. apply chain_head, chain_app, Hc. unfold MaxLevel; lia.
Qed.

Lemma Insert_search_ok s L k n : ∀ update,
  let cond := λ k', compare_ k' k in
  Inv s L → downward cond → n ≤ MaxLevel → length update = MaxLevel →
  ∃ update', Insert_search compare_ s k n (pred s L cond n) update
               = Ok (pred s L cond 0, update') ∧
    length update' = MaxLevel ∧
    (∀ l, l < n → update' !! l = Some (Some (pred s L cond l))) ∧
    (∀ l, n ≤ l → update' !! l = update !! l).
Proof.
  intros update cond HI Hd. subst cond. revert update.
  induction n as [|n IH]; intros update Hn Hlen; cbn [Insert_search].
  - exists update. repeat split; auto. intros; lia.
  - destruct (split_at_pred s L _ n HI Hd) as [_ ->]; [lia|].
    rewrite bind_Ok. unfold array_set.
    rewrite decide_True by lia. rewrite bind_Ok.
    destruct (IH (<[n:=Some (pred s L (λ k', compare_ k' k) n)]> update))
      as (u' & -> & Hl' & Hlo & Hhi); [lia|by rewrite length_insert|].
    exists u'. repeat split; auto.
    + intros l Hl. destruct (decide (l = n)) as [->|].
      * rewrite Hhi by lia. apply list_lookup_insert_eq. lia.
      * apply Hlo. lia.
    + intros l Hl. rewrite Hhi by lia. apply list_lookup_insert_ne. lia.
Qed.

Lemma Find_search_ok s L k n :
  let cond := λ k', compare_ k' k in
  Inv s L → downward cond → n ≤ MaxLevel →
  Find_search compare_ s k n (pred s L cond n) = Ok (pred s L cond 0).
Proof.
  intros cond HI Hd. subst cond.
  induction n as [|n IH]; intros Hn; cbn [Find_search]; [done|].
  destruct (split_at_pred s L _ n HI Hd) as [_ ->]; [lia|].
  rewrite bind_Ok. apply IH. lia.
Qed.

Lemma Bound_search_ok s L cond n :
  Inv s L → downward cond → 0 < n ≤ MaxLevel →
  Bound_search cond s n (pred s L cond n) = Ok (head (above s cond (L 0))).
Proof.
  intros HI Hd. induction n as [|n IH]; intros Hn; cbn [Bound_search]; [lia|].
  destruct (split_at_pred s L cond n HI Hd) as [_ ->]; [lia|].
  rewrite bind_Ok. destruct (decide (n = 0)) as [->|Hne]; [done|].
  apply IH. lia.
Qed.

Lemma deref_valid s L x l :
  Inv s L → x ∈ L l → ∃ n, deref s x = Ok n ∧ key n = keyOf s x.
Proof.
  intros HI Hx.
  assert (x ∈ L 0) as Hx0.
  { clear -HI Hx. induction l as [|l IH]; [done|].
    by apply IH, (inv_sub _ _ HI). }
  pose proof (chain_valid _ _ _ _ _ (inv_chain _ _ HI 0 ltac:(unfold MaxLevel; lia)) Hx0)
    as Hlt.
  apply lookup_lt_is_Some in Hlt as [n Hn]. exists n.
  unfold deref, keyOf. by rewrite Hn.
Qed.

Lemma Find_ok s L k :
  let cond := λ k', compare_ k' k in
  Inv s L → downward cond →
  Find compare_ s k =
    Ok (match head (above s cond (L 0)) with
        | Some y => if compare_ k (keyOf s y) then None else Some y
        | None => None
        end).
Proof.
  intros cond HI Hd. unfold Find, getHeight, head_.
  pose proof (Find_search_ok s L k (height_ s) HI Hd) as Hs. simpl in Hs.
  rewrite (pred_top s L _ (height_ s) HI) in Hs by lia.
  rewrite Hs by (pose proof (inv_height _ _ HI); lia).
  rewrite bind_Ok. fold cond. rewrite (Next_pred s L cond HI Hd), bind_Ok.
  destruct (above s cond (L 0)) as [|y B] eqn:E; simpl; [done|].
  destruct (deref_valid s L y 0 HI) as (n & -> & <-).
  - destruct (split_at_pred s L cond 0 HI Hd) as [(HL & _) _];
      [unfold MaxLevel; lia|].
    rewrite HL, E. apply elem_of_app. right. apply list_elem_of_here.
  - rewrite bind_Ok. by destruct (compare_ k (key n)).
Qed.

(** *** Stores *)

Definition shape s : list (T * nat) :=
  (λ n, (key n, length (forward n))) <$> nodes s.

Lemma shape_length s s' :
  shape s' = shape s → length (nodes s') = length (nodes s).
Proof.
  intros H. apply (f_equal length) in H. unfold shape in H.
  by rewrite !length_fmap in H.
Qed.

Lemma shape_lookup s s' x n :
  shape s' = shape s → nodes s !! x = Some n →
  ∃ n', nodes s' !! x = Some n' ∧ key n' = key n ∧
        length (forward n') = length (forward n).
Proof.
  intros H Hn. apply (f_equal (.!! x)) in H. unfold shape in H.
  rewrite !list_lookup_fmap, Hn in H. simpl in H.
  destruct (nodes s' !! x) as [n'|]; simplify_eq/=. eauto.
Qed.

Lemma shape_keyOf s s' x : shape s' = shape s → keyOf s' x = keyOf s x.
Proof.
  intros H. apply (f_equal (.!! x)) in H. unfold shape, keyOf in *.
  rewrite !list_lookup_fmap in H.
  destruct (nodes s' !! x), (nodes s !! x); simplify_eq/=; done.
Qed.

Lemma SetNext_ok s x v l n :
  nodes s !! x = Some n → l < length (forward n) →
  ∃ s', SetNext s x v l = Ok s' ∧ shape s' = shape s ∧
    height_ s' = height_ s ∧ gen_ s' = gen_ s ∧
    ∀ x' l', Next s' x' l' =
      if decide (x' = x ∧ l' = l) then Ok v else Next s x' l'.
Proof.
  intros Hn Hl. unfold SetNext, deref. rewrite Hn, bind_Ok.
  rewrite decide_True by done. eexists. split; [done|]. simpl.
  split; [|split; [done|split; [done|]]].
  - unfold shape. simpl. rewrite list_fmap_insert. simpl.
    rewrite length_insert. apply list_insert_id.
    by rewrite list_lookup_fmap, Hn.
  - intros x' l'. unfold Next, deref. simpl.
    destruct (decide (x' = x)) as [->|Hx].
    + rewrite list_lookup_insert_eq by (by eapply lookup_lt_Some).
      rewrite Hn, !bind_Ok. simpl.
      destruct (decide (l' = l)) as [->|Hl'].
      * rewrite decide_True by done. by rewrite list_lookup_insert_eq.
      * rewrite decide_False by tauto. by rewrite list_lookup_insert_ne.
    + rewrite decide_False by tauto. by rewrite list_lookup_insert_ne.
Qed.

Lemma Next_slot s x l q :
  Next s x l = Ok q →
  ∃ n, nodes s !! x = Some n ∧ l < length (forward n).
Proof.
  unfold Next, deref. destruct (nodes s !! x) as [n|]; [|discriminate].
  rewrite bind_Ok. destruct (forward n !! l) eqn:E; [|discriminate].
  intros _. exists n. split; [done|]. by eapply lookup_lt_Some.
Qed.

Lemma Next_nodes s s' x l : nodes s' = nodes s → Next s' x l = Next s x l.
Proof. unfold Next, deref. by intros ->. Qed.

Lemma chain_nodes s s' l x ps :
  nodes s' = nodes s → chain s l x ps → chain s' l x ps.
Proof. intros H. apply chain_frame. intros; by apply Next_nodes. Qed.

Lemma Inv_nodes s s' L :
  nodes s' = nodes s → height_ s' = height_ s → Inv s L → Inv s' L.
Proof.
  intros Hn Hh [H1 H2 H3 H4 H5 H6 H7].
  assert (keyOf s' = keyOf s) as Hk.
  { unfold keyOf. by rewrite Hn. }
  split; rewrite ?Hh, ?Hn, ?Hk; auto.
  intros l Hl. eapply chain_nodes; eauto.
Qed.

Lemma chain_from_new s s' l x p B :
  chain s l x B → Next s' p l = Ok (head B) →
  (∀ a, a ∈ B → Next s' a l = Next s a l) →
  chain s' l p B.
Proof.
  destruct B as [|b B]; simpl; [done|].
  intros [_ Hc] Hp Hfr. split; [done|].
  eapply chain_frame; [|exact Hc]. done.
Qed.

Lemma randomLevel_loop_ok n : ∀ h s,
  1 ≤ h ≤ MaxLevel →
  ∃ level g, randomLevel_loop n h s = (level, mkSkipList (nodes s) (height_ s) g) ∧
    1 ≤ level ≤ MaxLevel.
Proof.
  induction n as [|n IH]; intros h s Hh; simpl.
  - exists h, (gen_ s). by destruct s.
  - destruct (decide (h < MaxLevel)); [|exists h, (gen_ s); by destruct s].
    destruct (decide (gen_ s 0 = 0)).
    + destruct (IH (S h) (mkSkipList (nodes s) (height_ s) (λ i, gen_ s (S i))))
        as (level & g & -> & Hl); [lia|]. simpl. eauto.
    + eauto.
Qed.

Lemma Insert_raise_ok n : ∀ i update,
  i + n ≤ length update →
  ∃ update', Insert_raise n i update = Ok update' ∧
    length update' = length update ∧
    (∀ l, i ≤ l < i + n → update' !! l = Some (Some head_)) ∧
    (∀ l, ¬ (i ≤ l < i + n) → update' !! l = update !! l).
Proof.
  induction n as [|n IH]; intros i update Hlen; simpl.
  - exists update. repeat split; auto. intros; lia.
  - unfold array_set. rewrite decide_True by lia. rewrite bind_Ok.
    destruct (IH (S i) (<[i:=Some head_]> update)) as (u' & -> & Hl' & Hin & Hout).
    { rewrite length_insert. lia. }
    rewrite length_insert in Hl'. exists u'. repeat split; auto.
    + intros l Hl. destruct (decide (l = i)) as [->|].
      * rewrite Hout by lia. apply list_lookup_insert_eq. lia.
      * apply Hin. lia.
    + intros l Hl. rewrite Hout by lia. apply list_lookup_insert_ne. lia.
Qed.

Lemma Inv_level0 s L x l : Inv s L → x ∈ L l → x ∈ L 0.
Proof.
  intros HI. induction l as [|l IH]; [done|].
  intros Hx. by apply IH, (inv_sub _ _ HI).
Qed.

Lemma Inv_valid s L x l : Inv s L → x ∈ 0 :: L l → x < length (nodes s).
Proof.
  intros HI [->|Hx]%elem_of_cons.
  - pose proof (inv_bound _ _ HI 0). lia.
  - eapply chain_valid; [apply (inv_chain _ _ HI 0); unfold MaxLevel; lia|].
    by eapply Inv_level0.
Qed.

(** *** Linking a new node *)

(** Level [l] once the first [i] levels of the new node [p] are linked. *)
Definition linked s (L : nat → list nat) cond p i l : list nat :=
  if decide (l < i) then below s cond (L l) ++ p :: above s cond (L l)
  else L l.

Lemma Insert_link_ok s0 L cond k level update n :
  let p := length (nodes s0) in
  Inv s0 L → downward cond → level ≤ MaxLevel →
  (∀ l, l < level → update !! l = Some (Some (pred s0 L cond l))) →
  ∀ i si, i + n = level →
    shape si = shape s0 ++ [(k, level)] →
    (∀ l, l < MaxLevel → chain si l 0 (linked s0 L cond p i l)) →
    ∃ sf, Insert_link n i update p si = Ok sf ∧
      shape sf = shape s0 ++ [(k, level)] ∧
      height_ sf = height_ si ∧ gen_ sf = gen_ si ∧
      (∀ l, l < MaxLevel → chain sf l 0 (linked s0 L cond p level l)).
Proof.
  intros p HI Hd Hlev Hupd.
  induction n as [|n IH]; intros i si Hi Hsh Hch; cbn [Insert_link].
  { exists si. assert (i = level) as -> by lia. done. }
  unfold array_get. rewrite Hupd by lia. rewrite bind_Ok.
  set (x := pred s0 L cond i).
  destruct (split_at_pred s0 L cond i HI Hd) as [(HL & HA & HB & Hx) _]; [lia|].
  set (A := below s0 cond (L i)) in *. set (B := above s0 cond (L i)) in *.
  fold x in Hx.
  assert (∀ a, a ∈ 0 :: L i → a < p) as Hvalid.
  { intros a Ha. by eapply Inv_valid. }
  assert (x < p) as Hxp.
  { apply Hvalid. rewrite Hx, HL.
    destruct (lastd_nil_or 0 A) as [[_ ->]|H]; [apply list_elem_of_here|].
    apply list_elem_of_further, elem_of_app. by left. }
  pose proof (Hch i ltac:(lia)) as Hci. unfold linked in Hci.
  rewrite decide_False in Hci by lia. rewrite HL in Hci.
  pose proof (chain_app _ _ _ _ _ Hci) as Hcx. rewrite <- Hx in Hcx.
  pose proof (chain_head _ _ _ _ Hcx) as Hnx.
  unfold NoSyncNext, NoSyncSetNext. rewrite Hnx, bind_Ok.
  assert (∃ np, nodes si !! p = Some np ∧ length (forward np) = level)
    as (np & Hnp & Hnpl).
  { pose proof (f_equal (.!! p) Hsh) as H. unfold shape in H.
    rewrite list_lookup_fmap in H.
    rewrite lookup_app_r, length_fmap in H by (rewrite length_fmap; fold p; lia).
    fold p in H. rewrite Nat.sub_diag in H. simpl in H.
    destruct (nodes si !! p) as [np|]; simplify_eq/=. eauto. }
  destruct (SetNext_ok si p (head B) i np Hnp) as (sa & -> & Hsa & Hha & Hga & Hna);
    [lia|].
  rewrite bind_Ok.
  destruct (Next_slot _ _ _ _ Hnx) as (nx & Hnx1 & Hnx2).
  destruct (shape_lookup si sa x nx Hsa Hnx1) as (nx' & Hnx' & _ & Hlen').
  destruct (SetNext_ok sa x (Some p) i nx' Hnx') as (sb & -> & Hsb & Hhb & Hgb & Hnb);
    [lia|].
  rewrite bind_Ok.
  assert (∀ a l, Next sb a l =
    if decide (a = x ∧ l = i) then Ok (Some p)
    else if decide (a = p ∧ l = i) then Ok (head B) else Next si a l) as Hnext.
  { intros a l. rewrite Hnb. destruct (decide (a = x ∧ l = i)); [done|].
    apply Hna. }
  destruct (IH (S i) sb) as (sf & -> & Hf1 & Hf2 & Hf3 & Hf4).
  - lia.
  - by rewrite Hsb, Hsa.
  - intros l Hl. unfold linked. destruct (decide (l = i)) as [->|Hne].
    + rewrite decide_True by lia. fold A B.
      pose proof (inv_nodup _ _ HI i) as Hnd. rewrite HL in Hnd.
      apply (chain_link si sb i 0 A B p).
      * rewrite app_comm_cons in Hnd. by apply NoDup_app in Hnd as [? _].
      * done.
      * rewrite <- Hx, Hnext. by rewrite decide_True.
      * apply (chain_from_new si sb i x p B Hcx).
        -- rewrite Hnext. rewrite decide_False by lia.
           by rewrite decide_True.
        -- intros a Ha. rewrite Hnext.
           rewrite decide_False; [rewrite decide_False; [done|]|].
           ++ intros [-> _]. assert (p < p); [|lia].
              apply Hvalid. rewrite HL. apply list_elem_of_further, elem_of_app.
              by right.
           ++ intros [-> _]. rewrite app_comm_cons in Hnd.
              apply NoDup_app in Hnd as (_ & Hnd & _).
              apply (Hnd x); [|done]. rewrite Hx. apply lastd_elem.
      * intros a Ha Hax. rewrite Hnext. rewrite <- Hx in Hax.
        rewrite decide_False by tauto. rewrite decide_False; [done|].
        intros [-> _]. assert (p < p); [|lia].
        apply Hvalid. rewrite HL.
        apply elem_of_cons in Ha as [->|Ha]; [apply list_elem_of_here|].
        apply list_elem_of_further, elem_of_app. by left.
    + assert (linked s0 L cond p (S i) l = linked s0 L cond p i l) as He.
      { unfold linked. destruct (decide (l < i)).
        - by rewrite decide_True by lia.
        - by rewrite decide_False by lia. }
      unfold linked in He. rewrite He. fold (linked s0 L cond p i l).
      eapply chain_frame; [|apply Hch, Hl].
      intros a _. rewrite Hnext.
      rewrite decide_False by tauto. by rewrite decide_False by tauto.
  - exists sf. repeat split; auto; congruence.
Qed.

(** *** Insertion *)

(** The sorted sequence of keys after inserting [k]: a key equivalent to
    one that is there already is not stored. *)
Fixpoint ref_insert k (ks : list T) : list T :=
  match ks with
  | [] => [k]
  | k' :: ks' =>
      if compare_ k' k then k' :: ref_insert k ks'
      else if compare_ k k' then k :: ks
      else ks
  end.

Lemma ref_insert_app k A B :
  Forall (λ a, compare_ a k = true) A →
  (∀ b, head B = Some b → compare_ b k = false) →
  ref_insert k (A ++ B) =
    A ++ match B with
         | [] => [k]
         | b :: _ => if compare_ k b then k :: B else B
         end.
Proof.
  intros HA HB. induction HA as [|a A Ha HA IH]; simpl.
  - destruct B as [|b B]; [done|]. simpl. by rewrite (HB b eq_refl).
  - by rewrite Ha, IH.
Qed.

Lemma sorted_insert k (A B : list T) :
  StronglySorted lt (A ++ B) →
  Forall (λ a, lt a k) A → Forall (λ b, lt k b) B →
  StronglySorted lt (A ++ k :: B).
Proof.
  rewrite !StronglySorted_app. intros (Hc & HA & HB) HAk HkB.
  rewrite Forall_forall in HAk. split; [|split; [done|]].
  - intros a b Ha [->|Hb]%elem_of_cons; auto.
  - by apply StronglySorted_cons.
Qed.

Lemma shape_snoc s s' k level :
  shape s' = shape s ++ [(k, level)] →
  length (nodes s') = S (length (nodes s)) ∧
  keyOf s' (length (nodes s)) = k ∧
  ∀ q, q < length (nodes s) → keyOf s' q = keyOf s q.
Proof.
  intros H. split; [|split].
  - apply (f_equal length) in H. unfold shape in H.
    rewrite length_app, !length_fmap in H. simpl in H. lia.
  - apply (f_equal (.!! length (nodes s))) in H. unfold shape, keyOf in *.
    rewrite list_lookup_fmap in H.
    rewrite lookup_app_r, length_fmap, Nat.sub_diag in H
      by (by rewrite length_fmap).
    destruct (nodes s' !! length (nodes s)); simplify_eq/=. done.
  - intros q Hq. apply (f_equal (.!! q)) in H. unfold shape, keyOf in *.
    rewrite lookup_app_l, !list_lookup_fmap in H by (by rewrite length_fmap).
    destruct (nodes s' !! q), (nodes s !! q); simplify_eq/=; done.
Qed.

Lemma below_above s cond ps : below s cond ps ++ above s cond ps = ps.
Proof.
  induction ps as [|q ps IH]; simpl; [done|].
  destruct (cond (keyOf s q)); simpl; [by rewrite IH|done].
Qed.

Lemma below_Forall s cond ps :
  Forall (λ q, cond (keyOf s q) = true) (below s cond ps).
Proof.
  induction ps as [|q ps IH]; simpl; [constructor|].
  destruct (cond (keyOf s q)) eqn:E; by constructor.
Qed.

Lemma elem_of_linked s L cond p i l q :
  q ∈ linked s L cond p i l ↔ (l < i ∧ q = p) ∨ q ∈ L l.
Proof.
  unfold linked. destruct (decide (l < i)) as [Hl|Hl].
  - rewrite <- (below_above s cond (L l)) at 3.
    rewrite !elem_of_app, elem_of_cons. tauto.
  - tauto.
Qed.

Lemma length_linked s L cond p i l :
  length (linked s L cond p i l) ≤ S (length (L l)).
Proof.
  unfold linked. destruct (decide (l < i)); [|lia].
  rewrite <- (below_above s cond (L l)) at 3.
  rewrite !length_app. simpl. lia.
Qed.

Lemma Insert_new_ok s L k update :
  let cond := λ k', compare_ k' k in
  let p := length (nodes s) in
  Inv s L → downward cond →
  length update = MaxLevel →
  (∀ l, l < height_ s → update !! l = Some (Some (pred s L cond l))) →
  Forall (λ b, lt k (keyOf s b)) (above s cond (L 0)) →
  ∃ s' level, Insert_new s k update = Ok (Some p, s') ∧
    1 ≤ level ≤ MaxLevel ∧
    Inv s' (linked s L cond p level) ∧
    shape s' = shape s ++ [(k, level)].
Proof.
  intros cond p HI Hd Hlen Hupd Hab.
  pose proof (inv_height _ _ HI) as Hh.
  unfold Insert_new, randomLevel.
  destruct (randomLevel_loop_ok MaxLevel 1 s) as (level & g & -> & Hlev);
    [unfold MaxLevel; lia|].
  unfold getHeight. cbn [height_ nodes gen_].
  assert (∃ u' h',
    (if decide (height_ s < level)
     then Insert_raise (level - height_ s) (height_ s) update
          ≫= λ update', Ok (update', mkSkipList (nodes s) level g)
     else Ok (update, mkSkipList (nodes s) (height_ s) g))
      = Ok (u', mkSkipList (nodes s) h' g) ∧
    h' = height_ s `max` level ∧
    ∀ l, l < level → u' !! l = Some (Some (pred s L cond l)))
    as (u' & h' & -> & Hh' & Hu').
  { destruct (decide (height_ s < level)) as [Hlt|Hge].
    - destruct (Insert_raise_ok (level - height_ s) (height_ s) update)
        as (u' & -> & _ & Hin & Hout); [lia|].
      rewrite bind_Ok. exists u', level. split; [done|]. split; [lia|].
      intros l Hl. destruct (decide (l < height_ s)) as [Hl'|Hl'].
      + rewrite Hout by lia. by apply Hupd.
      + rewrite Hin by lia. by rewrite (pred_top s L cond l HI) by lia.
    - exists update, (height_ s). split; [done|]. split; [lia|].
      intros l Hl. apply Hupd. lia. }
  rewrite bind_Ok. unfold Make. cbn [height_ nodes gen_].
  set (s3 := mkSkipList (nodes s ++ [mkNode k (replicate level None)]) h' g).
  assert (∀ l a, a ∈ 0 :: L l → a < p) as Hvalid.
  { intros l a Ha. by eapply Inv_valid. }
  destruct (Insert_link_ok s L cond k level u' level HI Hd ltac:(lia) Hu' 0 s3)
    as (sf & Hlink & Hsf & Hhf & Hgf & Hcf).
  - lia.
  - unfold shape, s3. cbn [nodes]. rewrite fmap_app. simpl.
    by rewrite length_replicate.
  - intros l Hl. unfold linked. rewrite decide_False by lia.
    eapply chain_frame; [|apply (inv_chain _ _ HI l Hl)].
    intros a Ha. unfold Next, deref, s3. cbn [nodes].
    rewrite lookup_app_l; [done|]. by apply (Hvalid l).
  - subst p. rewrite Hlink, bind_Ok. exists sf, level.
    split; [done|]. split; [done|]. split; [|done].
    destruct (shape_snoc s sf k level Hsf) as (Hlen' & Hkp & Hkq).
    assert (∀ l, keyOf sf <$> L l = keyOf s <$> L l) as HkL.
    { intros l. apply list_fmap_ext. intros i q Hq. apply Hkq, (Hvalid l).
      apply list_elem_of_further. by eapply list_elem_of_lookup_2. }
    split.
    + rewrite Hhf. unfold s3. cbn [height_]. lia.
    + done.
    + intros l Hl. unfold linked. rewrite decide_False.
      * apply (inv_empty _ _ HI). rewrite Hhf in Hl. unfold s3 in Hl.
        cbn [height_] in Hl. lia.
      * rewrite Hhf in Hl. unfold s3 in Hl. cbn [height_] in Hl. lia.
    + intros l q. rewrite !elem_of_linked. intros [[Hl ->]|Hq].
      * left. split; [lia|done].
      * right. by apply (inv_sub _ _ HI).
    + intros l. unfold linked. destruct (decide (l < level)) as [Hl|Hl];
        [|rewrite HkL; apply (inv_sorted _ _ HI)].
      destruct (split_at_pred s L cond l HI Hd) as [(HL & HA & HB & _) _];
        [lia|].
      pose proof (HkL l) as HkLl. rewrite HL, !fmap_app in HkLl.
      apply app_inj_1 in HkLl as [HkA HkB]; [|by rewrite !length_fmap].
      rewrite fmap_app, fmap_cons, HkA, HkB, Hkp.
      apply sorted_insert.
      * rewrite <- fmap_app, <- HL. apply (inv_sorted _ _ HI).
      * apply Forall_fmap. exact HA.
      * apply Forall_fmap, Forall_forall. intros b Hb. simpl.
        rewrite Forall_forall in Hab. apply Hab.
        assert (b ∈ L 0) as Hb0.
        { apply (Inv_level0 s L b l HI). rewrite HL. apply elem_of_app. by right. }
        rewrite <- (below_above s cond (L 0)) in Hb0.
        apply elem_of_app in Hb0 as [Hb0|Hb0]; [|done].
        pose proof (below_Forall s cond (L 0)) as Hbl.
        rewrite Forall_forall in Hbl, HB.
        specialize (Hbl b Hb0). specialize (HB b Hb). congruence.
    + intros l. pose proof (inv_nodup _ _ HI l) as Hnd.
      unfold linked. destruct (decide (l < level)); [|done].
      rewrite <- (below_above s cond (L l)) in Hnd.
      assert (length (nodes s) ∉ 0 :: L l) as Hp.
      { intros Hin. apply (Hvalid l) in Hin. lia. }
      rewrite <- (below_above s cond (L l)) in Hp.
      revert Hnd Hp. rewrite !NoDup_cons, !NoDup_app, !NoDup_cons.
      rewrite !elem_of_cons, !elem_of_app. setoid_rewrite elem_of_cons.
      intros (H0 & HA & Hdis & HB) Hp. repeat split; auto.
      * intros [?|[?|?]]; [tauto|apply Hp; left; congruence|tauto].
      * intros x Hx [->|Hx']; [tauto|]. by apply (Hdis x).
    + intros l. pose proof (length_linked s L cond (length (nodes s)) level l).
      pose proof (inv_bound _ _ HI l). lia.
Qed.

Definition transitive : Prop := ∀ a b c, lt a b → lt b c → lt a c.

Lemma downward_lower k : transitive → downward (λ k', compare_ k' k).
Proof. intros Ht a b Hab Hb. exact (Ht a b k Hab Hb). Qed.

Lemma downward_upper k : transitive → downward (λ k', negb (compare_ k k')).
Proof.
  intros Ht a b Hab Hb. apply negb_true_iff in Hb. apply negb_true_iff.
  destruct (compare_ k a) eqn:E; [|done].
  rewrite <- Hb. symmetry. exact (Ht k a b E Hab).
Qed.

Lemma Insert_ok s L k :
  let cond := λ k', compare_ k' k in
  transitive → Inv s L →
  (∃ y B, above s cond (L 0) = y :: B ∧
     keyEq compare_ k (keyOf s y) = true ∧
     Insert compare_ s k = Ok (Some y, s)) ∨
  (Forall (λ b, lt k (keyOf s b)) (above s cond (L 0)) ∧
   ∃ s' level, Insert compare_ s k = Ok (Some (length (nodes s)), s') ∧
     1 ≤ level ≤ MaxLevel ∧
     Inv s' (linked s L cond (length (nodes s)) level) ∧
     shape s' = shape s ++ [(k, level)]).
Proof.
  intros cond Ht HI. pose proof (downward_lower k Ht) as Hd. fold cond in Hd.
  pose proof (inv_height _ _ HI) as Hh.
  unfold Insert, getHeight, head_.
  destruct (Insert_search_ok s L k (height_ s) (replicate MaxLevel None) HI Hd)
    as (u & Hs & Hlen & Hlo & _); [lia|by rewrite length_replicate|].
  fold cond in Hs, Hlo. rewrite (pred_top s L cond (height_ s) HI) in Hs by lia.
  rewrite Hs, bind_Ok. cbn beta iota.
  rewrite (Next_pred s L cond HI Hd), bind_Ok.
  rewrite (Find_ok s L k HI Hd). fold cond.
  destruct (split_at_pred s L cond 0 HI Hd) as [(HL & HA & HB & _) _];
    [unfold MaxLevel; lia|].
  destruct (above s cond (L 0)) as [|y B] eqn:E; cbn [head].
  - right. split; [constructor|]. rewrite !bind_Ok. cbn [assert bool_decide].
    rewrite bool_decide_eq_true_2 by done. cbn [assert]. rewrite bind_Ok.
    apply (Insert_new_ok s L k u HI Hd Hlen Hlo). fold cond. rewrite E.
    constructor.
  - destruct (deref_valid s L y 0 HI) as (n & -> & Hkn).
    { rewrite HL. apply elem_of_app. right. apply list_elem_of_here. }
    rewrite !bind_Ok, Hkn.
    assert (compare_ (keyOf s y) k = false) as Hyk by (by inversion HB).
    destruct (keyEq compare_ k (keyOf s y)) eqn:Heq.
    + left. exists y, B. done.
    + right. unfold keyEq in Heq. rewrite Hyk in Heq. simpl in Heq.
      apply negb_false_iff in Heq.
      assert (Forall (λ b, lt k (keyOf s b)) (y :: B)) as Hab.
      { constructor; [done|].
        pose proof (inv_sorted _ _ HI 0) as Hsd.
        rewrite HL, fmap_app in Hsd. apply StronglySorted_app_1_r in Hsd.
        rewrite fmap_cons in Hsd. apply StronglySorted_cons in Hsd as [Hsd _].
        rewrite Forall_fmap in Hsd. eapply Forall_impl; [exact Hsd|].
        intros b Hb. exact (Ht _ _ _ Heq Hb). }
      split; [done|]. rewrite Heq.
      rewrite bool_decide_eq_true_2 by done. cbn [assert]. rewrite bind_Ok.
      apply (Insert_new_ok s L k u HI Hd Hlen Hlo). fold cond. by rewrite E.
Qed.

(** *** What a caller sees *)

Fixpoint drop_while (f : T → bool) (ks : list T) : list T :=
  match ks with
  | [] => []
  | k :: ks' => if f k then drop_while f ks' else ks
  end.

Fixpoint take_while (f : T → bool) (ks : list T) : list T :=
  match ks with
  | [] => []
  | k :: ks' => if f k then k :: take_while f ks' else []
  end.

Lemma fmap_above s cond ps :
  keyOf s <$> above s cond ps = drop_while cond (keyOf s <$> ps).
Proof.
  induction ps as [|q ps IH]; simpl; [done|].
  by destruct (cond (keyOf s q)).
Qed.

Lemma fmap_below s cond ps :
  keyOf s <$> below s cond ps = take_while cond (keyOf s <$> ps).
Proof.
  induction ps as [|q ps IH]; simpl; [done|].
  destruct (cond (keyOf s q)); [|done]. by rewrite fmap_cons, IH.
Qed.

Lemma walk_chain s ps : ∀ x fuel,
  chain s 0 x ps → length ps < fuel →
  walk fuel s (head ps) = Ok (keyOf s <$> ps).
Proof.
  induction ps as [|q ps IH]; intros x fuel Hc Hf;
    (destruct fuel as [|fuel]; [simpl in Hf; lia|]); simpl in *; [done|].
  destruct Hc as [_ Hc].
  destruct (Next_deref _ _ _ _ (chain_head _ _ _ _ Hc)) as [n Hn].
  unfold deref, keyOf. rewrite Hn, !bind_Ok. simpl.
  rewrite (chain_head _ _ _ _ Hc), bind_Ok.
  rewrite (IH q fuel Hc) by lia. by rewrite bind_Ok.
Qed.

(** [s] holds the keys [ks], in this order. *)
Definition Repr s (ks : list T) : Prop :=
  ∃ L, Inv s L ∧ keyOf s <$> L 0 = ks.

Lemma Repr_new gen : Repr (SkipList_new T0 gen) [].
Proof.
  exists (λ _, []). split; [|done]. split; simpl; try done.
  - unfold MaxLevel. lia.
  - intros l Hl. unfold Next, deref, SkipList_new. cbn [nodes].
    change (_ !! 0) with (Some (mkNode T0 (replicate MaxLevel (Some None)))).
    cbv beta iota. rewrite bind_Ok. cbn [forward].
    by rewrite lookup_replicate_2.
  - intros l. constructor.
  - intros l. apply NoDup_singleton.
  - intros l. lia.
Qed.

Lemma Repr_sorted s ks : Repr s ks → StronglySorted lt ks.
Proof. intros (L & HI & <-). apply (inv_sorted _ _ HI). Qed.

Lemma Repr_traverse s ks : Repr s ks → traverse s = Ok ks.
Proof.
  intros (L & HI & <-). unfold traverse, Begin, head_.
  pose proof (inv_chain _ _ HI 0 ltac:(unfold MaxLevel; lia)) as Hc.
  rewrite (chain_head _ _ _ _ Hc), bind_Ok.
  apply (walk_chain s (L 0) 0); [done|].
  pose proof (inv_bound _ _ HI 0). unfold fuel_of. lia.
Qed.

Lemma walk_above s L cond :
  Inv s L → downward cond →
  walk (fuel_of s) s (head (above s cond (L 0)))
    = Ok (drop_while cond (keyOf s <$> L 0)).
Proof.
  intros HI Hd. rewrite <- fmap_above.
  pose proof (inv_chain _ _ HI 0 ltac:(unfold MaxLevel; lia)) as Hc.
  rewrite <- (below_above s cond (L 0)) in Hc. apply chain_app in Hc.
  eapply walk_chain; [exact Hc|].
  pose proof (inv_bound _ _ HI 0) as Hb.
  rewrite <- (below_above s cond (L 0)), length_app in Hb.
  unfold fuel_of. lia.
Qed.

Lemma fmap_linked s s' L cond k p level l :
  Inv s L → p = length (nodes s) →
  shape s' = shape s ++ [(k, level)] → l < level →
  keyOf s' <$> linked s L cond p level l =
    (keyOf s <$> below s cond (L l)) ++ k :: (keyOf s <$> above s cond (L l)).
Proof.
  intros HI -> Hsh Hl. unfold linked. rewrite decide_True by done.
  destruct (shape_snoc s s' k level Hsh) as (_ & Hkp & Hkq).
  assert (keyOf s' <$> L l = keyOf s <$> L l) as HkL.
  { apply list_fmap_ext. intros i q Hq. apply Hkq, (Inv_valid s L q l HI).
    apply list_elem_of_further. by eapply list_elem_of_lookup_2. }
  rewrite <- (below_above s cond (L l)), !fmap_app in HkL.
  apply app_inj_1 in HkL as [HkA HkB]; [|by rewrite !length_fmap].
  by rewrite fmap_app, fmap_cons, HkA, HkB, Hkp.
Qed.

Lemma Insert_Repr s ks k :
  transitive → Repr s ks →
  ∃ it s', Insert compare_ s k = Ok (it, s') ∧ Repr s' (ref_insert k ks).
Proof.
  intros Ht (L & HI & <-). set (cond := λ k', compare_ k' k).
  pose proof (downward_lower k Ht) as Hd. fold cond in Hd.
  assert (keyOf s <$> L 0 =
    (keyOf s <$> below s cond (L 0)) ++ (keyOf s <$> above s cond (L 0))) as Hks.
  { by rewrite <- fmap_app, below_above. }
  assert (Forall (λ a, compare_ a k = true) (keyOf s <$> below s cond (L 0))) as HA.
  { apply Forall_fmap. apply (below_Forall s cond). }
  destruct (split_at_pred s L cond 0 HI Hd) as [(_ & _ & HB & _) _];
    [unfold MaxLevel; lia|].
  rewrite Hks, ref_insert_app; [|done|].
  2:{ intros b Hb. destruct (above s cond (L 0)); simplify_eq/=.
      by inversion HB. }
  destruct (Insert_ok s L k Ht HI) as
    [(y & B & E & Heq & ->)|(Hab & s' & level & -> & Hlev & HI' & Hsh)].
  - exists (Some y), s. split; [done|]. exists L. split; [done|].
    fold cond in E. rewrite Hks, E. simpl.
    unfold keyEq in Heq. apply andb_true_iff in Heq as [_ Heq].
    apply negb_true_iff in Heq. by rewrite Heq.
  - eexists _, s'. split; [done|]. eexists. split; [exact HI'|].
    fold cond. rewrite (fmap_linked s s' L cond k _ level 0 HI eq_refl Hsh)
      by lia.
    f_equal. fold cond in Hab. destruct (above s cond (L 0)) as [|b B]; [done|].
    simpl. apply Forall_inv in Hab. unfold lt in Hab. by rewrite Hab.
Qed.

(** The keys stored after inserting [ks] one after the other. *)
Fixpoint ref_insert_all (acc : list T) (ks : list T) : list T :=
  match ks with
  | [] => acc
  | k :: ks' => ref_insert_all (ref_insert k acc) ks'
  end.

Lemma InsertAll_Repr ks : ∀ s acc,
  transitive → Repr s acc →
  ∃ s', InsertAll compare_ s ks = Ok s' ∧ Repr s' (ref_insert_all acc ks).
Proof.
  induction ks as [|k ks IH]; intros s acc Ht Hr; simpl; [eauto|].
  destruct (Insert_Repr s acc k Ht Hr) as (it & s' & -> & Hr').
  rewrite bind_Ok. cbn beta iota. by apply IH.
Qed.

Record strict_weak_order : Prop := {
  swo_irrefl : ∀ a, compare_ a a = false;
  swo_trans : transitive;
  swo_equiv : ∀ a b c, equiv a b → equiv b c → equiv a c
}.

Lemma equiv_sym a b : equiv a b → equiv b a.
Proof. unfold equiv. tauto. Qed.

Lemma ref_insert_elem k ks e : e ∈ ref_insert k ks → e = k ∨ e ∈ ks.
Proof.
  induction ks as [|k' ks IH]; simpl.
  - intros ->%list_elem_of_singleton. by left.
  - destruct (compare_ k' k); [|destruct (compare_ k k')].
    + rewrite !elem_of_cons. tauto.
    + rewrite !elem_of_cons. tauto.
    + tauto.
Qed.

Lemma ref_insert_keeps k ks e : e ∈ ks → e ∈ ref_insert k ks.
Proof.
  induction ks as [|k' ks IH]; simpl; [by intros ?%not_elem_of_nil|].
  destruct (compare_ k' k); [|destruct (compare_ k k')].
  - rewrite !elem_of_cons. tauto.
  - apply list_elem_of_further.
  - done.
Qed.

Lemma ref_insert_has k ks :
  strict_weak_order → ∃ e, e ∈ ref_insert k ks ∧ equiv e k.
Proof.
  intros Hs. induction ks as [|k' ks (e & He & Hek)]; simpl.
  - exists k. split; [apply list_elem_of_here|]. split; apply (swo_irrefl Hs).
  - destruct (compare_ k' k) eqn:E1; [|destruct (compare_ k k') eqn:E2].
    + exists e. split; [by apply list_elem_of_further|done].
    + exists k. split; [apply list_elem_of_here|]. split; apply (swo_irrefl Hs).
    + exists k'. split; [apply list_elem_of_here|done].
Qed.

Lemma ref_insert_all_elem ks : ∀ acc e,
  e ∈ ref_insert_all acc ks → e ∈ acc ∨ e ∈ ks.
Proof using Type.
  induction ks as [|k ks IH]; intros acc e; simpl; [by left|].
  intros H. apply IH in H as [H|H].
  - apply ref_insert_elem in H as [->|H]; [right; apply list_elem_of_here|].
    by left.
  - right. by apply list_elem_of_further.
Qed.

Lemma ref_insert_all_keeps ks : ∀ acc e,
  e ∈ acc → e ∈ ref_insert_all acc ks.
Proof.
  induction ks as [|k ks IH]; intros acc e He; simpl; [done|].
  by apply IH, ref_insert_keeps.
Qed.

Lemma ref_insert_all_has ks : ∀ acc k,
  strict_weak_order → k ∈ ks →
  ∃ e, e ∈ ref_insert_all acc ks ∧ equiv e k.
Proof.
  induction ks as [|k' ks IH]; intros acc k Hs Hk; simpl.
  - by apply not_elem_of_nil in Hk.
  - apply elem_of_cons in Hk as [->|Hk]; [|by apply IH].
    destruct (ref_insert_has k' acc Hs) as (e & He & Hek).
    exists e. split; [by apply ref_insert_all_keeps|done].
Qed.

(** [it] stands on the first key of [ks] on which [f] fails, where [f]
    holds on an initial segment of [ks]: iterating from [it] to [End()]
    gives the keys from that one on. *)
Definition bound_at s (ks : list T) (f : T → bool) (it : Iterator) : Prop :=
  ∃ pre suf, ks = pre ++ suf ∧
    Forall (λ e, f e = true) pre ∧ Forall (λ e, f e = false) suf ∧
    walk (fuel_of s) s it = Ok suf ∧ (it = End ↔ suf = []).

Lemma Bound_Repr s ks cond :
  downward cond → Repr s ks →
  ∃ it, Bound_search cond s (getHeight s) head_ = Ok it ∧
    bound_at s ks cond it.
Proof.
  intros Hd (L & HI & <-). pose proof (inv_height _ _ HI) as Hh.
  pose proof (Bound_search_ok s L cond (height_ s) HI Hd ltac:(lia)) as Hb.
  rewrite (pred_top s L cond (height_ s) HI) in Hb by lia.
  unfold getHeight, head_. rewrite Hb. eexists. split; [done|].
  destruct (split_at_pred s L cond 0 HI Hd) as [(_ & _ & HB & _) _];
    [unfold MaxLevel; lia|].
  exists (keyOf s <$> below s cond (L 0)), (keyOf s <$> above s cond (L 0)).
  split; [by rewrite <- fmap_app, below_above|].
  split; [apply Forall_fmap, (below_Forall s cond)|].
  split; [by apply Forall_fmap|].
  split; [rewrite fmap_above; by apply walk_above|].
  unfold End. by destruct (above s cond (L 0)).
Qed.

(** The facts about the two halves of level 0 that the searches use. *)
Lemma level0_split s L cond :
  Inv s L → downward cond →
  ∃ A B, L 0 = A ++ B ∧ above s cond (L 0) = B ∧
    Forall (λ e, cond e = true) (keyOf s <$> A) ∧
    Forall (λ e, cond e = false) (keyOf s <$> B) ∧
    StronglySorted lt (keyOf s <$> B) ∧
    walk (fuel_of s) s (head B) = Ok (keyOf s <$> B).
Proof.
  intros HI Hd. exists (below s cond (L 0)), (above s cond (L 0)).
  destruct (split_at_pred s L cond 0 HI Hd) as [(_ & _ & HB & _) _];
    [unfold MaxLevel; lia|].
  split; [by rewrite below_above|]. split; [done|].
  split; [apply Forall_fmap, (below_Forall s cond)|].
  split; [by apply Forall_fmap|]. split.
  - pose proof (inv_sorted _ _ HI 0) as Hsd.
    rewrite <- (below_above s cond (L 0)), fmap_app in Hsd.
    by apply StronglySorted_app_1_r in Hsd.
  - rewrite fmap_above. by apply walk_above.
Qed.

Lemma Find_Repr s ks k :
  transitive → Repr s ks →
  ∃ it, Find compare_ s k = Ok it ∧
    (it = End ↔ ¬ ∃ e, e ∈ ks ∧ equiv e k) ∧
    (it ≠ End → ∃ pre e post, ks = pre ++ e :: post ∧ equiv e k ∧
       walk (fuel_of s) s it = Ok (e :: post)).
Proof.
  intros Ht (L & HI & <-). set (cond := λ k', compare_ k' k).
  pose proof (downward_lower k Ht) as Hd. fold cond in Hd.
  rewrite (Find_ok s L k HI Hd). fold cond. eexists. split; [done|].
  destruct (level0_split s L cond HI Hd) as (A & B & -> & -> & HA & HB & Hsd & Hw).
  rewrite fmap_app. rewrite Forall_forall in HA.
  destruct B as [|y B]; simpl in *.
  - split; [|done]. split; [|done]. intros _ (e & He & Hek & _).
    rewrite app_nil_r in He. apply HA in He. unfold cond in He. congruence.
  - apply StronglySorted_cons in Hsd as [Hsd _]. rewrite Forall_forall in Hsd.
    apply Forall_inv in HB. unfold cond in HB.
    destruct (compare_ k (keyOf s y)) eqn:E.
    + split; [|done]. split; [|done]. intros _ (e & He & Hek & Hke).
      apply elem_of_app in He as [He|He].
      * apply HA in He. unfold cond in He. congruence.
      * apply elem_of_cons in He as [->|He]; [congruence|].
        apply Hsd in He. pose proof (Ht _ _ _ E He) as Hlt.
        unfold lt in Hlt. congruence.
    + split.
      * split; [done|]. intros []. exists (keyOf s y).
        split; [|done]. apply elem_of_app. right. apply list_elem_of_here.
      * intros _. by exists (keyOf s <$> A), (keyOf s y), (keyOf s <$> B).
Qed.

Lemma Insert_existing s ks k e :
  strict_weak_order → Repr s ks → e ∈ ks → equiv k e →
  ∃ pre post it, ks = pre ++ e :: post ∧
    Insert compare_ s k = Ok (it, s) ∧
    walk (fuel_of s) s it = Ok (e :: post).
Proof.
  intros Hs (L & HI & <-) He Heq. pose proof (swo_trans Hs) as Ht.
  set (cond := λ k', compare_ k' k).
  pose proof (downward_lower k Ht) as Hd. fold cond in Hd.
  pose proof (Insert_ok s L k Ht HI) as Hins. fold cond in Hins.
  destruct (level0_split s L cond HI Hd) as (A & B & HL & HB' & HA & HB & Hsd & Hw).
  rewrite HB' in Hins. rewrite HL in He |- *. clear HL HB'.
  rewrite fmap_app in He |- *. rewrite Forall_forall in HA.
  destruct Heq as [Hke Hek].
  apply elem_of_app in He as [He|He].
  { apply HA in He. unfold cond in He. congruence. }
  destruct Hins as [(y & B' & -> & Hy & ->)|(Hab & _)].
  - simpl in *.
    apply StronglySorted_cons in Hsd as [Hsd _]. rewrite Forall_forall in Hsd.
    assert (e = keyOf s y) as ->.
    { apply elem_of_cons in He as [->|He]; [done|]. apply Hsd in He.
      unfold keyEq in Hy. apply andb_true_iff in Hy as [Hy1 Hy2].
      apply negb_true_iff in Hy1, Hy2.
      destruct (swo_equiv Hs (keyOf s y) k e) as [Hc _]; [done|done|].
      unfold lt in He. congruence. }
    by exists (keyOf s <$> A), (keyOf s <$> B'), (Some y).
  - assert (Forall (lt k) (keyOf s <$> B)) as Hab' by (by apply Forall_fmap).
    rewrite Forall_forall in Hab'. apply Hab' in He. unfold lt in He.
    congruence.
Qed.

End SkipList_spec.

(** ** The skip list: what the specification promises *)

Lemma StronglySorted_lookup_lt {A} (R : relation A) (l : list A) : ∀ i j a b,
  StronglySorted R l → i < j → l !! i = Some a → l !! j = Some b → R a b.
Proof.
  induction l as [|x l IH]; intros i j a b Hs Hij Ha Hb; [done|].
  apply StronglySorted_cons in Hs as [Hx Hs].
  destruct j as [|j]; [lia|]. destruct i as [|i]; simpl in *.
  - simplify_eq. rewrite Forall_forall in Hx.
    by eapply Hx, list_elem_of_lookup_2.
  - eapply (IH i j); eauto. lia.
Qed.

Lemma walk_star {T} (s : @SkipList T) fuel it e post :
  walk fuel s it = Ok (e :: post) → it ≠ End ∧ star s it = Ok e.
Proof.
  destruct fuel as [|fuel]; [done|]. simpl.
  destruct it as [x|]; [|done]. intros H. split; [done|].
  destruct (star s (Some x)) as [k|]; [|done]. rewrite bind_Ok in H.
  destruct (incr s (Some x)) as [it'|]; [|done]. rewrite bind_Ok in H.
  destruct (walk fuel s it') as [ks|]; [|done]. rewrite bind_Ok in H.
  by simplify_eq.
Qed.

Lemma InsertAll_new_Repr {T} (compare_ : T → T → bool) T0 gen ks :
  strict_weak_order compare_ →
  ∃ s, InsertAll compare_ (SkipList_new T0 gen) ks = Ok s ∧
    Repr compare_ T0 s (ref_insert_all compare_ [] ks).
Proof.
  intros Hs. apply InsertAll_Repr; [apply (swo_trans _ Hs)|apply Repr_new].
Qed.

Lemma Zltb_strict_weak_order : strict_weak_order Z.ltb.
Proof.
  split.
  - intros a. apply Z.ltb_irrefl.
  - intros a b c. unfold lt. rewrite !Z.ltb_lt. lia.
  - intros a b c. unfold equiv. rewrite !Z.ltb_ge. lia.
Qed.

(** The keys of [l] are those of [ks], up to equivalence. *)
Definition same_keys {T} (compare_ : T → T → bool) (l ks : list T) : Prop :=
  (∀ e, e ∈ l → e ∈ ks) ∧ (∀ k, k ∈ ks → ∃ e, e ∈ l ∧ equiv compare_ e k).

Lemma stored_same_keys {T} (compare_ : T → T → bool) ks :
  strict_weak_order compare_ →
  same_keys compare_ (ref_insert_all compare_ [] ks) ks.
Proof.
  intros Hs. split.
  - intros e He. destruct (ref_insert_all_elem compare_ ks [] e He) as [H|H];
      [|done]. by apply not_elem_of_nil in H.
  - intros k Hk. by apply ref_insert_all_has.
Qed.

(** C1. Whatever keys are inserted, in whatever order and with whatever
    random heights, every [Insert] returns and the traversal from [Begin()]
    to [End()] is strictly increasing under the comparator, holds no two
    equivalent keys, and holds the inserted keys up to equivalence.
    Inserting 5, 3, 8, 3, 1 into a list of integers gives 1, 3, 5, 8. *)
Theorem SkipList_traversal_sorted :
  (∀ (T : Type) (compare_ : T → T → bool) (T0 : T) (gen : nat → nat)
     (ks : list T),
     strict_weak_order compare_ →
     ∃ s l, InsertAll compare_ (SkipList_new T0 gen) ks = Ok s ∧
       traverse s = Ok l ∧
       StronglySorted (lt compare_) l ∧
       (∀ i j a b, i ≠ j → l !! i = Some a → l !! j = Some b →
          ¬ equiv compare_ a b) ∧
       same_keys compare_ l ks) ∧
  (∀ gen : nat → nat,
     ∃ s, InsertAll Z.ltb (SkipList_new 0%Z gen) [5; 3; 8; 3; 1]%Z = Ok s ∧
       traverse s = Ok [1; 3; 5; 8]%Z).
Proof.
  split.
  - intros T compare_ T0 gen ks Hs.
    destruct (InsertAll_new_Repr compare_ T0 gen ks Hs) as (s & Hi & Hr).
    exists s, (ref_insert_all compare_ [] ks). split; [done|].
    split; [by eapply Repr_traverse|].
    pose proof (Repr_sorted _ _ _ _ Hr) as Hsd. split; [done|].
    split; [|by apply stored_same_keys].
    intros i j a b Hij Ha Hb [Hab Hba].
    destruct (decide (i < j)).
    + pose proof (StronglySorted_lookup_lt _ _ i j a b Hsd ltac:(lia) Ha Hb) as H.
      unfold lt in H. congruence.
    + pose proof (StronglySorted_lookup_lt _ _ j i b a Hsd ltac:(lia) Hb Ha) as H.
      unfold lt in H. congruence.
  - intros gen.
    destruct (InsertAll_new_Repr Z.ltb 0%Z gen [5; 3; 8; 3; 1]%Z
                Zltb_strict_weak_order) as (s & Hi & Hr).
    exists s. split; [done|]. by apply (Repr_traverse _ _ _ _ Hr).
Qed.

Lemma SkipList_traversal_sorted_witness :
  ∃ s l, InsertAll Z.ltb (SkipList_new 0%Z (λ i, i mod 3)) [5; 3; 8; 3; 1]%Z = Ok s ∧
    traverse s = Ok l ∧
    StronglySorted (lt Z.ltb) l ∧
    (∀ i j a b, i ≠ j → l !! i = Some a → l !! j = Some b → ¬ equiv Z.ltb a b) ∧
    same_keys Z.ltb l [5; 3; 8; 3; 1]%Z.
Proof.
  apply (proj1 SkipList_traversal_sorted Z Z.ltb 0%Z (λ i, i mod 3)
           [5; 3; 8; 3; 1]%Z).
  split.
  - intros a. apply Z.ltb_irrefl.
  - intros a b c. unfold lt. rewrite !Z.ltb_lt. lia.
  - intros a b c. unfold equiv. rewrite !Z.ltb_ge. lia.
Defined.

(** C5. When the list holds a key [e] equivalent to [k], [Insert(k)]
    returns an iterator to the node of [e] (it reads [e], and iterating on
    from it gives the keys after [e]) and the list is the one it was: no
    node is made or linked. *)
Theorem Insert_equivalent_returns_existing :
  ∀ (T : Type) (compare_ : T → T → bool) (T0 : T) (gen : nat → nat)
    (ks : list T) (k : T),
    strict_weak_order compare_ →
    ∃ s l, InsertAll compare_ (SkipList_new T0 gen) ks = Ok s ∧
      traverse s = Ok l ∧
      ∀ e, e ∈ l → equiv compare_ k e →
        ∃ it pre post, Insert compare_ s k = Ok (it, s) ∧
          it ≠ End ∧ star s it = Ok e ∧
          l = pre ++ e :: post ∧ walk (fuel_of s) s it = Ok (e :: post).
Proof.
  intros T compare_ T0 gen ks k Hs.
  destruct (InsertAll_new_Repr compare_ T0 gen ks Hs) as (s & Hi & Hr).
  exists s, (ref_insert_all compare_ [] ks). split; [done|].
  split; [by eapply Repr_traverse|]. intros e He Hke.
  destruct (Insert_existing compare_ T0 s _ k e Hs Hr He Hke)
    as (pre & post & it & Hl & Hins & Hw).
  destruct (walk_star _ _ _ _ _ Hw) as [Hne Hst].
  by exists it, pre, post.
Qed.

Lemma Insert_equivalent_returns_existing_witness :
  ∃ s it, InsertAll Z.ltb (SkipList_new 0%Z (λ i, i mod 3)) [5; 3; 8]%Z = Ok s ∧
    traverse s = Ok [3; 5; 8]%Z ∧
    Insert Z.ltb s 3%Z = Ok (it, s) ∧ it ≠ End ∧ star s it = Ok 3%Z ∧
    walk (fuel_of s) s it = Ok [3; 5; 8]%Z.
Proof.
  destruct (Insert_equivalent_returns_existing Z Z.ltb 0%Z (λ i, i mod 3)
              [5; 3; 8]%Z 3%Z) as (s & l & Hi & Ht & H).
  - split.
    + intros a. apply Z.ltb_irrefl.
    + intros a b c. unfold lt. rewrite !Z.ltb_lt. lia.
    + intros a b c. unfold equiv. rewrite !Z.ltb_ge. lia.
  - pose proof Hi as Hi'. vm_compute in Hi'. injection Hi' as <-.
    pose proof Ht as Ht'. vm_compute in Ht'. injection Ht' as <-.
    destruct (H 3%Z) as (it & pre & post & Hins & Hne & Hst & Hl & Hw).
    + apply list_elem_of_here.
    + split; reflexivity.
    + eexists _, it. split; [exact Hi|]. split; [exact Ht|].
      split; [exact Hins|]. split; [exact Hne|]. split; [exact Hst|].
      destruct pre as [|x pre]; [by injection Hl as <-|].
      injection Hl as <- Hl. exfalso.
      assert (3%Z ∈ [5; 8]%Z) as Hin
        by (rewrite Hl; apply elem_of_app; right; apply list_elem_of_here).
      apply elem_of_cons in Hin as [Hin|Hin]; [done|].
      apply elem_of_cons in Hin as [Hin|Hin]; [done|].
      by apply not_elem_of_nil in Hin.
Defined.

(** C6. After any sequence of insertions, [Find(k)] returns [End()] exactly
    when no key equivalent to [k] was inserted; otherwise it returns an
    iterator to the node of the list that holds the equivalent key. *)
Theorem Find_end_iff_not_inserted :
  ∀ (T : Type) (compare_ : T → T → bool) (T0 : T) (gen : nat → nat)
    (ks : list T) (k : T),
    strict_weak_order compare_ →
    ∃ s it, InsertAll compare_ (SkipList_new T0 gen) ks = Ok s ∧
      Find compare_ s k = Ok it ∧
      (it = End ↔ ¬ ∃ k', k' ∈ ks ∧ equiv compare_ k' k) ∧
      (it ≠ End →
         ∃ l pre e post, traverse s = Ok l ∧ l = pre ++ e :: post ∧
           equiv compare_ e k ∧ star s it = Ok e ∧
           walk (fuel_of s) s it = Ok (e :: post)).
Proof.
  intros T compare_ T0 gen ks k Hs.
  destruct (InsertAll_new_Repr compare_ T0 gen ks Hs) as (s & Hi & Hr).
  destruct (Find_Repr compare_ T0 s _ k (swo_trans _ Hs) Hr)
    as (it & Hf & Hend & Hit).
  destruct (stored_same_keys compare_ ks Hs) as [Hsub Hhas].
  exists s, it. split; [done|]. split; [done|]. split.
  - rewrite Hend. split.
    + intros Hno (k' & Hk' & Heq). destruct (Hhas k' Hk') as (e & He & Hek).
      apply Hno. exists e. split; [done|]. by apply (swo_equiv _ Hs e k' k).
    + intros Hno (e & He & Hek). apply Hno. exists e. split; [|done].
      by apply Hsub.
  - intros Hne. destruct (Hit Hne) as (pre & e & post & Hl & Heq & Hw).
    exists (ref_insert_all compare_ [] ks), pre, e, post.
    split; [by eapply Repr_traverse|]. split; [done|]. split; [done|].
    split; [|done]. by destruct (walk_star _ _ _ _ _ Hw).
Qed.

Lemma Find_end_iff_not_inserted_witness :
  ∃ s it, InsertAll Z.ltb (SkipList_new 0%Z (λ i, i mod 3)) [5; 3; 8; 3; 1]%Z = Ok s ∧
    Find Z.ltb s 9%Z = Ok it ∧
    (it = End ↔ ¬ ∃ k', k' ∈ [5; 3; 8; 3; 1]%Z ∧ equiv Z.ltb k' 9%Z) ∧
    (it ≠ End →
       ∃ l pre e post, traverse s = Ok l ∧ l = pre ++ e :: post ∧
         equiv Z.ltb e 9%Z ∧ star s it = Ok e ∧
         walk (fuel_of s) s it = Ok (e :: post)).
Proof.
  apply (Find_end_iff_not_inserted Z Z.ltb 0%Z (λ i, i mod 3)
           [5; 3; 8; 3; 1]%Z 9%Z).
  split.
  - intros a. apply Z.ltb_irrefl.
  - intros a b c. unfold lt. rewrite !Z.ltb_lt. lia.
  - intros a b c. unfold equiv. rewrite !Z.ltb_ge. lia.
Defined.

(** C7. After any sequence of insertions, [LowerBound(k)] stands on the
    first key of the sorted sequence of stored keys that is not less than
    [k] and [UpperBound(k)] on the first key greater than [k]; each is
    [End()] exactly when there is no such key. *)
Theorem LowerBound_UpperBound_standard :
  ∀ (T : Type) (compare_ : T → T → bool) (T0 : T) (gen : nat → nat)
    (ks : list T) (k : T),
    strict_weak_order compare_ →
    ∃ s l lo hi, InsertAll compare_ (SkipList_new T0 gen) ks = Ok s ∧
      traverse s = Ok l ∧
      StronglySorted (lt compare_) l ∧ same_keys compare_ l ks ∧
      LowerBound compare_ s k = Ok lo ∧
      bound_at s l (λ e, compare_ e k) lo ∧
      UpperBound compare_ s k = Ok hi ∧
      bound_at s l (λ e, negb (compare_ k e)) hi.
Proof.
  intros T compare_ T0 gen ks k Hs. pose proof (swo_trans _ Hs) as Ht.
  destruct (InsertAll_new_Repr compare_ T0 gen ks Hs) as (s & Hi & Hr).
  destruct (Bound_Repr compare_ T0 s _ (λ e, compare_ e k)
              (downward_lower compare_ k Ht) Hr) as (lo & Hlo & Hlo').
  destruct (Bound_Repr compare_ T0 s _ (λ e, negb (compare_ k e))
              (downward_upper compare_ k Ht) Hr) as (hi & Hhi & Hhi').
  exists s, (ref_insert_all compare_ [] ks), lo, hi.
  split; [done|]. split; [by eapply Repr_traverse|].
  split; [by eapply Repr_sorted|]. split; [by apply stored_same_keys|].
  done.
Qed.

Lemma LowerBound_UpperBound_standard_witness :
  ∃ s l lo hi,
    InsertAll Z.ltb (SkipList_new 0%Z (λ i, i mod 3)) [5; 3; 8; 3; 1]%Z = Ok s ∧
    traverse s = Ok l ∧
    StronglySorted (lt Z.ltb) l ∧ same_keys Z.ltb l [5; 3; 8; 3; 1]%Z ∧
    LowerBound Z.ltb s 4%Z = Ok lo ∧
    bound_at s l (λ e, Z.ltb e 4%Z) lo ∧
    UpperBound Z.ltb s 4%Z = Ok hi ∧
    bound_at s l (λ e, negb (Z.ltb 4%Z e)) hi.
Proof.
  apply (LowerBound_UpperBound_standard Z Z.ltb 0%Z (λ i, i mod 3)
           [5; 3; 8; 3; 1]%Z 4%Z).
  split.
  - intros a. apply Z.ltb_irrefl.
  - intros a b c. unfold lt. rewrite !Z.ltb_lt. lia.
  - intros a b c. unfold equiv. rewrite !Z.ltb_ge. lia.
Defined.

(** ** The block decoder *)

Open Scope Z_scope.

Arguments GetVar32 : simpl never.
Arguments init : simpl never.

Lemma byte_at_ok (mem : list Z) (p : Z) :
  0 ≤ p < Z.of_nat (length mem) → ∃ b, byte_at mem p = Ok b.
Proof.
  intros Hp. unfold byte_at. rewrite decide_True by lia.
  destruct (lookup_lt_is_Some_2 mem (Z.to_nat p)) as [b ->]; [lia|]. eauto.
Qed.

(** Inside the memory, [GetVar32] either throws or returns a number and the
    rest of the view, which is shorter. *)
Lemma GetVar32_loop_inside n (mem : list Z) : ∀ p len shift acc,
  0 ≤ p → p + len ≤ Z.of_nat (length mem) →
  GetVar32_loop n mem p len shift acc = Err Thrown ∨
  ∃ v p' len', GetVar32_loop n mem p len shift acc = Ok (v, mkSlice p' len') ∧
    p < p' ∧ p' + len' = p + len ∧ 0 ≤ len'.
Proof.
  induction n as [|n IH]; intros p len shift acc Hp Hlen; simpl; [by left|].
  destruct (decide (len ≤ 0)); [by left|].
  destruct (byte_at_ok mem p) as [b ->]; [lia|]. rewrite bind_Ok.
  destruct (decide (b < 128)).
  - right. eexists _, _, _. split; [done|]. lia.
  - destruct (IH (p + 1) (len - 1) (shift + 7)
                (Z.lor acc (Z.shiftl (Z.land b 127) shift))) as [->|H];
      [lia|lia|by left|].
    destruct H as (v & p' & len' & -> & ? & ? & ?). right.
    eexists _, _, _. split; [done|]. lia.
Qed.

Lemma GetVar32_inside (mem : list Z) (buf : Slice) :
  0 ≤ RawData buf → RawData buf + Len buf ≤ Z.of_nat (length mem) →
  GetVar32 mem buf = Err Thrown ∨
  ∃ v p' len', GetVar32 mem buf = Ok (v, mkSlice p' len') ∧
    RawData buf < p' ∧ p' + len' = RawData buf + Len buf ∧ 0 ≤ len'.
Proof. apply GetVar32_loop_inside. Qed.

(** The three length fields of an entry, read one after the other. *)
Definition decode_header (mem : list Z) (buf : Slice) : res (Z * Z * Z * Slice) :=
  '(shared, buf) ← GetVar32 mem buf;
  '(unshared, buf) ← GetVar32 mem buf;
  '(value_len, buf) ← GetVar32 mem buf;
  Ok (shared, unshared, value_len, buf).

Lemma decode_header_inside (mem : list Z) (buf : Slice) :
  0 ≤ RawData buf → RawData buf + Len buf ≤ Z.of_nat (length mem) →
  decode_header mem buf = Err Thrown ∨
  ∃ sh un vl p' len', decode_header mem buf = Ok (sh, un, vl, mkSlice p' len') ∧
    RawData buf + 3 ≤ p' ∧ p' + len' = RawData buf + Len buf ∧ 0 ≤ len'.
Proof.
  intros Hp Hl. unfold decode_header.
  destruct (GetVar32_inside mem buf Hp Hl) as [->|(sh & p1 & l1 & -> & ? & ? & ?)];
    [by left|]. rewrite bind_Ok. cbn beta iota.
  destruct (GetVar32_inside mem (mkSlice p1 l1) ltac:(simpl in *; lia) ltac:(simpl in *; lia))
    as [->|(un & p2 & l2 & -> & ? & ? & ?)]; [by left|].
  rewrite bind_Ok. cbn beta iota.
  destruct (GetVar32_inside mem (mkSlice p2 l2) ltac:(simpl in *; lia) ltac:(simpl in *; lia))
    as [->|(vl & p3 & l3 & -> & ? & ? & ?)]; [by left|].
  rewrite bind_Ok. right. eexists _, _, _, _, _. split; [done|]. simpl in *. lia.
Qed.

(** What [init] does, in terms of [decode_header]. *)
Lemma init_header (b : Block) (it : BlockConstIterator) (p : Z) :
  0 ≤ p < data_end_ b → data_end_ b ≤ Z.of_nat (length (data_ b)) →
  data_end_ b < 2 ^ 64 →
  match decode_header (data_ b) (mkSlice p (data_end_ b - p)) with
  | Ok (sh, un, vl, buf) =>
      init b it p =
        Ok (mkIter (RawData buf) (Len buf) sh un vl (last_key_ it)
              (if decide (un = 0) then uint32 p else restart_pos_ it)
              (key_ it) (stat_ it))
  | Err Thrown =>
      ∃ it', init b it p = Ok it' ∧ stat_ it' = Corruption ∧
        buf_ it' = buf_ it ∧ buf_len_ it' = buf_len_ it ∧
        last_key_ it' = last_key_ it ∧ key_ it' = key_ it
  | Err _ => False
  end.
Proof.
  intros Hp Hend H64. unfold init, size_t.
  rewrite Z.mod_small by lia. rewrite decide_True by lia.
  unfold decode_header.
  destruct (GetVar32_inside (data_ b) (mkSlice p (data_end_ b - p))
              ltac:(simpl in *; lia) ltac:(simpl in *; lia))
    as [->|(sh & p1 & l1 & -> & ? & ? & ?)]; simpl.
  { eexists. split; [done|]. done. }
  destruct (GetVar32_inside (data_ b) (mkSlice p1 l1)
              ltac:(simpl in *; lia) ltac:(simpl in *; lia))
    as [->|(un & p2 & l2 & -> & ? & ? & ?)]; simpl.
  { eexists. split; [done|]. done. }
  destruct (GetVar32_inside (data_ b) (mkSlice p2 l2)
              ltac:(simpl in *; lia) ltac:(simpl in *; lia))
    as [->|(vl & p3 & l3 & -> & ? & ? & ?)]; simpl.
  { eexists. split; [done|]. done. }
  done.
Qed.



(** *** The entries of a block, as the specification describes them *)

(** An entry: where it starts, its three length fields, and where its
    stored key bytes start, which is where a cursor on it stands. *)
Record entry : Type := mkEntry {
  e_off : Z;
  e_shared : Z;
  e_unshared : Z;
  e_vlen : Z;
  e_key : Z
}.

(** Decoding the entries from [p] to the end of the entries, one after the
    other. *)
Fixpoint decode_entries (fuel : nat) (mem : list Z) (p data_end : Z)
  : res (list entry) :=
  match fuel with
  | O => Err OutOfFuel
  | S fuel' =>
      if decide (p = data_end) then Ok []
      else
        _ ← assert (bool_decide (0 ≤ p < data_end));
        '(sh, un, vl, buf) ← decode_header mem (mkSlice p (data_end - p));
        _ ← assert (bool_decide (un + vl ≤ Len buf));
        es ← decode_entries fuel' mem (RawData buf + un + vl) data_end;
        Ok (mkEntry p sh un vl (RawData buf) :: es)
  end.

(** The full keys of the entries: "the first shared-prefix-length bytes of
    the previous entry's full key" and then the stored bytes. *)
Fixpoint full_keys (mem : list Z) (prev : list Z) (es : list entry)
  : res (list (list Z)) :=
  match es with
  | [] => Ok []
  | e :: es' =>
      _ ← assert (bool_decide (e_shared e ≤ Z.of_nat (length prev)));
      suf ← read_bytes mem (e_key e) (e_unshared e);
      let k := take (Z.to_nat (e_shared e)) prev ++ suf in
      ks ← full_keys mem k es';
      Ok (k :: ks)
  end.

(** [es] are the entries of [b] from [p] on. *)
Fixpoint layout (b : Block) (p : Z) (es : list entry) : Prop :=
  match es with
  | [] => p = data_end_ b
  | e :: es' =>
      e_off e = p ∧ 0 ≤ p < data_end_ b ∧
      decode_header (data_ b) (mkSlice p (data_end_ b - p))
        = Ok (e_shared e, e_unshared e, e_vlen e,
              mkSlice (e_key e) (data_end_ b - e_key e)) ∧
      p < e_key e ∧ 0 ≤ e_unshared e ∧ 0 ≤ e_vlen e ∧
      e_key e + e_unshared e + e_vlen e ≤ data_end_ b ∧
      layout b (e_key e + e_unshared e + e_vlen e) es'
  end.

Lemma GetVar32_loop_nonneg n (mem : list Z) : ∀ p len shift acc v buf,
  GetVar32_loop n mem p len shift acc = Ok (v, buf) → 0 ≤ v.
Proof.
  induction n as [|n IH]; intros p len shift acc v buf; simpl; [done|].
  destruct (decide (len ≤ 0)); [done|].
  destruct (byte_at mem p) as [c|]; [|done]. rewrite bind_Ok.
  destruct (decide (c < 128)); [|by apply IH].
  intros [= <- _]. apply Z.mod_pos_bound. lia.
Qed.

Lemma decode_header_nonneg (mem : list Z) buf sh un vl buf' :
  decode_header mem buf = Ok (sh, un, vl, buf') → 0 ≤ sh ∧ 0 ≤ un ∧ 0 ≤ vl.
Proof.
  unfold decode_header, GetVar32.
  destruct (GetVar32_loop 5 mem (RawData buf) (Len buf) 0 0) as [[v1 b1]|] eqn:E1;
    [|done]. rewrite bind_Ok. cbn beta iota.
  destruct (GetVar32_loop 5 mem (RawData b1) (Len b1) 0 0) as [[v2 b2]|] eqn:E2;
    [|done]. rewrite bind_Ok. cbn beta iota.
  destruct (GetVar32_loop 5 mem (RawData b2) (Len b2) 0 0) as [[v3 b3]|] eqn:E3;
    [|done]. rewrite bind_Ok. intros [= <- <- <- <-].
  repeat split; eapply GetVar32_loop_nonneg; eauto.
Qed.

Lemma decode_entries_layout (b : Block) fuel : ∀ p es,
  0 ≤ p → data_end_ b ≤ Z.of_nat (length (data_ b)) →
  decode_entries fuel (data_ b) p (data_end_ b) = Ok es → layout b p es.
Proof.
  induction fuel as [|fuel IH]; intros p es Hp Hend; simpl; [done|].
  destruct (decide (p = data_end_ b)) as [->|Hne]; [by intros [= <-]|].
  destruct (bool_decide (0 ≤ p < data_end_ b)) eqn:Hb; [|done].
  apply bool_decide_eq_true in Hb. cbn [assert]. rewrite bind_Ok.
  destruct (decode_header_inside (data_ b) (mkSlice p (data_end_ b - p)))
    as [E|(sh & un & vl & p' & len' & E & H1 & H2 & H3)]; simpl; [lia|lia| |];
    rewrite E; [done|].
  rewrite bind_Ok. cbn beta iota. cbn [Len RawData]. simpl in H1, H2.
  destruct (bool_decide (un + vl ≤ len')) eqn:Hb2; [|done].
  apply bool_decide_eq_true in Hb2. cbn [assert]. rewrite bind_Ok.
  destruct (decode_header_nonneg _ _ _ _ _ _ E) as (? & ? & ?).
  destruct (decode_entries fuel (data_ b) (p' + un + vl) (data_end_ b))
    as [es'|] eqn:E'; [|done].
  rewrite bind_Ok. intros [= <-]. simpl.
  assert (len' = data_end_ b - p') as -> by lia.
  repeat split; try done; try lia. apply IH; [lia|done|done].
Qed.

(** *** Cursors on entries *)

(** The cursor [init] leaves at the end of the entries. *)
Lemma init_end (b : Block) (it : BlockConstIterator) :
  init b it (data_end_ b) =
    Ok (mkIter (data_end_ b) 0 (shared_ it) (unshared_ it) (value_len_ it)
          (last_key_ it) (restart_pos_ it) (key_ it) (stat_ it)).
Proof.
  unfold init, size_t. rewrite Z.sub_diag. by rewrite decide_False.
Qed.

Lemma init_layout (b : Block) (it : BlockConstIterator) p e es :
  data_end_ b ≤ Z.of_nat (length (data_ b)) → data_end_ b < 2 ^ 32 →
  layout b p (e :: es) →
  init b it p =
    Ok (mkIter (e_key e) (data_end_ b - e_key e) (e_shared e) (e_unshared e)
          (e_vlen e) (last_key_ it)
          (if decide (e_unshared e = 0) then p else restart_pos_ it)
          (key_ it) (stat_ it)).
Proof.
  intros Hend H32 (Hoff & Hp & Hdec & _).
  pose proof (init_header b it p Hp Hend ltac:(lia)) as Hi.
  rewrite Hdec in Hi. rewrite Hi. cbn [RawData Len].
  unfold uint32. by rewrite Z.mod_small by lia.
Qed.

Lemma end_cursor (b : Block) :
  end_ b = Ok (mkIter (data_end_ b) 0 0 0 0 None 0 [] StatusOK).
Proof. unfold end_, ConstIterator. by rewrite init_end. Qed.

(** The cursor that advancing from [e] leaves: on the next entry, or at
    the end. *)
Definition next_cursor (b : Block) (e : entry) (es : list entry)
    (it : BlockConstIterator) : BlockConstIterator :=
  match es with
  | [] =>
      mkIter (data_end_ b) 0 (shared_ it) (unshared_ it) (value_len_ it)
        (Some (e_key e)) (restart_pos_ it) [] (stat_ it)
  | e' :: _ =>
      mkIter (e_key e') (data_end_ b - e_key e') (e_shared e') (e_unshared e')
        (e_vlen e') (Some (e_key e))
        (if decide (e_unshared e' = 0) then e_off e' else restart_pos_ it)
        [] (stat_ it)
  end.

(** [it] stands on [e]. *)
Definition on_entry (b : Block) (e : entry) (it : BlockConstIterator) : Prop :=
  buf_ it = e_key e ∧ buf_len_ it = data_end_ b - e_key e ∧
  shared_ it = e_shared e ∧ unshared_ it = e_unshared e ∧
  value_len_ it = e_vlen e.

Lemma increment_layout (b : Block) (it : BlockConstIterator) p e es :
  data_end_ b ≤ Z.of_nat (length (data_ b)) → data_end_ b < 2 ^ 32 →
  layout b p (e :: es) → on_entry b e it →
  increment b it = Ok (next_cursor b e es it).
Proof.
  intros Hend H32 Hlay (Hb & Hl & Hs & Hu & Hv).
  destruct Hlay as (_ & _ & _ & _ & ? & ? & ? & Hlay).
  unfold increment, Skip. simpl. rewrite Hb, Hl, Hu, Hv.
  rewrite bool_decide_eq_true_2 by lia. simpl.
  rewrite bool_decide_eq_true_2 by lia. simpl.
  destruct es as [|e' es].
  - simpl in Hlay. rewrite Hlay, init_end, bind_Ok. simpl. by rewrite Hu, Hv.
  - rewrite (init_layout b _ _ e' es Hend H32 Hlay), bind_Ok. simpl.
    destruct Hlay as (-> & _). done.
Qed.

Arguments increment : simpl never.
Arguments end_ : simpl never.

Section Block_spec.
Variable Compare : list Z → list Z → Z.
Variable b : Block.
Hypothesis Hend : data_end_ b ≤ Z.of_nat (length (data_ b)).
Hypothesis H32 : data_end_ b < 2 ^ 32.

(** [it] with [k] in [key_]. *)
Definition with_key (it : BlockConstIterator) (k : list Z) : BlockConstIterator :=
  mkIter (buf_ it) (buf_len_ it) (shared_ it) (unshared_ it) (value_len_ it)
    (last_key_ it) (restart_pos_ it) k (stat_ it).

(** The key a cursor on [e] reports when [lk] is its [last_key_]. *)
Definition cursor_key (lk : option Z) (e : entry) : res (list Z) :=
  pre ← append_from (data_ b) lk (e_shared e);
  suf ← read_bytes (data_ b) (e_key e) (e_unshared e);
  Ok (pre ++ suf).

(** A cursor that a scan is on: on [e], with [lk] as [last_key_]; one that
    has not moved yet has the offset of [e] as [restart_pos_]. *)
Definition scanning (e : entry) (lk : option Z) (it : BlockConstIterator) : Prop :=
  on_entry b e it ∧ last_key_ it = lk ∧
  (lk = None → restart_pos_ it = e_off e).

Lemma Key_scanning it e es lk :
  layout b (e_off e) (e :: es) → e_key e < data_end_ b →
  scanning e lk it → key_ it = [] →
  Key b it = (k ← cursor_key lk e; Ok (k, with_key it k)).
Proof.
  intros Hlay Hne ((Hb & Hl & Hs & Hu & Hv) & Hlk & Hrp) Hk.
  unfold Key, cursor_key. rewrite bool_decide_eq_true_2 by lia.
  cbn [assert]. rewrite bind_Ok, Hk, Hlk, Hs, Hb, Hu.
  assert ((match lk with
           | Some _ => Ok ()
           | None =>
               ConstIterator b (restart_pos_ it) (restart_pos_ it)
               ≫= λ r, Key_replay (block_fuel b) b r (e_key e)
               ≫= λ r0, assert (bool_decide (buf_ r0 = e_key e))
           end) = Ok ()) as ->.
  { destruct lk as [q|]; [done|]. rewrite (Hrp eq_refl).
    unfold ConstIterator. rewrite (init_layout b _ _ e es Hend H32 Hlay).
    rewrite bind_Ok. cbn [stat_]. rewrite bind_Ok. unfold block_fuel. cbn [Key_replay buf_].
    rewrite decide_False by lia. rewrite bind_Ok. cbn [buf_].
    by rewrite bool_decide_eq_true_2. }
  rewrite bind_Ok.
  destruct (append_from (data_ b) lk (e_shared e)) as [pre|]; [|done].
  rewrite !bind_Ok.
  destruct (read_bytes (data_ b) (e_key e) (e_unshared e)) as [suf|]; [|done].
  rewrite !bind_Ok. unfold with_key. by rewrite Hb, Hu, Hs, Hlk.
Qed.

(** [Key()] again on the cursor it returned gives the same. *)
Lemma Key_again it e es lk k :
  layout b (e_off e) (e :: es) → e_key e < data_end_ b →
  scanning e lk it → key_ it = [] →
  cursor_key lk e = Ok k →
  Key b (with_key it k) = Ok (k, with_key it k).
Proof.
  intros Hlay Hne Hsc Hk Hck. destruct k as [|c k].
  - replace (with_key it []) with it
      by (destruct it; unfold with_key; simpl in *; by subst).
    rewrite (Key_scanning it e es lk Hlay Hne Hsc Hk), Hck, bind_Ok.
    f_equal. f_equal. destruct it; unfold with_key; simpl in *; by subst.
  - unfold Key. destruct Hsc as ((Hb & _) & _). cbn [with_key buf_ key_].
    rewrite bool_decide_eq_true_2 by lia. done.
Qed.

(** Where a scan from the entries [es] stops: on the first entry whose
    reported key is not less than [target], or at the end. *)
Fixpoint scan_ref (target : list Z) (lk : option Z) (es : list entry)
  : res (option (entry * list Z)) :=
  match es with
  | [] => Ok None
  | e :: es' =>
      k ← cursor_key lk e;
      if decide (0 ≤ Compare k target) then Ok (Some (e, k))
      else scan_ref target (Some (e_key e)) es'
  end.

(** [it] is the end cursor, or stands on [e] and reports [k]. *)
Definition stands (it : BlockConstIterator) (o : option (entry * list Z)) : Prop :=
  match o with
  | None => buf_ it = data_end_ b ∧ buf_len_ it = 0
  | Some (e, k) => on_entry b e it ∧ Key b it = Ok (k, it)
  end.

Lemma scan_end target fuel it :
  buf_ it = data_end_ b → buf_len_ it = 0 →
  scan Compare (S fuel) b target it = Ok it.
Proof.
  intros Hb Hl. cbn [scan]. rewrite end_cursor, bind_Ok.
  unfold equal. cbn [buf_ buf_len_].
  by rewrite !bool_decide_eq_true_2.
Qed.

Lemma scan_layout target es : ∀ e it lk fuel,
  layout b (e_off e) (e :: es) →
  Forall (λ e, e_key e < data_end_ b) (e :: es) →
  scanning e lk it → key_ it = [] →
  (length es + 1 < fuel)%nat →
  match scan_ref target lk (e :: es) with
  | Ok o => ∃ it', scan Compare fuel b target it = Ok it' ∧ stands it' o
  | Err err => scan Compare fuel b target it = Err err
  end.
Proof.
  induction es as [|e' es IH]; intros e it lk fuel Hlay Hne Hsc Hk Hf;
    (destruct fuel as [|fuel]; [lia|]);
    pose proof (Forall_inv Hne) as Hne1; cbv beta in Hne1;
    cbn [scan scan_ref]; rewrite end_cursor, bind_Ok;
    (assert (equal it (mkIter (data_end_ b) 0 0 0 0 None 0 [] StatusOK) = false)
       as ->
       by (destruct Hsc as ((Hb & _) & _); unfold equal; cbn [buf_];
           rewrite bool_decide_eq_false_2 by lia; done));
    rewrite (Key_scanning it e _ lk Hlay Hne1 Hsc Hk);
    destruct (cursor_key lk e) as [k|] eqn:Hck; [|done| |done];
    rewrite !bind_Ok; cbn beta iota;
    (destruct (decide (0 ≤ Compare k target));
     [exists (with_key it k); split; [done|]; split;
        [by destruct Hsc as (Hon & _)|by eapply Key_again]|]).
  - assert (on_entry b e (with_key it k)) as Hon by (by destruct Hsc).
    rewrite (increment_layout b _ _ e [] Hend H32 Hlay Hon), bind_Ok.
    destruct fuel as [|fuel]; [lia|].
    eexists. split; [by apply scan_end|]. done.
  - assert (on_entry b e (with_key it k)) as Hon by (by destruct Hsc).
    rewrite (increment_layout b _ _ e (e' :: es) Hend H32 Hlay Hon), bind_Ok.
    destruct Hlay as (_ & _ & _ & _ & _ & _ & _ & Hlay).
    assert (e_key e + e_unshared e + e_vlen e = e_off e') as Hoff
      by (by destruct Hlay as (-> & _)).
    rewrite Hoff in Hlay.
    apply (IH e' _ (Some (e_key e)) fuel Hlay).
    + by apply Forall_inv_tail in Hne.
    + split; [done|]. split; [done|]. done.
    + done.
    + simpl in Hf. lia.
Qed.

(** *** Restart points *)

(** The entries from the one at offset [r] on. *)
Fixpoint from_offset (r : Z) (es : list entry) : list entry :=
  match es with
  | [] => []
  | e :: es' => if decide (e_off e = r) then es else from_offset r es'
  end.

Lemma layout_from_offset r : ∀ es p e es',
  layout b p es → from_offset r es = e :: es' →
  layout b r (e :: es') ∧ e_off e = r ∧ ∃ es0, es = es0 ++ e :: es'.
Proof.
  induction es as [|e0 es IH]; intros p e es' Hlay; simpl; [done|].
  destruct (decide (e_off e0 = r)) as [Hr|Hr].
  - intros [= -> ->]. split; [|split; [done|by exists []]].
    destruct Hlay as (Hoff & Hlay). split; [done|]. by rewrite <- Hr, Hoff.
  - intros Hfo. destruct Hlay as (_ & _ & _ & _ & _ & _ & _ & Hlay).
    destruct (IH _ e es' Hlay Hfo) as (H1 & H2 & es0 & ->).
    split; [done|]. split; [done|]. by exists (e0 :: es0).
Qed.

Lemma layout_length : ∀ es p,
  layout b p es → Z.of_nat (length es) ≤ data_end_ b - p.
Proof.
  induction es as [|e es IH]; intros p; simpl; [lia|].
  intros (_ & ? & _ & ? & ? & ? & ? & Hlay). apply IH in Hlay. lia.
Qed.

Lemma read_bytes_ok (mem : list Z) p n :
  0 ≤ p → 0 ≤ n → p + n ≤ Z.of_nat (length mem) →
  read_bytes mem p n = Ok (take (Z.to_nat n) (drop (Z.to_nat p) mem)).
Proof.
  intros Hp Hn Hl. unfold read_bytes. destruct (decide (n = 0)) as [->|Hn0].
  - done.
  - by rewrite decide_True by lia.
Qed.

(** The stored key bytes of an entry. *)
Definition stored_key (e : entry) : list Z :=
  take (Z.to_nat (e_unshared e)) (drop (Z.to_nat (e_key e)) (data_ b)).

Lemma read_stored_key e es p :
  layout b p (e :: es) → 0 ≤ p →
  read_bytes (data_ b) (e_key e) (e_unshared e) = Ok (stored_key e).
Proof.
  intros (_ & ? & _ & ? & ? & ? & ? & _) Hp. apply read_bytes_ok; lia.
Qed.

Lemma decode_header_inv (mem : list Z) buf sh un vl buf' :
  decode_header mem buf = Ok (sh, un, vl, buf') →
  ∃ b1 b2, GetVar32 mem buf = Ok (sh, b1) ∧ GetVar32 mem b1 = Ok (un, b2) ∧
           GetVar32 mem b2 = Ok (vl, buf').
Proof.
  unfold decode_header.
  destruct (GetVar32 mem buf) as [[v1 b1]|] eqn:E1; [|done]. rewrite bind_Ok.
  cbn beta iota.
  destruct (GetVar32 mem b1) as [[v2 b2]|] eqn:E2; [|done]. rewrite bind_Ok.
  cbn beta iota.
  destruct (GetVar32 mem b2) as [[v3 b3]|] eqn:E3; [|done]. rewrite bind_Ok.
  intros [= <- <- <- <-]. by exists b1, b2.
Qed.

Lemma keyAtRestartPoint_entry i r e es :
  restartPoint b i = Ok r → 0 ≤ r → layout b r (e :: es) → e_shared e = 0 →
  keyAtRestartPoint b i = Ok (stored_key e).
Proof.
  intros Hr Hr0 Hlay Hsh. unfold keyAtRestartPoint. rewrite Hr, bind_Ok.
  pose proof (read_stored_key e es r Hlay Hr0) as Hrd.
  destruct Hlay as (_ & _ & Hdec & _).
  apply decode_header_inv in Hdec as (b1 & b2 & E1 & E2 & E3).
  rewrite E1, bind_Ok. cbn beta iota. rewrite Hsh.
  rewrite bool_decide_eq_true_2 by done. cbn [assert]. rewrite bind_Ok.
  rewrite E2, bind_Ok. cbn beta iota. rewrite E3, bind_Ok. done.
Qed.

(** The binary search over the restart keys [rks]. It ends with
    [rb = lb + 1]; [lb] moved only onto keys less than [target] and [rb]
    only onto keys not less. *)
Lemma restart_search_ok target (rks : list (list Z)) :
  (∀ i k, rks !! i = Some k → keyAtRestartPoint b (Z.of_nat i) = Ok k) →
  ∀ fuel lb rb,
    0 ≤ lb < rb → rb ≤ Z.of_nat (length rks) → rb - lb ≤ Z.of_nat fuel →
    ∃ lb', restart_search Compare fuel b target lb rb = Ok (lb', lb' + 1) ∧
      lb ≤ lb' < rb ∧
      (lb' = lb ∨ ∃ k, rks !! Z.to_nat lb' = Some k ∧ Compare k target < 0) ∧
      (lb' + 1 = rb ∨
       ∃ k, rks !! Z.to_nat (lb' + 1) = Some k ∧ 0 ≤ Compare k target).
Proof.
  intros Hrk. induction fuel as [|fuel IH]; intros lb rb Hlb Hrb Hf; [lia|].
  cbn [restart_search]. destruct (decide (1 < rb - lb)) as [Hw|Hw].
  - assert ((lb + rb) `quot` 2 = (lb + rb) `div` 2) as Hq
      by (apply Z.quot_div_nonneg; lia).
    rewrite Hq. set (mid := (lb + rb) `div` 2).
    assert (lb < mid < rb) as Hmid
      by (unfold mid; Z.div_mod_to_equations; lia).
    destruct (lookup_lt_is_Some_2 rks (Z.to_nat mid)) as [k Hk]; [lia|].
    pose proof (Hrk _ _ Hk) as Hkm. rewrite Z2Nat.id in Hkm by lia.
    rewrite Hkm, bind_Ok. destruct (decide (0 ≤ Compare k target)) as [Hc|Hc].
    + destruct (IH lb mid) as (lb' & -> & H1 & H2 & H3); [lia|lia|lia|].
      exists lb'. split; [done|]. split; [lia|]. split; [done|].
      destruct H3 as [->|H3]; [|by right]. right. eauto.
    + destruct (IH mid rb) as (lb' & -> & H1 & H2 & H3); [lia|lia|lia|].
      exists lb'. split; [done|]. split; [lia|]. split; [|done].
      destruct H2 as [->|H2]; [|by right]. right. exists k. split; [done|lia].
  - exists lb. assert (rb = lb + 1) as -> by lia. split; [done|].
    split; [lia|]. split; by left.
Qed.

(** *** [lower_bound] on a block with entries [es] and restart offsets [rs] *)

Variable es : list entry.
Variable rs : list Z.
Hypothesis Hlay : layout b 0 es.
Hypothesis Hne : Forall (λ e, e_key e < data_end_ b) es.
Hypothesis Hnr : Z.of_nat (length rs) = num_restart_ b.
Hypothesis Hrs : ∀ i r, rs !! i = Some r → restartPoint b (Z.of_nat i) = Ok r.
Hypothesis Hre : ∀ r, r ∈ rs →
  ∃ e es', from_offset r es = e :: es' ∧ e_shared e = 0.

(** The key stored at the restart offset [r]. *)
Definition restart_key (r : Z) : list Z :=
  match from_offset r es with
  | e :: _ => stored_key e
  | [] => []
  end.

Lemma restart_keys_read i k :
  (restart_key <$> rs) !! i = Some k →
  keyAtRestartPoint b (Z.of_nat i) = Ok k.
Proof using Hlay Hrs Hre Hend.
  rewrite list_lookup_fmap. destruct (rs !! i) as [r|] eqn:Hr; [|done].
  intros [= <-]. destruct (Hre r) as (e & es' & Hfo & Hsh).
  { by eapply list_elem_of_lookup_2. }
  destruct (layout_from_offset r es 0 e es' Hlay Hfo) as (Hl & _ & _).
  unfold restart_key. rewrite Hfo.
  apply (keyAtRestartPoint_entry _ r e es'); auto.
  destruct Hl as (_ & ? & _). lia.
Qed.

(** The cursor [lower_bound] starts its scan with. *)
Lemma ConstIterator_restart r e es' :
  layout b r (e :: es') →
  ∃ it, ConstIterator b r r = Ok it ∧ scanning e None it ∧ key_ it = [].
Proof using Hend H32.
  intros Hl. unfold ConstIterator.
  rewrite (init_layout b _ _ e es' Hend H32 Hl). eexists. split; [done|].
  destruct Hl as (Hoff & _). split; [|done]. split; [done|]. split; [done|].
  intros _. cbn [restart_pos_]. by destruct (decide (e_unshared e = 0)).
Qed.

Lemma lower_bound_layout target :
  0 < num_restart_ b →
  ∃ lb r e es' es0,
    0 ≤ lb < num_restart_ b ∧ rs !! Z.to_nat lb = Some r ∧
    from_offset r es = e :: es' ∧
    es = es0 ++ e :: es' ∧ e_off e = r ∧ e_shared e = 0 ∧
    restart_search Compare (S (Z.to_nat (num_restart_ b))) b target
      0 (num_restart_ b) = Ok (lb, lb + 1) ∧
    keyAtRestartPoint b lb = Ok (stored_key e) ∧
    (lb = 0 ∨ Compare (stored_key e) target < 0) ∧
    (lb + 1 = num_restart_ b ∨
     ∃ k, (restart_key <$> rs) !! Z.to_nat (lb + 1) = Some k ∧
          0 ≤ Compare k target) ∧
    if decide (0 < Compare (stored_key e) target) then
      ∃ it, lower_bound Compare b target = Ok it ∧ stands it None
    else
      (∃ it0, restartPoint b lb = Ok r ∧ ConstIterator b r r = Ok it0 ∧
         lower_bound Compare b target = scan Compare (block_fuel b) b target it0) ∧
      match scan_ref target None (e :: es') with
      | Ok o => ∃ it, lower_bound Compare b target = Ok it ∧ stands it o
      | Err err => lower_bound Compare b target = Err err
      end.
Proof using Hlay Hne Hnr Hrs Hre Hend H32.
  intros Hpos. unfold lower_bound.
  destruct (restart_search_ok target (restart_key <$> rs) restart_keys_read
              (S (Z.to_nat (num_restart_ b))) 0 (num_restart_ b))
    as (lb & Hsearch & Hlb & Hlo & Hhi); [lia|rewrite length_fmap; lia|lia|].
  rewrite Hsearch, bind_Ok. cbn beta iota.
  destruct (lookup_lt_is_Some_2 rs (Z.to_nat lb)) as [r Hr]; [lia|].
  destruct (Hre r) as (e & es' & Hfo & Hsh); [by eapply list_elem_of_lookup_2|].
  destruct (layout_from_offset r es 0 e es' Hlay Hfo) as (Hl & Hoff & es0 & Hes).
  assert ((restart_key <$> rs) !! Z.to_nat lb = Some (stored_key e)) as Hk.
  { rewrite list_lookup_fmap, Hr. simpl. unfold restart_key. by rewrite Hfo. }
  pose proof (restart_keys_read _ _ Hk) as Hkey.
  rewrite Z2Nat.id in Hkey by lia. rewrite Hkey, bind_Ok.
  exists lb, r, e, es', es0.
  split; [lia|]. split; [done|]. split; [done|]. split; [done|].
  split; [done|]. split; [done|]. split; [done|]. split; [done|].
  assert (lb = 0 ∨ Compare (stored_key e) target < 0) as Hlo'.
  { destruct Hlo as [?|(k & Hk' & ?)]; [by left|right]. congruence. }
  split; [done|]. split; [done|].
  destruct (decide (0 < Compare (stored_key e) target)) as [Hgt|Hle].
  - rewrite bool_decide_eq_true_2 by (split; [lia|done]).
    cbn [assert]. rewrite bind_Ok, end_cursor. eexists. split; [done|]. done.
  - pose proof (Hrs _ _ Hr) as Hrp. rewrite Z2Nat.id in Hrp by lia.
    rewrite Hrp, bind_Ok. rewrite <- Hoff in Hl |- *.
    destruct (ConstIterator_restart _ e es' Hl) as (it0 & Hci & Hsc & Hk0).
    rewrite Hci, bind_Ok. split; [by exists it0|].
    apply (scan_layout target es' e it0 None (block_fuel b) Hl); auto.
    + rewrite Hes in Hne. apply Forall_app in Hne as [_ Hne']. done.
    + pose proof (layout_length _ _ Hl) as Hlen. simpl in Hlen.
      destruct Hl as (_ & ? & _). unfold block_fuel. lia.
Qed.

End Block_spec.

(** *** Well-formed blocks *)

(** The restart offsets in the trailer, in the order of their indices. *)
Fixpoint read_restarts_from (b : Block) (n : nat) (i : Z) : res (list Z) :=
  match n with
  | O => Ok []
  | S n' =>
      r ← restartPoint b i;
      rs ← read_restarts_from b n' (i + 1);
      Ok (r :: rs)
  end.

Definition read_restarts (b : Block) : res (list Z) :=
  read_restarts_from b (Z.to_nat (num_restart_ b)) 0.

Lemma read_restarts_from_spec (b : Block) n : ∀ i rs,
  read_restarts_from b n i = Ok rs →
  length rs = n ∧
  ∀ j r, rs !! j = Some r → restartPoint b (i + Z.of_nat j) = Ok r.
Proof.
  induction n as [|n IH]; intros i rs; simpl.
  - intros [= <-]. split; [done|]. intros j r Hj. done.
  - destruct (restartPoint b i) as [r0|] eqn:E; [|done]. rewrite bind_Ok.
    destruct (read_restarts_from b n (i + 1)) as [rs'|] eqn:E'; [|done].
    rewrite bind_Ok. intros [= <-]. destruct (IH _ _ E') as [Hlen Hrs].
    split; [simpl; by rewrite Hlen|]. intros [|j] r; simpl.
    + intros [= <-]. by rewrite Z.add_0_r.
    + intros Hj. apply Hrs in Hj. rewrite <- Hj. f_equal. lia.
Qed.

(** [b] is a block of entries [es] with restart offsets [rs]: the entries
    decode one after the other up to the trailer, none of them is empty,
    there is a restart point, and every restart offset is the offset of an
    entry whose shared-prefix length is zero. *)
Record block_ok (b : Block) (es : list entry) (rs : list Z) : Prop := {
  ok_end : 0 ≤ data_end_ b ≤ Z.of_nat (length (data_ b));
  ok_32 : data_end_ b < 2 ^ 32;
  ok_entries : decode_entries (block_fuel b) (data_ b) 0 (data_end_ b) = Ok es;
  ok_nonempty : forallb (λ e, bool_decide (e_key e < data_end_ b)) es = true;
  ok_num : 0 < num_restart_ b;
  ok_restarts : read_restarts b = Ok rs;
  ok_restart_entries :
    forallb (λ r, match from_offset r es with
                  | e :: _ => bool_decide (e_shared e = 0)
                  | [] => false
                  end) rs = true
}.

Section Block_ok.
Variable Compare : list Z → list Z → Z.
Variables (b : Block) (es : list entry) (rs : list Z).
Hypothesis Hok : block_ok b es rs.

Lemma ok_layout : layout b 0 es.
Proof.
  destruct Hok. eapply decode_entries_layout; [lia|lia|done].
Qed.

Lemma ok_nonempty' : Forall (λ e, e_key e < data_end_ b) es.
Proof.
  destruct Hok. apply Forall_forall. intros e He.
  rewrite forallb_forall in ok_nonempty0.
  apply list_elem_of_In, ok_nonempty0 in He. by apply bool_decide_eq_true in He.
Qed.

Lemma ok_length : Z.of_nat (length rs) = num_restart_ b.
Proof.
  destruct Hok. apply read_restarts_from_spec in ok_restarts0 as [-> _]. lia.
Qed.

Lemma ok_restartPoint i r :
  rs !! i = Some r → restartPoint b (Z.of_nat i) = Ok r.
Proof.
  destruct Hok. apply read_restarts_from_spec in ok_restarts0 as [_ H].
  intros Hi. by apply H in Hi.
Qed.

Lemma ok_restart_entry r :
  r ∈ rs → ∃ e es', from_offset r es = e :: es' ∧ e_shared e = 0.
Proof.
  destruct Hok. intros Hr. rewrite forallb_forall in ok_restart_entries0.
  apply list_elem_of_In, ok_restart_entries0 in Hr.
  destruct (from_offset r es) as [|e es']; [done|].
  apply bool_decide_eq_true in Hr. eauto.
Qed.

Definition ok_lower_bound target :=
  lower_bound_layout Compare b (proj2 (ok_end _ _ _ Hok)) (ok_32 _ _ _ Hok)
    es rs ok_layout ok_nonempty' ok_length ok_restartPoint ok_restart_entry
    target (ok_num _ _ _ Hok).

End Block_ok.

(** *** Comparators and example blocks *)

Definition cmp_lt (Compare : list Z → list Z → Z) (a c : list Z) : Prop :=
  Compare a c < 0.

Definition cmp_transitive (Compare : list Z → list Z → Z) : Prop :=
  ∀ a c d, Compare a c < 0 → Compare c d < 0 → Compare a d < 0.

(** The bytewise comparator, for the examples. *)
Fixpoint BytewiseCompare (a c : list Z) : Z :=
  match a, c with
  | [], [] => 0
  | [], _ :: _ => -1
  | _ :: _, [] => 1
  | x :: a', y :: c' =>
      if decide (x < y) then -1
      else if decide (y < x) then 1
      else BytewiseCompare a' c'
  end.

Lemma BytewiseCompare_transitive : cmp_transitive BytewiseCompare.
Proof.
  intros a. induction a as [|x a IH]; intros [|y c] [|z d]; simpl; try lia.
  repeat case_decide; try lia. apply IH.
Qed.

(** One entry, key "b", one restart point. *)
Definition block_b : Block :=
  mkBlock [0; 1; 0; 98; 0; 0; 0; 0; 1; 0; 0; 0] 12 1 4.

(** Keys "aa", "ab", "ac" with values 1, 2, 3 and "ba", "bb", "bc" with
    values 4, 5, 6; restart points at "aa" and "ba". *)
Definition block_6 : Block :=
  mkBlock [0; 2; 1; 97; 97; 1;  1; 1; 1; 98; 2;  1; 1; 1; 99; 3;
           0; 2; 1; 98; 97; 4;  1; 1; 1; 98; 5;  1; 1; 1; 99; 6;
           0; 0; 0; 0;  16; 0; 0; 0;  2; 0; 0; 0] 44 2 32.

(** Keys "a", "ab", "b", "bc", a restart point at every other key: every
    entry that shares a prefix follows an entry that stores its key in
    full. *)
Definition block_4 : Block :=
  mkBlock [0; 1; 0; 97;  1; 1; 0; 98;  0; 1; 0; 98;  1; 1; 0; 99;
           0; 0; 0; 0;  8; 0; 0; 0;  2; 0; 0; 0] 28 2 16.

Lemma block_b_new :
  Block_new [0; 1; 0; 98; 0; 0; 0; 0; 1; 0; 0; 0] = Ok block_b.
Proof. reflexivity. Qed.

Lemma block_6_new : Block_new (data_ block_6) = Ok block_6.
Proof. reflexivity. Qed.

Lemma block_4_new : Block_new (data_ block_4) = Ok block_4.
Proof. reflexivity. Qed.

Section Block_ok_more.
Variable Compare : list Z → list Z → Z.
Variables (b : Block) (es : list entry) (rs : list Z).
Hypothesis Hok : block_ok b es rs.

Lemma ok_restart_keys_read i k :
  (restart_key b es <$> rs) !! i = Some k →
  keyAtRestartPoint b (Z.of_nat i) = Ok k.
Proof.
  apply (restart_keys_read b (proj2 (ok_end _ _ _ Hok)) es rs
           (ok_layout b es rs Hok) (ok_restartPoint b es rs Hok)
           (ok_restart_entry b es rs Hok)).
Qed.

End Block_ok_more.

(** The search of the restart points. On a well-formed block whose restart
    keys increase, the loop of [lower_bound] narrows [0, num_restart_) to
    width one and leaves in [lb] the highest restart index whose key is less
    than [target] (0 when there is none). When the key of the first restart
    point exceeds [target], [lower_bound] returns the end cursor; otherwise
    it is the linear advance of a cursor made at restart offset [lb], which
    stops on the first entry from there for which [Key()] reports a key not
    less than [target], or at the end of the entries. What [Key()] reports
    need not be the key of the entry. *)
Theorem lower_bound_restart_search :
  ∀ (Compare : list Z → list Z → Z) (b : Block) (es : list entry)
    (rs : list Z) (target : list Z),
    cmp_transitive Compare → block_ok b es rs →
    StronglySorted (cmp_lt Compare) (restart_key b es <$> rs) →
    ∃ lb r e es' k0,
      restart_search Compare (S (Z.to_nat (num_restart_ b))) b target
        0 (num_restart_ b) = Ok (lb, lb + 1) ∧
      0 ≤ lb < num_restart_ b ∧
      restartPoint b lb = Ok r ∧ from_offset r es = e :: es' ∧
      keyAtRestartPoint b lb = Ok (stored_key b e) ∧
      keyAtRestartPoint b 0 = Ok k0 ∧
      (∀ i k, (restart_key b es <$> rs) !! i = Some k →
         Compare k target < 0 ↔
         Z.of_nat i ≤ lb ∧ Compare (stored_key b e) target < 0) ∧
      (0 ≤ Compare (stored_key b e) target → lb = 0) ∧
      (0 < Compare k0 target →
         ∃ it, lower_bound Compare b target = Ok it ∧ stands b it None) ∧
      (Compare k0 target ≤ 0 →
         ∃ it0, ConstIterator b r r = Ok it0 ∧
           lower_bound Compare b target
             = scan Compare (block_fuel b) b target it0 ∧
           match scan_ref Compare b target None (e :: es') with
           | Ok o => ∃ it, lower_bound Compare b target = Ok it ∧ stands b it o
           | Err err => lower_bound Compare b target = Err err
           end).
Proof.
  intros Compare b es rs target Htr Hok Hsd.
  destruct (ok_lower_bound Compare b es rs Hok target)
    as (lb & r & e & es' & es0 & Hlb & Hr & Hfo & Hes & Hoff & Hsh & Hsearch
        & Hkey & Hlo & Hhi & Hres).
  pose proof (ok_length b es rs Hok) as Hlen.
  set (rks := restart_key b es <$> rs) in *.
  assert (rks !! Z.to_nat lb = Some (stored_key b e)) as Hklb.
  { unfold rks. rewrite list_lookup_fmap, Hr. simpl. unfold restart_key.
    by rewrite Hfo. }
  destruct (lookup_lt_is_Some_2 rks 0%nat) as [k0 Hk0].
  { unfold rks. rewrite length_fmap. lia. }
  assert (∀ i j ki kj, (i < j)%nat → rks !! i = Some ki → rks !! j = Some kj →
            Compare ki kj < 0) as Hmono.
  { intros i j ki kj Hij Hi Hj.
    exact (StronglySorted_lookup_lt _ _ i j ki kj Hsd Hij Hi Hj). }
  assert (lb = 0 → k0 = stored_key b e) as Hk0lb.
  { intros ->. change (Z.to_nat 0) with 0%nat in Hklb. congruence. }
  exists lb, r, e, es', k0.
  split; [done|]. split; [done|].
  split; [rewrite <- (Z2Nat.id lb) by lia; by eapply ok_restartPoint|].
  split; [done|]. split; [done|].
  split; [by apply (ok_restart_keys_read b es rs Hok 0%nat)|].
  split; [|split; [|split]].
  - intros i k Hi. split.
    + intros Hlt. assert (Z.of_nat i ≤ lb) as Hile.
      { destruct (decide (Z.of_nat i ≤ lb)) as [|Hgt]; [done|exfalso].
        destruct Hhi as [Hhi|(k' & Hk' & Hge)].
        - apply lookup_lt_Some in Hi. unfold rks in Hi.
          rewrite length_fmap in Hi. lia.
        - destruct (decide (i = Z.to_nat (lb + 1))) as [->|Hne].
          + rewrite Hi in Hk'. simplify_eq. lia.
          + pose proof (Hmono (Z.to_nat (lb + 1)) i k' k ltac:(lia) Hk' Hi).
            pose proof (Htr _ _ _ H Hlt). lia. }
      split; [done|].
      destruct (decide (i = Z.to_nat lb)) as [->|Hne]; [congruence|].
      destruct Hlo as [->|?]; [lia|done].
    + intros [Hile Hlt].
      destruct (decide (i = Z.to_nat lb)) as [->|Hne]; [congruence|].
      pose proof (Hmono i (Z.to_nat lb) k _ ltac:(lia) Hi Hklb) as H.
      exact (Htr _ _ _ H Hlt).
  - intros Hge. destruct Hlo as [?|?]; [done|lia].
  - intros Hgt. assert (lb = 0) as Hlb0.
    { destruct Hlo as [?|Hlt]; [done|].
      destruct (decide (lb = 0)) as [|Hne]; [done|exfalso].
      pose proof (Hmono 0%nat (Z.to_nat lb) k0 _ ltac:(lia) Hk0 Hklb) as H.
      pose proof (Htr _ _ _ H Hlt). lia. }
    rewrite <- (Hk0lb Hlb0) in Hres. by rewrite decide_True in Hres.
  - intros Hle. rewrite decide_False in Hres.
    + destruct Hres as [(it0 & _ & Hci & Hlb') Hscan]. by exists it0.
    + destruct Hlo as [Hlb0|?]; [|lia]. rewrite <- (Hk0lb Hlb0). lia.
Qed.

Lemma block_6_ok :
  block_ok block_6
    [mkEntry 0 0 2 1 3; mkEntry 6 1 1 1 9; mkEntry 11 1 1 1 14;
     mkEntry 16 0 2 1 19; mkEntry 22 1 1 1 25; mkEntry 27 1 1 1 30]
    [0; 16].
Proof. split; try done; vm_compute; try done; split; congruence. Qed.

Lemma lower_bound_restart_search_witness :
  ∃ lb r e es' it0,
    restart_search BytewiseCompare (S (Z.to_nat (num_restart_ block_6)))
      block_6 [98; 98] 0 (num_restart_ block_6) = Ok (lb, lb + 1) ∧
    restartPoint block_6 lb = Ok r ∧
    from_offset r
      [mkEntry 0 0 2 1 3; mkEntry 6 1 1 1 9; mkEntry 11 1 1 1 14;
       mkEntry 16 0 2 1 19; mkEntry 22 1 1 1 25; mkEntry 27 1 1 1 30]
      = e :: es' ∧
    keyAtRestartPoint block_6 lb = Ok (stored_key block_6 e) ∧
    BytewiseCompare (stored_key block_6 e) [98; 98] < 0 ∧
    ConstIterator block_6 r r = Ok it0 ∧
    lower_bound BytewiseCompare block_6 [98; 98]
      = scan BytewiseCompare (block_fuel block_6) block_6 [98; 98] it0.
Proof.
  destruct (lower_bound_restart_search BytewiseCompare block_6 _ [0; 16] [98; 98]
              BytewiseCompare_transitive block_6_ok)
    as (lb & r & e & es' & k0 & H1 & H2 & H3 & H4 & H5 & H6 & H7 & H8 & H9 & H10).
  { repeat constructor; vm_compute; reflexivity. }
  vm_compute in H6. injection H6 as <-.
  destruct (H10 ltac:(by vm_compute)) as (it0 & Hc & Hl & _).
  exists lb, r, e, es', it0. repeat split; try assumption.
  apply (proj1 (H7 0%nat [97; 97] eq_refl)). reflexivity.
Defined.

(** *** The linear scan of the specification *)

(** The first decoded entry whose full key is not less than [target]. *)
Fixpoint linear_scan (Compare : list Z → list Z → Z) (target : list Z)
    (eks : list (entry * list Z)) : option (entry * list Z) :=
  match eks with
  | [] => None
  | (e, k) :: eks' =>
      if decide (0 ≤ Compare k target) then Some (e, k)
      else linear_scan Compare target eks'
  end.

(** That entry if its key equals [target], and nothing otherwise. *)
Definition linear_find (Compare : list Z → list Z → Z) (target : list Z)
    (eks : list (entry * list Z)) : option (entry * list Z) :=
  match linear_scan Compare target eks with
  | Some (e, k) => if decide (Compare k target = 0) then Some (e, k) else None
  | None => None
  end.

(** The shared prefix of every entry can be read in place: the first
    [e_shared] bytes of the previous full key are the bytes stored where
    the previous entry keeps its key. [lk] is where that is and [prev] the
    previous full key. *)
Fixpoint in_place (b : Block) (lk : option Z) (prev : list Z)
    (es : list entry) (ks : list (list Z)) : Prop :=
  match es, ks with
  | e :: es', k :: ks' =>
      append_from (data_ b) lk (e_shared e)
        = Ok (take (Z.to_nat (e_shared e)) prev) ∧
      in_place b (Some (e_key e)) k es' ks'
  | _, _ => True
  end.

Section Linear.
Variable Compare : list Z → list Z → Z.
Variable b : Block.

Lemma full_keys_app (mem : list Z) : ∀ es0 es1 prev ks,
  full_keys mem prev (es0 ++ es1) = Ok ks →
  ∃ ks0 ks1 prev', ks = ks0 ++ ks1 ∧ length ks0 = length es0 ∧
    full_keys mem prev' es1 = Ok ks1.
Proof.
  induction es0 as [|e es0 IH]; intros es1 prev ks; simpl.
  - intros H. by exists [], ks, prev.
  - destruct (assert _) as [[]|]; [|done]. rewrite bind_Ok.
    destruct (read_bytes mem (e_key e) (e_unshared e)) as [suf|]; [|done].
    rewrite bind_Ok. cbn zeta.
    destruct (full_keys mem _ (es0 ++ es1)) as [ks'|] eqn:E; [|done].
    rewrite bind_Ok. intros [= <-].
    destruct (IH _ _ _ E) as (ks0 & ks1 & prev' & -> & Hlen & Hfk).
    eexists (_ :: ks0), ks1, prev'. split; [done|]. split; [|done].
    simpl. by rewrite Hlen.
Qed.

Lemma in_place_app : ∀ es0 ks0 lk prev e es1 k ks1,
  length es0 = length ks0 →
  in_place b lk prev (es0 ++ e :: es1) (ks0 ++ k :: ks1) →
  in_place b (Some (e_key e)) k es1 ks1.
Proof.
  induction es0 as [|e0 es0 IH]; intros [|k0 ks0] lk prev e es1 k ks1 Hlen;
    simpl in *; try done.
  - by intros [_ H].
  - intros [_ H]. eapply IH; [|exact H]. lia.
Qed.

Lemma layout_reads : ∀ es p,
  layout b p es → 0 ≤ p → data_end_ b ≤ Z.of_nat (length (data_ b)) →
  Forall (λ e, read_bytes (data_ b) (e_key e) (e_unshared e)
               = Ok (stored_key b e)) es.
Proof.
  induction es as [|e es IH]; intros p Hlay Hp Hend; constructor.
  - by apply (read_stored_key b Hend e es p).
  - destruct Hlay as (_ & ? & _ & ? & ? & ? & ? & Hlay).
    apply (IH _ Hlay); [lia|done].
Qed.

Lemma scan_ref_true_keys target : ∀ es ks lk prev,
  Forall (λ e, read_bytes (data_ b) (e_key e) (e_unshared e)
               = Ok (stored_key b e)) es →
  full_keys (data_ b) prev es = Ok ks →
  in_place b lk prev es ks →
  scan_ref Compare b target lk es
    = Ok (linear_scan Compare target (zip es ks)).
Proof.
  induction es as [|e es IH]; intros ks lk prev Hrd; simpl.
  - by intros [= <-] _.
  - apply Forall_cons in Hrd as [Hrd1 Hrd]. rewrite Hrd1.
    destruct (assert _) as [[]|]; [|done]. rewrite !bind_Ok. cbn zeta.
    destruct (full_keys (data_ b) _ es) as [ks'|] eqn:E; [|done].
    rewrite bind_Ok. intros [= <-] [Hpre Hin]. simpl.
    unfold cursor_key. rewrite Hpre, Hrd1, !bind_Ok.
    destruct (decide _); [done|]. by eapply IH.
Qed.

Lemma linear_scan_skip target : ∀ es0 ks0 es1 ks1,
  length es0 = length ks0 →
  Forall (λ k, Compare k target < 0) ks0 →
  linear_scan Compare target (zip (es0 ++ es1) (ks0 ++ ks1))
    = linear_scan Compare target (zip es1 ks1).
Proof.
  induction es0 as [|e es0 IH]; intros [|k ks0] es1 ks1 Hlen Hlt;
    simpl in *; try done.
  apply Forall_cons in Hlt as [Hk Hlt]. rewrite decide_False by lia.
  apply IH; [lia|done].
Qed.

Lemma from_offset_first p e es :
  layout b p (e :: es) → from_offset p (e :: es) = e :: es.
Proof. intros (Hoff & _). simpl. by rewrite decide_True. Qed.

End Linear.

(** C2, amended. On a well-formed block whose first restart point is its
    first entry, whose full keys increase and whose shared prefixes can be
    read in place: for a probe less than the first key [lower_bound] returns
    the end cursor; for any other probe [lower_bound] returns the cursor on
    the entry that the linear scan over all decoded entries finds (the end
    cursor if it finds none), reporting that entry's full key, and when that
    is an entry [find] returns the cursor the linear scan for an equal key
    gives. *)
Theorem lower_bound_find_linear_scan :
  ∀ (Compare : list Z → list Z → Z) (b : Block) (es : list entry)
    (rs : list Z) (ks : list (list Z)) (k0 : list Z) (target : list Z),
    cmp_transitive Compare → block_ok b es rs → head rs = Some 0 →
    full_keys (data_ b) [] es = Ok ks → head ks = Some k0 →
    StronglySorted (cmp_lt Compare) ks →
    in_place b None [] es ks →
    (0 < Compare k0 target →
       ∃ it, lower_bound Compare b target = Ok it ∧ stands b it None) ∧
    (Compare k0 target ≤ 0 →
       (∃ it, lower_bound Compare b target = Ok it ∧
          stands b it (linear_scan Compare target (zip es ks))) ∧
       (linear_scan Compare target (zip es ks) ≠ None →
        ∃ it, find Compare b target = Ok it ∧
          stands b it (linear_find Compare target (zip es ks)))).
Proof.
  intros Compare b es rs ks k0 target Htr Hok Hrs0 Hfk Hk0 Hsd Hip.
  destruct (ok_lower_bound Compare b es rs Hok target)
    as (lb & r & e & es' & es0 & Hlb & Hr & Hfo & Hes & Hoff & Hsh & _
        & _ & Hlo & _ & Hres).
  pose proof (ok_layout b es rs Hok) as Hlay.
  pose proof (ok_end _ _ _ Hok) as [_ Hend].
  pose proof (layout_reads b es 0 Hlay ltac:(lia) Hend) as Hrd.
  subst es.
  destruct (full_keys_app _ _ _ _ _ Hfk) as (ks0 & ks1 & prev' & -> & Hlen & Hfk1).
  apply Forall_app in Hrd as [_ Hrd1].
  pose proof Hfk1 as Hfk1'. simpl in Hfk1'.
  pose proof (Forall_inv Hrd1) as Hrde. cbv beta in Hrde.
  rewrite Hrde, Hsh in Hfk1'.
  destruct (assert _) as [[]|] in Hfk1'; [|done]. rewrite !bind_Ok in Hfk1'.
  cbn zeta in Hfk1'. change (Z.to_nat 0) with 0%nat in Hfk1'.
  rewrite take_0, app_nil_l in Hfk1'.
  destruct (full_keys (data_ b) (stored_key b e) es') as [ks'|] eqn:Hfk'; [|done].
  rewrite bind_Ok in Hfk1'. injection Hfk1' as <-.
  set (k := stored_key b e) in *.
  assert (Forall (λ x, Compare x k < 0) ks0) as Hbefore.
  { apply StronglySorted_app in Hsd as (Hc & _ & _).
    apply Forall_forall. intros x Hx. apply Hc; [done|apply list_elem_of_here]. }
  assert (in_place b None prev' (e :: es') (k :: ks')) as Hip1.
  { simpl. split; [by rewrite Hsh|]. by eapply in_place_app. }
  assert (lb = 0 → ks0 = [] ∧ k0 = k) as Hlb0.
  { intros ->. change (Z.to_nat 0) with 0%nat in Hr.
    assert (r = 0) as -> by (destruct rs; simpl in *; congruence).
    clear Hres. destruct es0 as [|e0 es0].
    - destruct ks0; [|simpl in Hlen; lia]. simpl in Hk0. split; congruence.
    - exfalso. simpl app in Hfo, Hlay.
      rewrite (from_offset_first b 0 e0 _ Hlay) in Hfo.
      apply (f_equal length) in Hfo. simpl in Hfo.
      rewrite length_app in Hfo. simpl in Hfo. lia. }
  assert (lb ≠ 0 → Compare k target < 0 ∧
            (Compare k0 target < 0)) as Hlbn.
  { intros Hne. destruct Hlo as [?|Hlt]; [done|]. split; [done|].
    destruct ks0 as [|x ks0]; simplify_eq/=; [done|].
    apply Forall_inv in Hbefore. exact (Htr _ _ _ Hbefore Hlt). }
  split.
  - intros Hgt. destruct (decide (lb = 0)) as [Hz|Hnz].
    + destruct (Hlb0 Hz) as [_ ->]. by rewrite decide_True in Hres.
    + destruct (Hlbn Hnz). lia.
  - intros Hle. rewrite decide_False in Hres.
    2:{ destruct (decide (lb = 0)) as [Hz|Hnz].
        - destruct (Hlb0 Hz) as [_ <-]. lia.
        - destruct (Hlbn Hnz). lia. }
    destruct Hres as [_ Hres].
    rewrite (scan_ref_true_keys Compare b target (e :: es') (k :: ks') None prev'
               Hrd1 Hfk1 Hip1) in Hres.
    assert (linear_scan Compare target (zip (es0 ++ e :: es') (ks0 ++ k :: ks'))
            = linear_scan Compare target (zip (e :: es') (k :: ks'))) as Hskip.
    { apply linear_scan_skip; [done|].
      destruct (decide (lb = 0)) as [Hz|Hnz].
      - destruct (Hlb0 Hz) as [-> _]. constructor.
      - destruct (Hlbn Hnz) as [Hlt _]. eapply Forall_impl; [exact Hbefore|].
        intros x Hx. exact (Htr _ _ _ Hx Hlt). }
    unfold linear_find. rewrite Hskip.
    destruct Hres as (it & Hlbd & Hst). split; [by exists it|].
    intros Hsome. unfold find. rewrite Hlbd, bind_Ok.
    destruct (linear_scan Compare target (zip (e :: es') (k :: ks')))
      as [[e1 k1]|]; [|done].
    destruct Hst as [Hon HKey]. rewrite HKey, bind_Ok. cbn beta iota.
    destruct (decide (Compare k1 target = 0)) as [Heq|Hneq].
    + rewrite decide_False by lia. exists it. done.
    + rewrite decide_True by done. rewrite end_cursor. eexists. split; [done|].
      done.
Qed.

Lemma block_4_ok :
  block_ok block_4
    [mkEntry 0 0 1 0 3; mkEntry 4 1 1 0 7; mkEntry 8 0 1 0 11;
     mkEntry 12 1 1 0 15]
    [0; 8].
Proof. split; try done; vm_compute; try done; split; congruence. Qed.

Lemma lower_bound_find_linear_scan_witness :
  let es := [mkEntry 0 0 1 0 3; mkEntry 4 1 1 0 7; mkEntry 8 0 1 0 11;
             mkEntry 12 1 1 0 15] in
  let ks := [[97]; [97; 98]; [98]; [98; 99]] in
  (∃ it, lower_bound BytewiseCompare block_4 [97; 122] = Ok it ∧
     stands block_4 it (linear_scan BytewiseCompare [97; 122] (zip es ks))) ∧
  (∃ it, find BytewiseCompare block_4 [98] = Ok it ∧
     stands block_4 it (linear_find BytewiseCompare [98] (zip es ks))).
Proof.
  split.
  - refine (proj1 (proj2 (lower_bound_find_linear_scan BytewiseCompare block_4 _
             [0; 8] [[97]; [97; 98]; [98]; [98; 99]] [97] [97; 122]
             BytewiseCompare_transitive block_4_ok _ _ _ _ _) _)).
    + reflexivity.
    + reflexivity.
    + reflexivity.
    + repeat constructor; vm_compute; reflexivity.
    + vm_compute. repeat split; reflexivity.
    + by vm_compute.
  - refine (proj2 (proj2 (lower_bound_find_linear_scan BytewiseCompare block_4 _
             [0; 8] [[97]; [97; 98]; [98]; [98; 99]] [97] [98]
             BytewiseCompare_transitive block_4_ok _ _ _ _ _) _) _).
    + reflexivity.
    + reflexivity.
    + reflexivity.
    + repeat constructor; vm_compute; reflexivity.
    + vm_compute. repeat split; reflexivity.
    + by vm_compute.
    + by vm_compute.
Defined.

Lemma block_b_ok : block_ok block_b [mkEntry 0 0 1 0 3] [0].
Proof. split; try done; vm_compute; try done; split; congruence. Qed.

(** C2 as it is stated fails: in the block whose only key is "b",
    [lower_bound("a")] is the end cursor while the linear scan finds the
    entry of "b". *)
Lemma lower_bound_linear_scan_counterexample :
  ¬ (∀ (Compare : list Z → list Z → Z) (b : Block) (es : list entry)
       (rs : list Z) (ks : list (list Z)) (target : list Z),
       cmp_transitive Compare → block_ok b es rs → head rs = Some 0 →
       full_keys (data_ b) [] es = Ok ks →
       StronglySorted (cmp_lt Compare) ks →
       in_place b None [] es ks →
       ∃ it, lower_bound Compare b target = Ok it ∧
         stands b it (linear_scan Compare target (zip es ks))).
Proof.
  intros H.
  destruct (H BytewiseCompare block_b [mkEntry 0 0 1 0 3] [0] [[98]] [97]
              BytewiseCompare_transitive block_b_ok)
    as (it & Hlb & Hst).
  - reflexivity.
  - reflexivity.
  - repeat constructor.
  - vm_compute. repeat split; reflexivity.
  - vm_compute in Hlb. injection Hlb as <-.
    simpl in Hst. destruct Hst as [(Hbuf & _) _]. simpl in Hbuf. lia.
Qed.

(** Where the shared prefixes cannot be read in place the two differ as
    well: in [block_6] the scan for "az" stops on the entry of "ac", whose
    cursor reports "bc", while the linear scan finds the entry of "ba". *)
Lemma lower_bound_block_6_az :
  let es := [mkEntry 0 0 2 1 3; mkEntry 6 1 1 1 9; mkEntry 11 1 1 1 14;
             mkEntry 16 0 2 1 19; mkEntry 22 1 1 1 25; mkEntry 27 1 1 1 30] in
  full_keys (data_ block_6) [] es
    = Ok [[97; 97]; [97; 98]; [97; 99]; [98; 97]; [98; 98]; [98; 99]] ∧
  linear_scan BytewiseCompare [97; 122]
    (zip es [[97; 97]; [97; 98]; [97; 99]; [98; 97]; [98; 98]; [98; 99]])
    = Some (mkEntry 16 0 2 1 19, [98; 97]) ∧
  lower_bound BytewiseCompare block_6 [97; 122]
    = Ok (mkIter 14 18 1 1 1 (Some 9) 0 [98; 99] StatusOK).
Proof. repeat split; reflexivity. Qed.

(** C3. The block of keys "aa", "ab", "ac", "ba", "bb", "bc" with restart
    points at "aa" and "ba", searched for "az". The search of the restart
    points is as claimed: it ends on index 0, the highest restart point
    whose key is less than the target, and the key of the first restart
    point does not exceed the target. The advance from that restart offset
    is not: it stops on the third entry, whose key "ac" is less than the
    target, since [Key()] reports "bc" there, while the first key from
    that offset on that is not less than the target is "ba", the key of
    the fourth entry. *)
Theorem lower_bound_stops_on_lesser_key :
  let es := [mkEntry 0 0 2 1 3; mkEntry 6 1 1 1 9; mkEntry 11 1 1 1 14;
             mkEntry 16 0 2 1 19; mkEntry 22 1 1 1 25; mkEntry 27 1 1 1 30] in
  let ks := [[97; 97]; [97; 98]; [97; 99]; [98; 97]; [98; 98]; [98; 99]] in
  let target := [97; 122] in
  Block_new (data_ block_6) = Ok block_6 ∧
  block_ok block_6 es [0; 16] ∧
  full_keys (data_ block_6) [] es = Ok ks ∧
  StronglySorted (cmp_lt BytewiseCompare) ks ∧
  restart_search BytewiseCompare (S (Z.to_nat (num_restart_ block_6)))
    block_6 target 0 (num_restart_ block_6) = Ok (0, 1) ∧
  keyAtRestartPoint block_6 0 = Ok [97; 97] ∧
  keyAtRestartPoint block_6 1 = Ok [98; 97] ∧
  BytewiseCompare [97; 97] target < 0 ∧
  0 ≤ BytewiseCompare [98; 97] target ∧
  restartPoint block_6 0 = Ok 0 ∧
  linear_scan BytewiseCompare target (zip (from_offset 0 es) ks)
    = Some (mkEntry 16 0 2 1 19, [98; 97]) ∧
  ∃ it, lower_bound BytewiseCompare block_6 target = Ok it ∧
    on_entry block_6 (mkEntry 11 1 1 1 14) it ∧
    zip es ks !! 2%nat = Some (mkEntry 11 1 1 1 14, [97; 99]) ∧
    BytewiseCompare [97; 99] target < 0 ∧
    Key block_6 it = Ok ([98; 99], it).
Proof.
  intros es ks target.
  split; [reflexivity|]. split; [exact block_6_ok|].
  split; [reflexivity|].
  split; [repeat constructor; vm_compute; reflexivity|].
  do 7 (split; [by vm_compute|]).
  exists (mkIter 14 18 1 1 1 (Some 9) 0 [98; 99] StatusOK).
  split; [by vm_compute|].
  split; [repeat split; reflexivity|].
  repeat split; by vm_compute.
Qed.

(** C10. [Key()] asserts that the cursor is not at the end, and [find] calls
    it on what [lower_bound] returned before it looks at anything else: when
    [lower_bound] returns the end cursor, [find] fails that assertion. *)
Theorem find_end_cursor_fails_Key_assert :
  ∀ (Compare : list Z → list Z → Z) (b : Block) (target : list Z)
    (it e : BlockConstIterator),
    lower_bound Compare b target = Ok it →
    end_ b = Ok e → equal it e = true →
    Key b it = Err AssertFail ∧ find Compare b target = Err AssertFail.
Proof.
  intros Compare b target it e Hlb He Heq.
  rewrite end_cursor in He. injection He as <-.
  unfold equal in Heq. apply andb_true_iff in Heq as [Hbuf _].
  apply bool_decide_eq_true in Hbuf. simpl in Hbuf.
  assert (Key b it = Err AssertFail) as HKey.
  { unfold Key. by rewrite bool_decide_eq_false_2 by (intros Hne; by apply Hne). }
  split; [done|]. unfold find. by rewrite Hlb, bind_Ok, HKey.
Qed.

Lemma find_end_cursor_fails_Key_assert_witness :
  (Key block_b (mkIter 4 0 0 0 0 None 0 [] StatusOK) = Err AssertFail ∧
   find BytewiseCompare block_b [97] = Err AssertFail) ∧
  (Key block_b (mkIter 4 0 0 1 0 (Some 3) 0 [] StatusOK) = Err AssertFail ∧
   find BytewiseCompare block_b [99] = Err AssertFail).
Proof.
  split.
  - apply (find_end_cursor_fails_Key_assert BytewiseCompare block_b [97]
             (mkIter 4 0 0 0 0 None 0 [] StatusOK)
             (mkIter 4 0 0 0 0 None 0 [] StatusOK)); reflexivity.
  - apply (find_end_cursor_fails_Key_assert BytewiseCompare block_b [99]
             (mkIter 4 0 0 1 0 (Some 3) 0 [] StatusOK)
             (mkIter 4 0 0 0 0 None 0 [] StatusOK)); reflexivity.
Defined.

(** Keys "aa", "ab", "ac", one restart point. *)
Definition block_3 : Block :=
  mkBlock [0; 2; 0; 97; 97;  1; 1; 0; 98;  1; 1; 0; 99;
           0; 0; 0; 0;  1; 0; 0; 0] 21 1 13.

(** C4 fails on the code. The third entry of [block_3] has the full key
    "ac"; a cursor that reached it from [begin()] reports "bc", the first
    byte stored at the second entry and the byte stored at the third. And a
    cursor made on the second entry, which has no previous key, replays
    from the restart point, drops what the replay found and reads from
    [nullptr]. *)
Lemma Key_takes_prefix_from_stored_bytes :
  (es ← decode_entries (block_fuel block_3) (data_ block_3) 0
          (data_end_ block_3);
   full_keys (data_ block_3) [] es)
    = Ok [[97; 97]; [97; 98]; [97; 99]] ∧
  (it ← begin block_3; it ← increment block_3 it; it ← increment block_3 it;
   '(k, _) ← Key block_3 it; Ok k) = Ok [98; 99] ∧
  (it ← ConstIterator block_3 5 0; '(k, _) ← Key block_3 it; Ok k)
    = Err Undefined.
Proof. repeat split; reflexivity. Qed.

(** ** The memtable *)

Close Scope Z_scope.

(** The entry [Add] is to store: the length-prefixed internal key and then
    the length-prefixed value. *)
Definition entry_of (InternalKeyBuf : list Z → Z → ValueType → list Z)
    (op : Z * ValueType * list Z * list Z) : list Z :=
  let '(sequence, type, key, value) := op in
  let ikey := InternalKeyBuf key sequence type in
  PutVar32 (Z.of_nat (length ikey)) ++ ikey ++
  PutVar32 (Z.of_nat (length value)) ++ value.

Lemma Add_ok InternalKeyBuf (compare_ : list Z → list Z → bool) m acc
    sequence type key value :
  transitive compare_ → Repr compare_ [] (table_ m) acc →
  let e := entry_of InternalKeyBuf (sequence, type, key, value) in
  ∃ m', Add InternalKeyBuf compare_ m sequence type key value = Ok m' ∧
    regions (arena_ m') = regions (arena_ m) ++ [e] ∧
    Repr compare_ [] (table_ m') (ref_insert compare_ e acc).
Proof.
  intros Ht Hr e. unfold Add, allocate, memcpy, pointee. cbn [regions].
  set (buf := AppendVarString (AppendVarString [] _) value).
  assert (buf = e) as Hbuf.
  { unfold buf, e, entry_of, AppendVarString. simpl. by rewrite <- !app_assoc. }
  rewrite list_lookup_middle by done.
  rewrite decide_True by (by rewrite length_replicate).
  rewrite bind_Ok. cbn [regions].
  rewrite take_ge by done. rewrite drop_ge by (by rewrite length_replicate).
  rewrite app_nil_r.
  assert (<[length (regions (arena_ m)) := buf]>
            (regions (arena_ m) ++ [replicate (length buf) 0%Z])
          = regions (arena_ m) ++ [buf]) as ->.
  { rewrite insert_app_r_alt by done. by rewrite Nat.sub_diag. }
  rewrite list_lookup_middle by done. rewrite bind_Ok.
  destruct (Insert_Repr compare_ [] (table_ m) acc buf Ht Hr) as (it & s' & -> & Hr').
  rewrite bind_Ok. cbn beta iota. eexists. split; [done|]. simpl.
  by rewrite <- Hbuf.
Qed.

Lemma AddAll_ok InternalKeyBuf (compare_ : list Z → list Z → bool) ops :
  ∀ m acc,
    transitive compare_ → Repr compare_ [] (table_ m) acc →
    ∃ m', AddAll InternalKeyBuf compare_ m ops = Ok m' ∧
      regions (arena_ m') = regions (arena_ m) ++ (entry_of InternalKeyBuf <$> ops) ∧
      Repr compare_ [] (table_ m')
        (ref_insert_all compare_ acc (entry_of InternalKeyBuf <$> ops)).
Proof.
  induction ops as [|[[[sequence type] key] value] ops IH]; intros m acc Ht Hr.
  - exists m. simpl. by rewrite app_nil_r.
  - cbn [AddAll].
    destruct (Add_ok InternalKeyBuf compare_ m acc sequence type key value Ht Hr)
      as (m1 & -> & Hreg & Hr1).
    rewrite bind_Ok. destruct (IH m1 _ Ht Hr1) as (m' & -> & Hreg' & Hr').
    exists m'. split; [done|]. split; [|done].
    rewrite Hreg', Hreg, <- app_assoc. done.
Qed.


(** An internal key for the examples: the user key, the sequence number and
    the kind, one byte each for the last two. *)
Definition example_ikey (key : list Z) (sequence : Z) (type : ValueType)
  : list Z :=
  key ++ [sequence; match type with kTypeDeletion => 0 | kTypeValue => 1 end]%Z.


(** ** The rest of SkipList.h *)

Section SkipList_rest.
Context {T : Type}.

(** [operator==] and [operator!=] of iterators. *)
Definition Iterator_eq (x y : Iterator) : bool := bool_decide (x = y).
Definition Iterator_ne (x y : Iterator) : bool := negb (Iterator_eq x y).

(** [Empty()]. *)
Definition Empty (s : @SkipList T) : res bool :=
  b ← Begin s; Ok (Iterator_eq b End).

(** The destructor,
    [while (x != nullptr) { prev = x; x = x->Next(0); delete prev; }]
    from [x = head_]. [deleted] are the nodes deleted so far, in the order
    of their deletion; going through a deleted node is undefined. What
    [~Node] does to the [forward] array of the node is not looked into. *)
Fixpoint delete_loop (fuel : nat) (s : @SkipList T) (x : ptr)
    (deleted : list nat) : res (list nat) :=
  match fuel with
  | 0 => Err OutOfFuel
  | S fuel' =>
      match x with
      | None => Ok deleted
      | Some prev =>
          if decide (prev ∈ deleted) then Err Undefined
          else
            x' ← Next s prev 0;
            delete_loop fuel' s x' (deleted ++ [prev])
      end
  end.

Definition SkipList_delete (s : @SkipList T) : res (list nat) :=
  delete_loop (fuel_of s) s (Some head_) [].

End SkipList_rest.

Section SkipList_frame.
Context {T : Type} (compare_ : T → T → bool).
Implicit Types (s : @SkipList T) (x p l : nat) (k : T).

Lemma chain_Next s l x ps : chain s l x ps → Next s x l = Ok (head ps).
Proof. destruct ps; simpl; [done|]. by intros [? _]. Qed.

Lemma SetNext_frame s x v l s' :
  SetNext s x v l = Ok s' →
  shape s' = shape s ∧ height_ s' = height_ s ∧ gen_ s' = gen_ s.
Proof.
  unfold SetNext, deref. destruct (nodes s !! x) as [n|] eqn:Hn; [|done].
  rewrite bind_Ok. destruct (decide _); [|done]. intros [= <-]. simpl.
  split; [|done]. unfold shape. simpl. rewrite list_fmap_insert. simpl.
  rewrite length_insert. apply list_insert_id.
  by rewrite list_lookup_fmap, Hn.
Qed.

Lemma Insert_link_frame n : ∀ i update x s s',
  Insert_link n i update x s = Ok s' →
  shape s' = shape s ∧ height_ s' = height_ s ∧ gen_ s' = gen_ s.
Proof.
  induction n as [|n IH]; intros i update x s s'; cbn [Insert_link].
  - by intros [= <-].
  - destruct (array_get update i) as [u|]; [|done]. rewrite bind_Ok.
    destruct (NoSyncNext s u i) as [nxt|]; [|done]. rewrite bind_Ok.
    destruct (NoSyncSetNext s x nxt i) as [s1|] eqn:E1; [|done]. rewrite bind_Ok.
    destruct (SetNext s1 u (Some x) i) as [s2|] eqn:E2; [|done]. rewrite bind_Ok.
    intros H. apply IH in H as (-> & -> & ->).
    apply SetNext_frame in E1 as (<- & <- & <-).
    by apply SetNext_frame in E2 as (<- & <- & <-).
Qed.

Lemma randomLevel_frame s :
  nodes (randomLevel s).2 = nodes s ∧ height_ (randomLevel s).2 = height_ s ∧
  1 ≤ (randomLevel s).1 ≤ MaxLevel.
Proof.
  destruct (randomLevel_loop_ok MaxLevel 1 s) as (level & g & H & Hl);
    [unfold MaxLevel; lia|].
  unfold randomLevel. rewrite H. done.
Qed.

(** [Insert] returns without a change, or with one more node: the nodes
    there were keep their keys and their heights. *)
Lemma Insert_frame s k it s' :
  Insert compare_ s k = Ok (it, s') →
  s' = s ∨
  (shape s' = shape s ++ [(k, (randomLevel s).1)] ∧
   height_ s' = height_ s `max` (randomLevel s).1 ∧
   it = Some (length (nodes s))).
Proof.
  unfold Insert.
  destruct (Insert_search _ _ _ _ _ _) as [[x update]|]; [|done].
  rewrite bind_Ok. cbn beta iota.
  destruct (Next s x 0) as [y|]; [|done]. rewrite bind_Ok.
  destruct (match y with Some y0 => _ | None => _ end) as [found|]; [|done].
  rewrite bind_Ok. destruct found; [intros [= <- <-]; by left|].
  destruct (Find compare_ s k) as [f|]; [|done]. rewrite bind_Ok.
  destruct (assert _) as [[]|]; [|done]. rewrite bind_Ok.
  unfold Insert_new. pose proof (randomLevel_frame s) as (Hn & Hh & Hl).
  destruct (randomLevel s) as [level s1]. simpl in *.
  intros H. right.
  destruct (decide (getHeight s1 < level)) as [Hlt|Hge].
  - destruct (Insert_raise _ _ _) as [u'|]; [|done]. rewrite !bind_Ok in H.
    cbn beta iota in H. unfold Make in H. cbn [nodes height_ gen_] in H.
    destruct (Insert_link _ _ _ _ _) as [sf|] eqn:E; [|done].
    rewrite bind_Ok in H. injection H as <- <-.
    apply Insert_link_frame in E as (Hsh & Hhf & _).
    rewrite Hsh, Hhf. unfold shape. cbn [nodes height_].
    rewrite fmap_app, Hn. simpl. rewrite length_replicate.
    unfold getHeight in Hlt. split; [done|]. split; [lia|done].
  - rewrite !bind_Ok in H.
    cbn beta iota in H. unfold Make in H.
    destruct (Insert_link _ _ _ _ _) as [sf|] eqn:E; [|done].
    rewrite bind_Ok in H. injection H as <- <-.
    apply Insert_link_frame in E as (Hsh & Hhf & _).
    rewrite Hsh, Hhf. unfold shape. cbn [nodes height_].
    rewrite fmap_app, Hn. simpl. rewrite length_replicate.
    unfold getHeight in Hge. split; [done|]. split; [lia|done].
Qed.

End SkipList_frame.

Section SkipList_full.
Context {T : Type} (compare_ : T → T → bool) (T0 : T).
Implicit Types (s : @SkipList T) (x p l : nat) (k : T) (L : nat → list nat).

(** The number of slots of the node at [x]. *)
Definition slots s x : nat :=
  from_option (λ n, length (forward n)) 0 (nodes s !! x).

Lemma slots_shape s x : slots s x = from_option snd 0 (shape s !! x).
Proof.
  unfold slots, shape. rewrite list_lookup_fmap. by destruct (nodes s !! x).
Qed.

Lemma keyOf_shape s x : keyOf T0 s x = from_option fst T0 (shape s !! x).
Proof.
  unfold keyOf, shape. rewrite list_lookup_fmap. by destruct (nodes s !! x).
Qed.

Lemma shape_prefix s s' x :
  shape s `prefix_of` shape s' → x < length (nodes s) →
  keyOf T0 s' x = keyOf T0 s x ∧ slots s' x = slots s x.
Proof.
  intros [r Hr] Hx. rewrite !keyOf_shape, !slots_shape, Hr.
  rewrite lookup_app_l; [done|]. unfold shape. by rewrite length_fmap.
Qed.

Lemma shape_prefix_length s s' :
  shape s `prefix_of` shape s' → length (nodes s) ≤ length (nodes s').
Proof.
  intros H%prefix_length. unfold shape in H. by rewrite !length_fmap in H.
Qed.

(** The invariant of the lists that [Insert] builds, beyond [Inv]: every
    node but the head is on level 0, a node is on the levels below its
    number of slots, and [height_] is the largest number of slots of a
    node of the list. *)
Record Full s L : Prop := {
  full_inv : Inv compare_ T0 s L;
  full_nodes : S (length (L 0)) = length (nodes s);
  full_level : ∀ x l, x ∈ L l ↔ x ∈ L 0 ∧ l < slots s x;
  full_head : slots s 0 = MaxLevel;
  full_slots : ∀ x, x ∈ L 0 → slots s x ≤ height_ s;
  full_top : height_ s = 1 ∨ ∃ x, x ∈ L 0 ∧ slots s x = height_ s
}.

Lemma Inv_new gen : Inv compare_ T0 (SkipList_new T0 gen) (λ _, []).
Proof.
  split; simpl; try done.
  - unfold MaxLevel. lia.
  - intros l Hl. unfold Next, deref, SkipList_new. cbn [nodes].
    change (_ !! 0) with (Some (mkNode T0 (replicate MaxLevel (Some None)))).
    cbv beta iota. rewrite bind_Ok. cbn [forward].
    by rewrite lookup_replicate_2.
  - intros l. constructor.
  - intros l. apply NoDup_singleton.
  - intros l. lia.
Qed.

Lemma Full_new gen : Full (SkipList_new T0 gen) (λ _, []).
Proof.
  split; [apply Inv_new|done| | | |by left].
  - intros x l. split; [by intros ?%not_elem_of_nil|by intros [?%not_elem_of_nil _]].
  - reflexivity.
  - by intros x ?%not_elem_of_nil.
Qed.

Lemma Insert_Full s L k :
  let cond := λ k', compare_ k' k in
  transitive compare_ → Full s L →
  (∃ y B, above T0 s cond (L 0) = y :: B ∧
     keyEq compare_ k (keyOf T0 s y) = true ∧
     Insert compare_ s k = Ok (Some y, s)) ∨
  (Forall (λ b, lt compare_ k (keyOf T0 s b)) (above T0 s cond (L 0)) ∧
   ∃ s', Insert compare_ s k = Ok (Some (length (nodes s)), s') ∧
     Full s' (linked T0 s L cond (length (nodes s)) (randomLevel s).1) ∧
     shape s' = shape s ++ [(k, (randomLevel s).1)] ∧
     height_ s' = height_ s `max` (randomLevel s).1).
Proof.
  intros cond Ht HF. pose proof (full_inv _ _ HF) as HI.
  destruct (Insert_ok compare_ T0 s L k Ht HI)
    as [H|(Hab & s' & level & Hins & Hlev & HI' & Hsh)]; [by left|right].
  split; [done|]. exists s'. split; [done|].
  destruct (Insert_frame compare_ s k _ _ Hins) as [->|(Hsh' & Hh' & _)].
  { apply (f_equal length) in Hsh. rewrite length_app in Hsh. simpl in Hsh. lia. }
  assert (level = (randomLevel s).1) as Hlv.
  { rewrite Hsh in Hsh'. apply app_inv_head in Hsh'. congruence. }
  rewrite <- Hlv in *. clear Hsh' Hlv.
  split; [|by split].
  set (p := length (nodes s)) in *.
  destruct (shape_snoc T0 s s' k level Hsh) as (Hlen' & Hkp & Hkq).
  assert (shape s `prefix_of` shape s') as Hpre by (rewrite Hsh; by eexists).
  assert (slots s' p = level) as Hsp.
  { rewrite slots_shape, Hsh. rewrite lookup_app_r by (unfold shape; by rewrite length_fmap).
    unfold shape at 1. by rewrite length_fmap, Nat.sub_diag. }
  assert (∀ l a, a ∈ 0 :: L l → a < p) as Hvalid.
  { intros l a Ha. by eapply Inv_valid. }
  assert (∀ l a, a ∈ L l → a ≠ p) as Hnp.
  { intros l a Ha ->. assert (p < p); [|lia]. apply (Hvalid l). by right. }
  split.
  - done.
  - fold p. rewrite Hlen'. f_equal. unfold linked. rewrite decide_True by lia.
    pose proof (full_nodes _ _ HF) as Hn.
    rewrite <- (below_above T0 s cond (L 0)) in Hn. rewrite length_app in Hn.
    rewrite !length_app. simpl. lia.
  - intros x l. rewrite !(elem_of_linked compare_).
    destruct (decide (x = p)) as [->|Hne].
    + rewrite Hsp. split.
      * intros [[? _]|Hin]; [split; [left; split; [lia|done]|done]|].
        by apply Hnp in Hin.
      * intros [_ ?]. left. done.
    + destruct (decide (x < p)) as [Hlt|Hge].
      * destruct (shape_prefix s s' x Hpre Hlt) as [_ ->].
        rewrite (full_level _ _ HF x l). split.
        -- intros [[_ ?]|[? ?]]; [done|]. split; [by right|done].
        -- intros [[[_ ?]|?] ?]; [done|]. right. done.
      * split.
        -- intros [[_ ?]|Hin]; [done|]. exfalso. apply Hge, (Hvalid l). by right.
        -- intros [[[_ ?]|Hin] _]; [done|]. exfalso. apply Hge, (Hvalid 0). by right.
  - destruct (shape_prefix s s' 0 Hpre) as [_ ->]; [|apply (full_head _ _ HF)].
    pose proof (full_nodes _ _ HF) as Hn. lia.
  - intros x. rewrite (elem_of_linked compare_). rewrite Hh'.
    intros [[_ ->]|Hx]; [lia|].
    destruct (shape_prefix s s' x Hpre) as [_ ->].
    + apply (Hvalid 0). by right.
    + pose proof (full_slots _ _ HF x Hx). lia.
  - rewrite Hh'. destruct (decide (height_ s < level)) as [Hlt|Hge].
    + right. exists p. rewrite (elem_of_linked compare_). split; [left; split; [lia|done]|].
      rewrite Hsp. lia.
    + destruct (full_top _ _ HF) as [H1|(x & Hx & Hsx)].
      * left. lia.
      * right. exists x. rewrite (elem_of_linked compare_). split; [by right|].
        destruct (shape_prefix s s' x Hpre) as [_ ->]; [|lia].
        apply (Hvalid 0). by right.
Qed.

End SkipList_full.

Lemma NoDup_split_eq {A} (x : A) : ∀ l1 l2 k1 k2 : list A,
  NoDup (l1 ++ x :: l2) → l1 ++ x :: l2 = k1 ++ x :: k2 → l1 = k1 ∧ l2 = k2.
Proof.
  induction l1 as [|a l1 IH]; intros l2 k1 k2 Hnd Heq;
    destruct k1 as [|b k1]; simpl in *.
  - by injection Heq as ->.
  - injection Heq as <- Heq. apply NoDup_cons in Hnd as [Hx _].
    exfalso. apply Hx. rewrite Heq. apply elem_of_app. right. left.
  - injection Heq as -> Heq. apply NoDup_cons in Hnd as [Hx _].
    exfalso. apply Hx. apply elem_of_app. right. left.
  - injection Heq as -> Heq. apply NoDup_cons in Hnd as [_ Hnd].
    destruct (IH _ _ _ Hnd Heq) as [-> ->]. done.
Qed.

(** A list of [n] different numbers below [n] holds every number below
    [n]. *)
Lemma NoDup_all_below (l : list nat) n x :
  NoDup l → (∀ a, a ∈ l → a < n) → length l = n → x < n → x ∈ l.
Proof.
  intros Hnd Hlt Hlen Hx.
  assert (l ⊆+ seq 0 n) as Hsub.
  { apply NoDup_submseteq; [done|]. intros a Ha. apply elem_of_seq.
    specialize (Hlt a Ha). lia. }
  apply submseteq_length_Permutation in Hsub; [|rewrite length_seq; lia].
  rewrite Hsub. apply elem_of_seq. lia.
Qed.

Section SkipList_built.
Context {T : Type} (compare_ : T → T → bool) (T0 : T).
Implicit Types (s : @SkipList T) (x p l : nat) (k : T) (L : nat → list nat).

(** [s'] with levels [L'] holds the nodes of [s] with levels [L], where
    they were, and possibly more. *)
Definition Ext s L s' L' : Prop :=
  shape s `prefix_of` shape s' ∧ L 0 `sublist_of` L' 0 ∧
  height_ s ≤ height_ s'.

Lemma Ext_refl s L : Ext s L s L.
Proof. done. Qed.

Lemma Ext_trans s1 L1 s2 L2 s3 L3 :
  Ext s1 L1 s2 L2 → Ext s2 L2 s3 L3 → Ext s1 L1 s3 L3.
Proof.
  intros (H1 & H2 & H3) (H4 & H5 & H6).
  split; [by etrans|]. split; [by etrans|lia].
Qed.

Lemma Insert_Ext s L k :
  transitive compare_ → Full compare_ T0 s L →
  ∃ y s' L', Insert compare_ s k = Ok (Some y, s') ∧
    Full compare_ T0 s' L' ∧ Ext s L s' L'.
Proof.
  intros Ht HF.
  destruct (Insert_Full compare_ T0 s L k Ht HF)
    as [(y & B & _ & _ & Hins)|(_ & s' & Hins & HF' & Hsh & Hh)].
  - exists y, s, L. done.
  - eexists _, s', _. split; [done|]. split; [done|].
    split; [rewrite Hsh; by eexists|]. split; [|lia].
    unfold linked. pose proof (randomLevel_frame s) as (_ & _ & Hl).
    rewrite decide_True by lia.
    rewrite <- (below_above T0 s (λ k', compare_ k' k) (L 0)) at 1.
    apply sublist_app; [done|]. by apply sublist_cons.
Qed.

Lemma Full_Repr s L : Full compare_ T0 s L → Repr compare_ T0 s (keyOf T0 s <$> L 0).
Proof. intros HF. exists L. split; [apply HF|done]. Qed.

Lemma InsertAll_Full ks : ∀ s L,
  transitive compare_ → Full compare_ T0 s L →
  ∃ s' L', InsertAll compare_ s ks = Ok s' ∧
    Full compare_ T0 s' L' ∧ Ext s L s' L' ∧
    keyOf T0 s' <$> L' 0 = ref_insert_all compare_ (keyOf T0 s <$> L 0) ks.
Proof.
  intros s L Ht HF.
  assert (∃ s' L', InsertAll compare_ s ks = Ok s' ∧
            Full compare_ T0 s' L' ∧ Ext s L s' L') as (s' & L' & Hi & HF' & HE).
  { revert s L HF. induction ks as [|k ks IH]; intros s L HF; simpl.
    - by exists s, L.
    - destruct (Insert_Ext s L k Ht HF) as (y & s1 & L1 & -> & HF1 & HE1).
      rewrite bind_Ok. cbn beta iota.
      destruct (IH s1 L1 HF1) as (s' & L' & Hi & HF' & HE').
      exists s', L'. split; [done|]. split; [done|]. by eapply Ext_trans. }
  exists s', L'. split; [done|]. split; [done|]. split; [done|].
  destruct (InsertAll_Repr compare_ T0 ks s _ Ht (Full_Repr s L HF))
    as (s'' & Hi' & Hr).
  assert (s'' = s') as -> by congruence.
  apply (Repr_traverse compare_ T0) in Hr.
  pose proof (Repr_traverse compare_ T0 _ _ (Full_Repr s' L' HF')) as Hr'.
  congruence.
Qed.

Lemma InsertAll_new_Full gen ks :
  transitive compare_ →
  ∃ s L, InsertAll compare_ (SkipList_new T0 gen) ks = Ok s ∧
    Full compare_ T0 s L ∧
    keyOf T0 s <$> L 0 = ref_insert_all compare_ [] ks.
Proof.
  intros Ht.
  destruct (InsertAll_Full ks _ _ Ht (Full_new compare_ T0 gen))
    as (s & L & Hi & HF & _ & Hk).
  by exists s, L.
Qed.

(** Every node is the head or on level 0. *)
Lemma Full_all s L x :
  Full compare_ T0 s L → x < length (nodes s) → x ∈ 0 :: L 0.
Proof.
  intros HF Hx. pose proof (full_inv _ _ _ _ HF) as HI.
  apply (NoDup_all_below _ (length (nodes s))); [apply (inv_nodup _ _ _ _ HI)| | |done].
  - intros a Ha. by eapply Inv_valid.
  - simpl. apply (full_nodes _ _ _ _ HF).
Qed.

(** The level-0 pointers from a node of the list lead through the nodes
    after it. *)
Lemma chain_from s L x :
  Inv compare_ T0 s L → x ∈ 0 :: L 0 →
  ∃ A B, 0 :: L 0 = A ++ x :: B ∧ chain s 0 x B.
Proof.
  intros HI Hx. pose proof (inv_chain _ _ _ _ HI 0 ltac:(unfold MaxLevel; lia)) as Hc.
  apply list_elem_of_split in Hx as (A & B & HAB). exists A, B. split; [done|].
  destruct A as [|a A]; simpl in HAB; injection HAB as <- HAB.
  - by rewrite <- HAB.
  - rewrite HAB in Hc. replace (A ++ x :: B) with ((A ++ [x]) ++ B) in Hc
      by (by rewrite <- app_assoc).
    apply chain_app in Hc. by rewrite lastd_app in Hc.
Qed.

Lemma walk_from s L x A B :
  Inv compare_ T0 s L → 0 :: L 0 = A ++ x :: B → chain s 0 x B →
  walk (fuel_of s) s (Some x) = Ok (keyOf T0 s x :: (keyOf T0 s <$> B)).
Proof.
  intros HI HAB Hc. unfold fuel_of. cbn [walk star incr].
  assert (x < length (nodes s)) as Hx.
  { apply (Inv_valid compare_ T0 s L x 0 HI). rewrite HAB.
    apply elem_of_app. right. left. }
  apply lookup_lt_is_Some in Hx as [n Hn].
  unfold deref, keyOf. rewrite Hn, !bind_Ok. cbn [from_option].
  rewrite (chain_Next _ _ _ _ Hc), bind_Ok.
  rewrite (walk_chain compare_ T0 s B x); [done|done|].
  pose proof (inv_bound _ _ _ _ HI 0) as Hb.
  apply (f_equal length) in HAB. rewrite length_app in HAB. simpl in HAB. lia.
Qed.

Lemma star_valid s it e :
  star s it = Ok e → ∃ x, it = Some x ∧ x < length (nodes s) ∧ e = keyOf T0 s x.
Proof.
  destruct it as [x|]; [|done]. unfold star, deref.
  destruct (nodes s !! x) as [n|] eqn:Hn; [|done]. rewrite bind_Ok.
  intros [= <-]. exists x. split; [done|]. split.
  - by eapply lookup_lt_Some.
  - unfold keyOf. by rewrite Hn.
Qed.

End SkipList_built.

Section SkipList_uses.
Context {T : Type} (compare_ : T → T → bool) (T0 : T).
Implicit Types (s : @SkipList T) (x p l : nat) (k : T) (L : nat → list nat).

Lemma ref_insert_not_nil k ks : ref_insert compare_ k ks ≠ [].
Proof.
  destruct ks as [|k' ks]; simpl; [done|].
  destruct (compare_ k' k); [done|]. by destruct (compare_ k k').
Qed.

Lemma ref_insert_all_not_nil ks : ∀ acc,
  acc ≠ [] → ref_insert_all compare_ acc ks ≠ [].
Proof.
  induction ks as [|k ks IH]; intros acc Hacc; simpl; [done|].
  apply IH, ref_insert_not_nil.
Qed.

Lemma Begin_Full s L : Inv compare_ T0 s L → Begin s = Ok (head (L 0)).
Proof.
  intros HI. apply chain_Next, (inv_chain _ _ _ _ HI). unfold MaxLevel. lia.
Qed.

Lemma chain_elem_Next s l ps : ∀ x p,
  chain s l x ps → p ∈ ps → ∃ q, Next s p l = Ok q.
Proof.
  induction ps as [|a ps IH]; intros x p Hc Hp.
  - by apply not_elem_of_nil in Hp.
  - destruct Hc as [_ Hc]. apply elem_of_cons in Hp as [->|Hp].
    + eexists. by eapply chain_Next.
    + by eapply IH.
Qed.

Lemma delete_loop_chain s B : ∀ x deleted fuel,
  chain s 0 x B → NoDup (deleted ++ x :: B) → length B + 1 < fuel →
  delete_loop fuel s (Some x) deleted = Ok (deleted ++ x :: B).
Proof.
  induction B as [|b B IH]; intros x deleted fuel Hc Hnd Hf;
    (destruct fuel as [|fuel]; [lia|]); cbn [delete_loop].
  - rewrite decide_False.
    2:{ apply NoDup_app in Hnd as (_ & Hd & _). intros H. apply (Hd x H). left. }
    simpl in Hc. rewrite Hc, bind_Ok. destruct fuel; [simpl in Hf; lia|]. done.
  - rewrite decide_False.
    2:{ apply NoDup_app in Hnd as (_ & Hd & _). intros H. apply (Hd x H). left. }
    destruct Hc as [Hx Hc]. rewrite Hx, bind_Ok.
    rewrite (IH b (deleted ++ [x]) fuel Hc).
    + by rewrite <- app_assoc.
    + by rewrite <- app_assoc.
    + simpl in Hf. lia.
Qed.

End SkipList_uses.

(** X1. [Empty()] is true of a list into which nothing was inserted and
    false once a key was inserted, whatever was inserted after it. *)
Theorem Empty_iff_nothing_inserted :
  ∀ (T : Type) (compare_ : T → T → bool) (T0 : T) (gen : nat → nat)
    (ks : list T),
    transitive compare_ →
    ∃ s, InsertAll compare_ (SkipList_new T0 gen) ks = Ok s ∧
      Empty s = Ok (match ks with [] => true | _ :: _ => false end).
Proof.
  intros T compare_ T0 gen ks Ht.
  destruct (InsertAll_new_Full compare_ T0 gen ks Ht) as (s & L & Hi & HF & Hk).
  exists s. split; [done|]. unfold Empty.
  rewrite (Begin_Full compare_ T0 s L (full_inv _ _ _ _ HF)), bind_Ok.
  unfold Iterator_eq, End. destruct ks as [|k ks].
  - simpl in Hk. destruct (L 0); [done|discriminate].
  - destruct (L 0) as [|q r] eqn:E; [|done]. exfalso.
    simpl in Hk. symmetry in Hk. revert Hk.
    by apply ref_insert_all_not_nil.
Qed.

Lemma Empty_iff_nothing_inserted_witness :
  ∃ s, InsertAll Z.ltb (SkipList_new 0%Z (λ i, i mod 3)) [5; 3]%Z = Ok s ∧
    Empty s = Ok false.
Proof.
  apply (Empty_iff_nothing_inserted Z Z.ltb 0%Z (λ i, i mod 3) [5; 3]%Z).
  intros a b c. unfold lt. rewrite !Z.ltb_lt. lia.
Defined.

(** X2. An iterator into the list stays valid through every later
    insertion: it reads the same key, and moving on from it still leads to
    [End()], past every key it led past before. *)
Theorem Insert_keeps_iterators :
  ∀ (T : Type) (compare_ : T → T → bool) (T0 : T) (gen : nat → nat)
    (ks ks' : list T),
    transitive compare_ →
    ∃ s s', InsertAll compare_ (SkipList_new T0 gen) ks = Ok s ∧
      InsertAll compare_ s ks' = Ok s' ∧
      ∀ it e rest, walk (fuel_of s) s it = Ok (e :: rest) →
        star s' it = Ok e ∧
        ∃ rest', walk (fuel_of s') s' it = Ok (e :: rest') ∧
          rest `sublist_of` rest'.
Proof.
  intros T compare_ T0 gen ks ks' Ht.
  destruct (InsertAll_new_Full compare_ T0 gen ks Ht) as (s & L & Hi & HF & _).
  destruct (InsertAll_Full compare_ T0 ks' s L Ht HF)
    as (s' & L' & Hi' & HF' & (Hpre & Hsub & _) & _).
  exists s, s'. split; [done|]. split; [done|]. intros it e rest Hw.
  pose proof (full_inv _ _ _ _ HF) as HI. pose proof (full_inv _ _ _ _ HF') as HI'.
  destruct (walk_star _ _ _ _ _ Hw) as [_ Hst].
  destruct (star_valid T0 s it e Hst) as (x & -> & Hx & ->).
  pose proof (Full_all compare_ T0 s L x HF Hx) as Hin.
  destruct (chain_from compare_ T0 s L x HI Hin) as (A & B & HAB & Hc).
  rewrite (walk_from compare_ T0 s L x A B HI HAB Hc) in Hw.
  injection Hw as <-.
  assert (0 :: L 0 `sublist_of` 0 :: L' 0) as Hsub0 by (by apply sublist_skip).
  rewrite HAB in Hsub0.
  apply sublist_app_cons_l in Hsub0 as (k1 & k2 & Hk & _ & HB).
  assert (x ∈ 0 :: L' 0) as Hin'.
  { rewrite Hk. apply elem_of_app. right. left. }
  destruct (chain_from compare_ T0 s' L' x HI' Hin') as (A' & B' & HAB' & Hc').
  assert (B' = k2) as ->.
  { pose proof (inv_nodup _ _ _ _ HI' 0) as Hnd. rewrite HAB' in Hnd.
    rewrite HAB' in Hk. by destruct (NoDup_split_eq x _ _ _ _ Hnd Hk). }
  pose proof (walk_from compare_ T0 s' L' x A' k2 HI' HAB' Hc') as Hw'.
  destruct (shape_prefix T0 s s' x Hpre Hx) as [Hkx _]. rewrite Hkx in Hw'.
  split.
  - apply walk_star in Hw'. tauto.
  - eexists. split; [exact Hw'|].
    replace (keyOf T0 s <$> B) with (keyOf T0 s' <$> B).
    + by apply fmap_sublist.
    + apply list_fmap_ext. intros i q Hq.
      apply (shape_prefix T0 s s' q Hpre).
      apply (Inv_valid compare_ T0 s L q 0 HI). rewrite HAB.
      apply elem_of_app. right. right. by eapply list_elem_of_lookup_2.
Qed.

Lemma Insert_keeps_iterators_witness :
  ∃ s s', InsertAll Z.ltb (SkipList_new 0%Z (λ i, i mod 3)) [5; 3; 8]%Z = Ok s ∧
    InsertAll Z.ltb s [4; 9; 1]%Z = Ok s' ∧
    ∀ it e rest, walk (fuel_of s) s it = Ok (e :: rest) →
      star s' it = Ok e ∧
      ∃ rest', walk (fuel_of s') s' it = Ok (e :: rest') ∧
        rest `sublist_of` rest'.
Proof.
  apply (Insert_keeps_iterators Z Z.ltb 0%Z (λ i, i mod 3) [5; 3; 8]%Z
           [4; 9; 1]%Z).
  intros a b c. unfold lt. rewrite !Z.ltb_lt. lia.
Defined.

(** X3. The destructor deletes the head and every node that [Insert] made,
    each of them once and none after it was deleted; there is one node for
    every key of the traversal and none for a key that was equivalent to
    one already there. *)
Theorem destructor_deletes_every_node_once :
  ∀ (T : Type) (compare_ : T → T → bool) (T0 : T) (gen : nat → nat)
    (ks : list T),
    transitive compare_ →
    ∃ s l deleted, InsertAll compare_ (SkipList_new T0 gen) ks = Ok s ∧
      traverse s = Ok l ∧
      SkipList_delete s = Ok deleted ∧
      NoDup deleted ∧
      (∀ x, x ∈ deleted ↔ x < length (nodes s)) ∧
      length (nodes s) = S (length l).
Proof.
  intros T compare_ T0 gen ks Ht.
  destruct (InsertAll_new_Full compare_ T0 gen ks Ht) as (s & L & Hi & HF & _).
  pose proof (full_inv _ _ _ _ HF) as HI.
  pose proof (full_nodes _ _ _ _ HF) as Hn.
  exists s, (keyOf T0 s <$> L 0), (0 :: L 0). split; [done|].
  split; [apply (Repr_traverse compare_ T0), (Full_Repr compare_ T0 s L HF)|].
  split.
  - unfold SkipList_delete, head_.
    apply (delete_loop_chain s (L 0) 0 []).
    + apply (inv_chain _ _ _ _ HI). unfold MaxLevel. lia.
    + apply (inv_nodup _ _ _ _ HI).
    + unfold fuel_of. lia.
  - split; [apply (inv_nodup _ _ _ _ HI)|]. split.
    + intros x. split.
      * intros Hx. by eapply Inv_valid.
      * intros Hx. by eapply Full_all.
    + by rewrite length_fmap.
Qed.

Lemma destructor_deletes_every_node_once_witness :
  ∃ s l deleted,
    InsertAll Z.ltb (SkipList_new 0%Z (λ i, i mod 3)) [5; 3; 8; 3; 1]%Z = Ok s ∧
    traverse s = Ok l ∧
    SkipList_delete s = Ok deleted ∧
    NoDup deleted ∧
    (∀ x, x ∈ deleted ↔ x < length (nodes s)) ∧
    length (nodes s) = S (length l).
Proof.
  apply (destructor_deletes_every_node_once Z Z.ltb 0%Z (λ i, i mod 3)
           [5; 3; 8; 3; 1]%Z).
  intros a b c. unfold lt. rewrite !Z.ltb_lt. lia.
Defined.

(** X4. After any insertions [height_] is between 1 and [MaxLevel], the
    head has [MaxLevel] slots, every other node has between 1 and [height_]
    slots, [height_] is 1 or the number of slots of some node, every slot of
    every node has been stored to, and the slots of the head from [height_]
    on are null. *)
Theorem node_heights_within_height :
  ∀ (T : Type) (compare_ : T → T → bool) (T0 : T) (gen : nat → nat)
    (ks : list T),
    transitive compare_ →
    ∃ s, InsertAll compare_ (SkipList_new T0 gen) ks = Ok s ∧
      1 ≤ getHeight s ≤ MaxLevel ∧
      (∀ x n, nodes s !! x = Some n →
         Forall is_Some (forward n) ∧
         (x = head_ → length (forward n) = MaxLevel) ∧
         (x ≠ head_ → 1 ≤ length (forward n) ≤ getHeight s)) ∧
      (getHeight s = 1 ∨
       ∃ x n, x ≠ head_ ∧ nodes s !! x = Some n ∧
         length (forward n) = getHeight s) ∧
      (∀ l, getHeight s ≤ l < MaxLevel → Next s head_ l = Ok None).
Proof.
  intros T compare_ T0 gen ks Ht.
  destruct (InsertAll_new_Full compare_ T0 gen ks Ht) as (s & L & Hi & HF & _).
  pose proof (full_inv _ _ _ _ HF) as HI.
  exists s. split; [done|]. split; [apply (inv_height _ _ _ _ HI)|].
  unfold getHeight, head_.
  assert (∀ x n, nodes s !! x = Some n → slots s x = length (forward n)) as Hslots.
  { intros x n Hn. unfold slots. by rewrite Hn. }
  assert (∀ x, x ∈ L 0 → x ≠ 0) as Hne0.
  { intros x Hx ->. pose proof (inv_nodup _ _ _ _ HI 0) as Hnd.
    by apply NoDup_cons in Hnd as [? _]. }
  split; [|split].
  - intros x n Hn. pose proof (Hslots x n Hn) as Hsx.
    assert (x ∈ 0 :: L 0) as Hin.
    { apply (Full_all compare_ T0 s L x HF). by eapply lookup_lt_Some. }
    split; [|split].
    + apply Forall_lookup. intros l slot Hl.
      assert (l < slots s x) as Hlt by (rewrite Hsx; by eapply lookup_lt_Some).
      assert (∃ q, Next s x l = Ok q) as [q Hq].
      { apply elem_of_cons in Hin as [->|Hin].
        - rewrite (full_head _ _ _ _ HF) in Hlt. eexists.
          apply chain_Next, (inv_chain _ _ _ _ HI l Hlt).
        - pose proof (full_slots _ _ _ _ HF x Hin) as Hle.
          pose proof (inv_height _ _ _ _ HI) as Hh.
          apply (chain_elem_Next s l (L l) 0 x).
          + apply (inv_chain _ _ _ _ HI). lia.
          + apply (full_level _ _ _ _ HF). done. }
      unfold Next, deref in Hq. rewrite Hn, bind_Ok, Hl in Hq.
      destruct slot; [done|discriminate].
    + intros ->. rewrite <- Hsx. apply (full_head _ _ _ _ HF).
    + intros Hne. apply elem_of_cons in Hin as [->|Hin]; [done|].
      rewrite <- Hsx. split; [|apply (full_slots _ _ _ _ HF x Hin)].
      assert (x ∈ L 0 ∧ 0 < slots s x) as [_ ?]; [|lia].
      by apply (full_level _ _ _ _ HF).
  - destruct (full_top _ _ _ _ HF) as [?|(x & Hx & Hsx)]; [by left|right].
    assert (x < length (nodes s)) as Hlt.
    { apply (Inv_valid compare_ T0 s L x 0 HI). by right. }
    apply lookup_lt_is_Some in Hlt as [n Hn].
    exists x, n. split; [by apply Hne0|]. split; [done|].
    by rewrite <- (Hslots x n Hn).
  - intros l [Hl1 Hl2].
    pose proof (inv_chain _ _ _ _ HI l Hl2) as Hc.
    rewrite (inv_empty _ _ _ _ HI l Hl1) in Hc. exact Hc.
Qed.

Lemma node_heights_within_height_witness :
  ∃ s, InsertAll Z.ltb (SkipList_new 0%Z (λ i, i mod 3)) [5; 3; 8; 3; 1]%Z = Ok s ∧
    1 ≤ getHeight s ≤ MaxLevel ∧
    (∀ x n, nodes s !! x = Some n →
       Forall is_Some (forward n) ∧
       (x = head_ → length (forward n) = MaxLevel) ∧
       (x ≠ head_ → 1 ≤ length (forward n) ≤ getHeight s)) ∧
    (getHeight s = 1 ∨
     ∃ x n, x ≠ head_ ∧ nodes s !! x = Some n ∧
       length (forward n) = getHeight s) ∧
    (∀ l, getHeight s ≤ l < MaxLevel → Next s head_ l = Ok None).
Proof.
  apply (node_heights_within_height Z Z.ltb 0%Z (λ i, i mod 3)
           [5; 3; 8; 3; 1]%Z).
  intros a b c. unfold lt. rewrite !Z.ltb_lt. lia.
Defined.

(** The number of zeros that [g] starts with, counting no more than [n]
    of them. *)
Fixpoint zeros (g : nat → nat) (n : nat) : nat :=
  match n with
  | 0 => 0
  | S n' => if decide (g 0 = 0) then S (zeros (λ i, g (S i)) n') else 0
  end.

Lemma zeros_le g n : zeros g n ≤ n.
Proof.
  revert g. induction n as [|n IH]; intros g; simpl; [done|].
  destruct (decide (g 0 = 0)); [|lia]. specialize (IH (λ i, g (S i))). lia.
Qed.

Lemma randomLevel_loop_zeros {T} n : ∀ h (s : @SkipList T),
  h ≤ MaxLevel → MaxLevel - h ≤ n →
  let z := zeros (gen_ s) (MaxLevel - h) in
  ∃ s', randomLevel_loop n h s = (h + z, s') ∧
    nodes s' = nodes s ∧ height_ s' = height_ s ∧
    ∀ i, gen_ s' i = gen_ s ((MaxLevel - h) `min` S z + i).
Proof.
  induction n as [|n IH]; intros h s Hh Hn z; subst z.
  - assert (MaxLevel - h = 0) as -> by lia. simpl. exists s.
    rewrite Nat.add_0_r. done.
  - cbn [randomLevel_loop]. destruct (decide (h < MaxLevel)) as [Hlt|Hge].
    + destruct (MaxLevel - h) as [|m] eqn:Hm; [lia|].
      cbn [random zeros]. destruct (decide (gen_ s 0 = 0)) as [Hz|Hnz].
      * destruct (IH (S h) (mkSkipList (nodes s) (height_ s) (λ i, gen_ s (S i))))
          as (s' & Hr & Hnd & Hht & Hg); [lia|lia|].
        cbn [gen_ nodes height_] in Hr, Hnd, Hht, Hg.
        replace (MaxLevel - S h) with m in Hr, Hg by lia.
        exists s'. rewrite Hr. split; [f_equal; lia|]. split; [done|].
        split; [done|]. intros i. rewrite Hg. f_equal; lia.
      * eexists. split; [by rewrite Nat.add_0_r|]. split; [done|].
        split; [done|]. intros i. cbn [gen_]. f_equal; lia.
    + assert (MaxLevel - h = 0) as -> by lia. simpl. exists s.
      rewrite Nat.add_0_r. done.
Qed.

(** X5. [randomLevel] returns one more than the number of zeros that the
    random numbers start with, and [MaxLevel] when the first [MaxLevel - 1]
    of them are zero; it draws the zeros it counts and the number that ends
    them, and none after [MaxLevel - 1] zeros. *)
Theorem randomLevel_counts_zeros :
  ∀ (T : Type) (s : @SkipList T),
    let z := zeros (gen_ s) (MaxLevel - 1) in
    ∃ s', randomLevel s = (S z, s') ∧
      1 ≤ S z ≤ MaxLevel ∧
      nodes s' = nodes s ∧ height_ s' = height_ s ∧
      ∀ i, gen_ s' i = gen_ s ((MaxLevel - 1) `min` S z + i).
Proof.
  intros T s z.
  destruct (randomLevel_loop_zeros MaxLevel 1 s) as (s' & Hr & Hn & Hh & Hg);
    [unfold MaxLevel; lia|lia|].
  exists s'. split; [exact Hr|]. split; [|done].
  pose proof (zeros_le (gen_ s) (MaxLevel - 1)). unfold MaxLevel in *.
  subst z. lia.
Qed.

Section SkipList_searches.
Context {T : Type} (compare_ : T → T → bool) (T0 : T).
Implicit Types (s : @SkipList T) (x p l : nat) (k : T) (L : nat → list nat).

Lemma LowerBound_ok s L k :
  transitive compare_ → Inv compare_ T0 s L →
  LowerBound compare_ s k
    = Ok (head (above T0 s (λ k', compare_ k' k) (L 0))).
Proof.
  intros Ht HI. pose proof (inv_height _ _ _ _ HI) as Hh.
  unfold LowerBound, getHeight, head_.
  pose proof (Bound_search_ok compare_ T0 s L (λ k', compare_ k' k) (height_ s)
                HI (downward_lower compare_ k Ht) ltac:(lia)) as Hb.
  by rewrite (pred_top compare_ T0 s L _ (height_ s) HI) in Hb by lia.
Qed.

Lemma UpperBound_ok s L k :
  transitive compare_ → Inv compare_ T0 s L →
  UpperBound compare_ s k
    = Ok (head (above T0 s (λ k', negb (compare_ k k')) (L 0))).
Proof.
  intros Ht HI. pose proof (inv_height _ _ _ _ HI) as Hh.
  unfold UpperBound, getHeight, head_.
  pose proof (Bound_search_ok compare_ T0 s L (λ k', negb (compare_ k k'))
                (height_ s) HI (downward_upper compare_ k Ht) ltac:(lia)) as Hb.
  by rewrite (pred_top compare_ T0 s L _ (height_ s) HI) in Hb by lia.
Qed.

Lemma star_node s L y :
  Inv compare_ T0 s L → y ∈ L 0 → star s (Some y) = Ok (keyOf T0 s y).
Proof.
  intros HI Hy. destruct (deref_valid compare_ T0 s L y 0 HI Hy) as (n & Hn & Hk).
  unfold star. by rewrite Hn, bind_Ok, Hk.
Qed.

Lemma asym a b :
  strict_weak_order compare_ → compare_ a b = true → compare_ b a = false.
Proof.
  intros Hs Hab. destruct (compare_ b a) eqn:E; [|done].
  pose proof (swo_trans _ Hs a b a Hab E) as H. unfold lt in H.
  by rewrite (swo_irrefl _ Hs) in H.
Qed.

(** [k] is less than whatever is greater than a key equivalent to it. *)
Lemma equiv_lt k e b :
  strict_weak_order compare_ →
  equiv compare_ e k → compare_ e b = true → compare_ k b = true.
Proof.
  intros Hs [Hek Hke] Heb. destruct (compare_ k b) eqn:Hkb; [done|].
  destruct (compare_ b k) eqn:Hbk.
  - pose proof (swo_trans _ Hs e b k Heb Hbk) as H. unfold lt in H. congruence.
  - destruct (swo_equiv _ Hs e k b) as [H _]; [done|done|congruence].
Qed.

Lemma ref_insert_sorted k ks :
  transitive compare_ → StronglySorted (lt compare_) ks →
  StronglySorted (lt compare_) (ref_insert compare_ k ks).
Proof.
  intros Ht. induction ks as [|k' ks IH]; intros Hsd; simpl.
  - repeat constructor.
  - apply StronglySorted_cons in Hsd as [Hall Hsd].
    destruct (compare_ k' k) eqn:E1; [|destruct (compare_ k k') eqn:E2].
    + apply StronglySorted_cons. split; [|by apply IH].
      apply Forall_forall. intros e He.
      apply ref_insert_elem in He as [->|He]; [done|].
      rewrite Forall_forall in Hall. by apply Hall.
    + apply StronglySorted_cons. split; [|by apply StronglySorted_cons].
      constructor; [done|]. eapply Forall_impl; [exact Hall|].
      intros a Ha. exact (Ht _ _ _ E2 Ha).
    + by apply StronglySorted_cons.
Qed.

(** What [ref_insert] adds is [k], and only where nothing equivalent to it
    is there. *)
Lemma ref_insert_new k ks e :
  transitive compare_ → StronglySorted (lt compare_) ks →
  e ∈ ref_insert compare_ k ks →
  e ∈ ks ∨ (e = k ∧ ∀ a, a ∈ ks → ¬ equiv compare_ a k).
Proof.
  intros Ht. induction ks as [|k' ks IH]; intros Hsd; simpl.
  - intros ->%list_elem_of_singleton. right. split; [done|].
    by intros a ?%not_elem_of_nil.
  - apply StronglySorted_cons in Hsd as [Hall Hsd]. rewrite Forall_forall in Hall.
    destruct (compare_ k' k) eqn:E1; [|destruct (compare_ k k') eqn:E2].
    + intros [->|He]%elem_of_cons; [left; left|].
      destruct (IH Hsd He) as [?|[-> Hno]]; [left; by right|right].
      split; [done|]. intros a [->|Ha]%elem_of_cons; [|by apply Hno].
      intros [? _]. congruence.
    + intros [->|He]%elem_of_cons; [right|by left].
      split; [done|]. intros a [->|Ha]%elem_of_cons.
      * intros [_ ?]. congruence.
      * intros [_ Hka]. pose proof (Ht _ _ _ E2 (Hall a Ha)) as H.
        unfold lt in H. congruence.
    + by left.
Qed.

Lemma ref_insert_all_first ks : ∀ acc done,
  strict_weak_order compare_ → StronglySorted (lt compare_) acc →
  (∀ e, e ∈ acc → ∃ pre post, done = pre ++ e :: post ∧
     ∀ k', k' ∈ pre → ¬ equiv compare_ k' e) →
  (∀ k', k' ∈ done → ∃ e, e ∈ acc ∧ equiv compare_ e k') →
  ∀ e, e ∈ ref_insert_all compare_ acc ks →
    ∃ pre post, done ++ ks = pre ++ e :: post ∧
      ∀ k', k' ∈ pre → ¬ equiv compare_ k' e.
Proof.
  induction ks as [|k ks IH]; intros acc done Hs Hsd HP HQ e He; simpl in He.
  - rewrite app_nil_r. by apply HP.
  - pose proof (swo_trans _ Hs) as Ht.
    replace (done ++ k :: ks) with ((done ++ [k]) ++ ks)
      by (by rewrite <- app_assoc).
    apply (IH (ref_insert compare_ k acc)); [done|by apply ref_insert_sorted| | |done].
    + intros a Ha. destruct (ref_insert_new k acc a Ht Hsd Ha) as [Hin|[-> Hno]].
      * destruct (HP a Hin) as (pre & post & -> & Hpre).
        exists pre, (post ++ [k]). split; [by rewrite <- app_assoc|done].
      * exists done, []. split; [done|]. intros k' Hk' Heq.
        destruct (HQ k' Hk') as (a & Ha' & Hak').
        apply (Hno a Ha'). by apply (swo_equiv _ Hs a k' k).
    + intros k' [Hk'|Hk']%elem_of_app;
        [|apply list_elem_of_singleton in Hk' as ->].
      * destruct (HQ k' Hk') as (a & Ha & Hak).
        exists a. split; [by apply ref_insert_keeps|done].
      * by apply ref_insert_has.
Qed.

End SkipList_searches.

(** X6. [Insert(k)] returns an iterator to a node whose key is equivalent
    to [k], and [Find(k)] and [LowerBound(k)] after it return that same
    iterator. When [Find(k)] was [End()] before, the node is a new one and
    holds [k] itself; otherwise [Find(k)] returned that iterator before and
    the list is as it was. *)
Theorem Insert_then_Find :
  ∀ (T : Type) (compare_ : T → T → bool) (T0 : T) (gen : nat → nat)
    (ks : list T) (k : T),
    strict_weak_order compare_ →
    ∃ s it s' e, InsertAll compare_ (SkipList_new T0 gen) ks = Ok s ∧
      Insert compare_ s k = Ok (it, s') ∧
      it ≠ End ∧ star s' it = Ok e ∧ equiv compare_ e k ∧
      Find compare_ s' k = Ok it ∧ LowerBound compare_ s' k = Ok it ∧
      ((Find compare_ s k = Ok End ∧ e = k ∧ it = Some (length (nodes s))) ∨
       (Find compare_ s k = Ok it ∧ s' = s)).
Proof.
  intros T compare_ T0 gen ks k Hs. pose proof (swo_trans _ Hs) as Ht.
  destruct (InsertAll_new_Full compare_ T0 gen ks Ht) as (s & L & Hi & HF & _).
  pose proof (full_inv _ _ _ _ HF) as HI.
  set (cond := λ k', compare_ k' k).
  pose proof (downward_lower compare_ k Ht) as Hd. fold cond in Hd.
  pose proof (Find_ok compare_ T0 s L k HI Hd) as Hfind. fold cond in Hfind.
  destruct (Insert_Full compare_ T0 s L k Ht HF)
    as [(y & B & Hab & Heq & Hins)|(Hab & s' & Hins & HF' & Hsh & _)];
    fold cond in Hab; try fold cond in HF'.
  - unfold keyEq in Heq. apply andb_true_iff in Heq as [Hyk Hky].
    apply negb_true_iff in Hyk, Hky.
    assert (y ∈ L 0) as Hy.
    { rewrite <- (below_above T0 s cond (L 0)), Hab. apply elem_of_app.
      right. left. }
    rewrite Hab in Hfind. simpl in Hfind. rewrite Hky in Hfind.
    exists s, (Some y), s, (keyOf T0 s y). split; [done|]. split; [done|].
    split; [done|]. split; [by eapply star_node|]. split; [done|].
    split; [done|]. split; [|by right].
    rewrite (LowerBound_ok compare_ T0 s L k Ht HI). fold cond. by rewrite Hab.
  - pose proof (full_inv _ _ _ _ HF') as HI'.
    pose proof (randomLevel_frame s) as (_ & _ & Hlev).
    set (level := (randomLevel s).1) in *.
    destruct (shape_snoc T0 s s' k level Hsh) as (Hlen' & Hkp & Hkq).
    set (p := length (nodes s)) in *.
    assert (linked T0 s L cond p level 0
            = below T0 s cond (L 0) ++ p :: above T0 s cond (L 0)) as HL'.
    { unfold linked. by rewrite decide_True by lia. }
    assert (above T0 s' cond (below T0 s cond (L 0) ++ p :: above T0 s cond (L 0))
            = p :: above T0 s cond (L 0)) as Hab'.
    { apply below_above_app.
      - pose proof (below_Forall T0 s cond (L 0)) as Hb.
        rewrite Forall_forall in Hb. apply Forall_forall. intros a Ha.
        rewrite Hkq; [by apply Hb|].
        apply (Inv_valid compare_ T0 s L a 0 HI). right.
        rewrite <- (below_above T0 s cond (L 0)). apply elem_of_app. by left.
      - intros b [= <-]. unfold cond. rewrite Hkp. apply (swo_irrefl _ Hs). }
    exists s, (Some p), s', k. split; [done|]. split; [done|]. split; [done|].
    split.
    { rewrite <- Hkp. apply (star_node compare_ T0 s' _ p HI').
      rewrite HL'. apply elem_of_app. right. left. }
    split; [split; apply (swo_irrefl _ Hs)|].
    split; [|split].
    + rewrite (Find_ok compare_ T0 s' _ k HI' Hd). fold cond.
      rewrite HL', Hab'. simpl. rewrite Hkp.
      by rewrite (swo_irrefl _ Hs).
    + rewrite (LowerBound_ok compare_ T0 s' _ k Ht HI'). fold cond.
      by rewrite HL', Hab'.
    + left. split; [|done]. rewrite Hfind.
      destruct (above T0 s cond (L 0)) as [|b B]; [done|]. simpl.
      apply Forall_inv in Hab. unfold lt in Hab. by rewrite Hab.
Qed.

Lemma Insert_then_Find_witness :
  ∃ s it s' e,
    InsertAll Z.ltb (SkipList_new 0%Z (λ i, i mod 3)) [5; 3; 8]%Z = Ok s ∧
    Insert Z.ltb s 4%Z = Ok (it, s') ∧
    it ≠ End ∧ star s' it = Ok e ∧ equiv Z.ltb e 4%Z ∧
    Find Z.ltb s' 4%Z = Ok it ∧ LowerBound Z.ltb s' 4%Z = Ok it ∧
    ((Find Z.ltb s 4%Z = Ok End ∧ e = 4%Z ∧ it = Some (length (nodes s))) ∨
     (Find Z.ltb s 4%Z = Ok it ∧ s' = s)).
Proof.
  apply (Insert_then_Find Z Z.ltb 0%Z (λ i, i mod 3) [5; 3; 8]%Z 4%Z).
  split.
  - intros a. apply Z.ltb_irrefl.
  - intros a b c. unfold lt. rewrite !Z.ltb_lt. lia.
  - intros a b c. unfold equiv. rewrite !Z.ltb_ge. lia.
Defined.

(** X7. [LowerBound(k)], [UpperBound(k)] and [Find(k)] agree: when no
    stored key is equivalent to [k], [Find(k)] is [End()] and the two
    bounds are the same iterator; otherwise [Find(k)] is [LowerBound(k)],
    which is not [End()], and [UpperBound(k)] is the iterator after it. *)
Theorem Find_is_LowerBound_before_UpperBound :
  ∀ (T : Type) (compare_ : T → T → bool) (T0 : T) (gen : nat → nat)
    (ks : list T) (k : T),
    strict_weak_order compare_ →
    ∃ s lo hi f, InsertAll compare_ (SkipList_new T0 gen) ks = Ok s ∧
      LowerBound compare_ s k = Ok lo ∧
      UpperBound compare_ s k = Ok hi ∧
      Find compare_ s k = Ok f ∧
      ((f = End ∧ hi = lo) ∨
       (f ≠ End ∧ f = lo ∧ incr s lo = Ok hi ∧ hi ≠ lo)).
Proof.
  intros T compare_ T0 gen ks k Hs. pose proof (swo_trans _ Hs) as Ht.
  destruct (InsertAll_new_Full compare_ T0 gen ks Ht) as (s & L & Hi & HF & _).
  pose proof (full_inv _ _ _ _ HF) as HI.
  set (lower := λ k', compare_ k' k). set (upper := λ k', negb (compare_ k k')).
  pose proof (downward_lower compare_ k Ht) as Hd. fold lower in Hd.
  pose proof (Find_ok compare_ T0 s L k HI Hd) as Hfind. fold lower in Hfind.
  pose proof (LowerBound_ok compare_ T0 s L k Ht HI) as Hlo. fold lower in Hlo.
  pose proof (UpperBound_ok compare_ T0 s L k Ht HI) as Hhi. fold upper in Hhi.
  destruct (split_at_pred compare_ T0 s L lower 0 HI Hd) as [(HL & HA & HB & _) _];
    [unfold MaxLevel; lia|].
  set (A := below T0 s lower (L 0)) in *.
  assert (Forall (λ a, upper (keyOf T0 s a) = true) A) as HAu.
  { eapply Forall_impl; [exact HA|]. intros a Ha. unfold upper, lower in *.
    by rewrite (asym compare_ _ _ Hs Ha). }
  pose proof (inv_sorted _ _ _ _ HI 0) as Hsd.
  pose proof (inv_nodup _ _ _ _ HI 0) as Hnd.
  pose proof (inv_chain _ _ _ _ HI 0 ltac:(unfold MaxLevel; lia)) as Hc.
  exists s. rewrite Hlo, Hhi, Hfind. eexists _, _, _. split; [done|].
  split; [done|]. split; [done|]. split; [done|].
  destruct (above T0 s lower (L 0)) as [|y B] eqn:E; cbn [head].
  - left. split; [done|]. rewrite HL.
    by destruct (below_above_app T0 s upper A [] HAu) as [_ ->].
  - apply Forall_cons in HB as [Hyk HB]. unfold lower in Hyk.
    destruct (compare_ k (keyOf T0 s y)) eqn:Hky.
    + left. split; [done|]. rewrite HL.
      destruct (below_above_app T0 s upper A (y :: B) HAu) as [_ ->]; [|done].
      intros b [= <-]. unfold upper. by rewrite Hky.
    + right. split; [done|]. split; [done|].
      assert (above T0 s upper (L 0) = B) as ->.
      { rewrite HL. replace (A ++ y :: B) with ((A ++ [y]) ++ B)
          by (by rewrite <- app_assoc).
        apply below_above_app.
        - apply Forall_app. split; [done|]. constructor; [|done].
          unfold upper. by rewrite Hky.
        - intros b Hb. unfold upper. apply negb_false_iff.
          apply (equiv_lt compare_ k (keyOf T0 s y) (keyOf T0 s b) Hs); [done|].
          rewrite HL, fmap_app in Hsd. apply StronglySorted_app_1_r in Hsd.
          rewrite fmap_cons in Hsd. apply StronglySorted_cons in Hsd as [Hall _].
          rewrite Forall_fmap, Forall_forall in Hall. apply Hall.
          destruct B; simplify_eq/=. left. }
      split.
      * rewrite HL in Hc. replace (A ++ y :: B) with ((A ++ [y]) ++ B) in Hc
          by (by rewrite <- app_assoc).
        apply chain_app in Hc. rewrite lastd_app in Hc. simpl in Hc.
        cbn [incr]. by apply chain_Next.
      * intros Heq. rewrite HL in Hnd.
        apply NoDup_cons in Hnd as [_ Hnd].
        apply NoDup_app in Hnd as (_ & _ & Hnd).
        apply NoDup_cons in Hnd as [Hy _]. apply Hy.
        destruct B; simplify_eq/=. left.
Qed.

Lemma Find_is_LowerBound_before_UpperBound_witness :
  ∃ s lo hi f,
    InsertAll Z.ltb (SkipList_new 0%Z (λ i, i mod 3)) [5; 3; 8; 3; 1]%Z = Ok s ∧
    LowerBound Z.ltb s 5%Z = Ok lo ∧
    UpperBound Z.ltb s 5%Z = Ok hi ∧
    Find Z.ltb s 5%Z = Ok f ∧
    ((f = End ∧ hi = lo) ∨
     (f ≠ End ∧ f = lo ∧ incr s lo = Ok hi ∧ hi ≠ lo)).
Proof.
  apply (Find_is_LowerBound_before_UpperBound Z Z.ltb 0%Z (λ i, i mod 3)
           [5; 3; 8; 3; 1]%Z 5%Z).
  split.
  - intros a. apply Z.ltb_irrefl.
  - intros a b c. unfold lt. rewrite !Z.ltb_lt. lia.
  - intros a b c. unfold equiv. rewrite !Z.ltb_ge. lia.
Defined.

(** X8. Of the inserted keys that are equivalent to one another the list
    keeps the one inserted first: a key of the traversal was inserted, and
    no key equivalent to it was inserted before it. *)
Theorem first_inserted_key_is_kept :
  ∀ (T : Type) (compare_ : T → T → bool) (T0 : T) (gen : nat → nat)
    (ks : list T),
    strict_weak_order compare_ →
    ∃ s l, InsertAll compare_ (SkipList_new T0 gen) ks = Ok s ∧
      traverse s = Ok l ∧
      ∀ e, e ∈ l →
        ∃ pre post, ks = pre ++ e :: post ∧
          ∀ k', k' ∈ pre → ¬ equiv compare_ k' e.
Proof.
  intros T compare_ T0 gen ks Hs.
  destruct (InsertAll_new_Repr compare_ T0 gen ks Hs) as (s & Hi & Hr).
  exists s, (ref_insert_all compare_ [] ks). split; [done|].
  split; [by eapply Repr_traverse|]. intros e He.
  apply (ref_insert_all_first compare_ ks [] [] Hs); [constructor| | |done].
  - by intros a ?%not_elem_of_nil.
  - by intros a ?%not_elem_of_nil.
Qed.

Lemma first_inserted_key_is_kept_witness :
  let cmp := λ a b : Z * Z, (a.1 <? b.1)%Z in
  ∃ s l,
    InsertAll cmp (SkipList_new (0, 0)%Z (λ i, i mod 3))
      [(5, 1); (3, 2); (5, 3); (3, 4)]%Z = Ok s ∧
    traverse s = Ok l ∧
    ∀ e, e ∈ l →
      ∃ pre post, [(5, 1); (3, 2); (5, 3); (3, 4)]%Z = pre ++ e :: post ∧
        ∀ k', k' ∈ pre → ¬ equiv cmp k' e.
Proof.
  intros cmp.
  apply (first_inserted_key_is_kept (Z * Z) cmp (0, 0)%Z (λ i, i mod 3)
           [(5, 1); (3, 2); (5, 3); (3, 4)]%Z).
  split.
  - intros a. apply Z.ltb_irrefl.
  - intros a b c. unfold lt, cmp. rewrite !Z.ltb_lt. lia.
  - intros a b c. unfold equiv, cmp. rewrite !Z.ltb_ge. lia.
Defined.

(** X18. The heights that [randomLevel] draws decide how fast a search is
    and nothing else: whatever the random numbers, the same insertions give
    the same traversal, node for node. *)
Theorem traversal_independent_of_random_heights :
  ∀ (T : Type) (compare_ : T → T → bool) (T0 : T) (gen gen' : nat → nat)
    (ks : list T),
    transitive compare_ →
    ∃ s s' l, InsertAll compare_ (SkipList_new T0 gen) ks = Ok s ∧
      InsertAll compare_ (SkipList_new T0 gen') ks = Ok s' ∧
      traverse s = Ok l ∧ traverse s' = Ok l ∧
      key <$> nodes s = key <$> nodes s'.
Proof.
  intros T compare_ T0 gen gen' ks Ht.
  assert (∀ g, ∃ s, InsertAll compare_ (SkipList_new T0 g) ks = Ok s ∧
            traverse s = Ok (ref_insert_all compare_ [] ks)) as Hany.
  { intros g.
    destruct (InsertAll_new_Full compare_ T0 g ks Ht) as (s & L & Hi & HF & Hk).
    exists s. split; [done|]. rewrite <- Hk.
    apply (Repr_traverse compare_ T0), (Full_Repr compare_ T0 s L HF). }
  destruct (Hany gen) as (s & Hi & Htr). destruct (Hany gen') as (s' & Hi' & Htr').
  exists s, s', (ref_insert_all compare_ [] ks).
  split; [done|]. split; [done|]. split; [done|]. split; [done|].
  clear Hany Htr Htr'.
  assert (key <$> nodes (SkipList_new T0 gen)
          = key <$> nodes (SkipList_new T0 gen')) as H0 by done.
  assert (traverse (SkipList_new T0 gen) = traverse (SkipList_new T0 gen'))
    as Ht0 by done.
  revert Hi Hi' H0.
  assert (∃ L, Full compare_ T0 (SkipList_new T0 gen) L) as HF
    by (eexists; apply Full_new).
  assert (∃ L, Full compare_ T0 (SkipList_new T0 gen') L) as HF'
    by (eexists; apply Full_new).
  revert HF HF' Ht0.
  generalize (SkipList_new T0 gen) (SkipList_new T0 gen').
  induction ks as [|k ks IH]; intros a a' [L HF] [L' HF'] Ht0; simpl.
  - by intros [= <-] [= <-].
  - pose proof (Repr_traverse compare_ T0 _ _ (Full_Repr compare_ T0 a L HF)) as Ha.
    pose proof (Repr_traverse compare_ T0 _ _ (Full_Repr compare_ T0 a' L' HF')) as Ha'.
    assert (keyOf T0 a <$> L 0 = keyOf T0 a' <$> L' 0) as Hkeys by congruence.
    destruct (Insert_Full compare_ T0 a L k Ht HF)
      as [(y & B & Hab & Heq & Hins)|(Hab & a1 & Hins & HF1 & Hsh & _)];
    destruct (Insert_Full compare_ T0 a' L' k Ht HF')
      as [(y' & B' & Hab' & Heq' & Hins')|(Hab' & a1' & Hins' & HF1' & Hsh' & _)];
    rewrite Hins, Hins', !bind_Ok; cbn beta iota.
    + intros Hi Hi' H0. by apply (IH a a'); eauto.
    + exfalso.
      pose proof (f_equal (drop_while (λ k', compare_ k' k)) Hkeys) as Hd.
      rewrite <- !fmap_above, Hab in Hd.
      destruct (above T0 a' _ (L' 0)) as [|b B'] eqn:E; [done|].
      simpl in Hd. injection Hd as Hd _.
      apply Forall_inv in Hab'. unfold lt in Hab'. rewrite <- Hd in Hab'.
      unfold keyEq in Heq. rewrite Hab' in Heq.
      by rewrite andb_false_r in Heq.
    + exfalso.
      pose proof (f_equal (drop_while (λ k', compare_ k' k)) Hkeys) as Hd.
      rewrite <- !fmap_above, Hab' in Hd.
      destruct (above T0 a _ (L 0)) as [|b B] eqn:E; [done|].
      simpl in Hd. injection Hd as Hd _.
      apply Forall_inv in Hab. unfold lt in Hab. rewrite Hd in Hab.
      unfold keyEq in Heq'. rewrite Hab in Heq'.
      by rewrite andb_false_r in Heq'.
    + intros Hi Hi' H0.
      apply (IH a1 a1'); [by eexists|by eexists| |done|done|].
      * rewrite (Repr_traverse compare_ T0 _ _ (Full_Repr compare_ T0 a1 _ HF1)).
        rewrite (Repr_traverse compare_ T0 _ _ (Full_Repr compare_ T0 a1' _ HF1')).
        f_equal.
        pose proof (randomLevel_frame a) as (_ & _ & Hl).
        pose proof (randomLevel_frame a') as (_ & _ & Hl').
        rewrite (fmap_linked compare_ T0 a a1 L _ k _ _ 0 (full_inv _ _ _ _ HF)
                   eq_refl Hsh) by lia.
        rewrite (fmap_linked compare_ T0 a' a1' L' _ k _ _ 0 (full_inv _ _ _ _ HF')
                   eq_refl Hsh') by lia.
        rewrite !fmap_above, !fmap_below. by rewrite Hkeys.
      * assert (∀ (u : @SkipList T), key <$> nodes u = fst <$> shape u) as Hfst.
        { intros u. unfold shape. rewrite <- list_fmap_compose.
          by apply list_fmap_ext. }
        rewrite !Hfst, Hsh, Hsh', !fmap_app, <- !Hfst. by rewrite H0.
Qed.

Lemma traversal_independent_of_random_heights_witness :
  ∃ s s' l,
    InsertAll Z.ltb (SkipList_new 0%Z (λ i, i mod 3)) [5; 3; 8; 3; 1]%Z = Ok s ∧
    InsertAll Z.ltb (SkipList_new 0%Z (λ i, 0)) [5; 3; 8; 3; 1]%Z = Ok s' ∧
    traverse s = Ok l ∧ traverse s' = Ok l ∧
    key <$> nodes s = key <$> nodes s'.
Proof.
  apply (traversal_independent_of_random_heights Z Z.ltb 0%Z (λ i, i mod 3)
           (λ i, 0) [5; 3; 8; 3; 1]%Z).
  intros a b c. unfold lt. rewrite !Z.ltb_lt. lia.
Defined.

(** ** The stores of [Insert], one by one *)

Section SkipList_stores.
Context {T : Type}.
Variable compare_ : T → T → bool.

(** The second loop of [Insert] with [n] rounds left, as [Insert_link],
    giving the list after each of its stores, in the order of the stores:
    [x->NoSyncSetNext(...)] and [update[i]->SetNext(x, i)] in every
    round. *)
Fixpoint Insert_link_stores (n : nat) (i : nat) (update : list (option nat))
    (x : nat) (s : @SkipList T) : res (list SkipList) :=
  match n with
  | 0 => Ok []
  | S n' =>
      u ← array_get update i;
      nxt ← NoSyncNext s u i;
      s1 ← NoSyncSetNext s x nxt i;
      s2 ← SetNext s1 u (Some x) i;
      rest ← Insert_link_stores n' (S i) update x s2;
      Ok (s1 :: s2 :: rest)
  end.

(** [Insert] from [int level = randomLevel();] on, as [Insert_new], giving
    the list after [height_.store(level)] (as it was, if that is not
    reached), after [Node::Make] and after each store of the loop. *)
Definition Insert_new_stores (s : SkipList) (k : T)
    (update : list (option nat)) : res (list SkipList) :=
  let '(level, s) := randomLevel s in
  '(update, s) ←
    (if decide (getHeight s < level) then
       update' ← Insert_raise (level - getHeight s) (getHeight s) update;
       Ok (update', mkSkipList (nodes s) level (gen_ s))
     else Ok (update, s));
  let '(x, s') := Make s k level in
  rest ← Insert_link_stores level 0 update x s';
  Ok (s :: s' :: rest).

(** [Insert], as the definition of that name, giving the lists it leaves
    in memory one after the other; none if it finds the key. *)
Definition Insert_stores (s : SkipList) (k : T) : res (list SkipList) :=
  '(x, update) ← Insert_search compare_ s k (getHeight s) head_
                   (replicate MaxLevel None);
  x ← Next s x 0;
  found ← match x with
          | Some y => n ← deref s y; Ok (keyEq compare_ k (key n))
          | None => Ok false
          end;
  if (found : bool) then Ok []
  else
    f ← Find compare_ s k;
    _ ← assert (bool_decide (f = End));
    Insert_new_stores s k update.

(** The last of the stores leaves what [Insert_link] returns. *)
Lemma Insert_link_stores_last n : ∀ i update x s sf,
  Insert_link n i update x s = Ok sf →
  ∃ tr, Insert_link_stores n i update x s = Ok tr ∧ last (s :: tr) = Some sf.
Proof.
  induction n as [|n IH]; intros i update x s sf; cbn [Insert_link Insert_link_stores].
  - intros [= <-]. by exists [].
  - destruct (array_get update i) as [u|]; [|done]. rewrite !bind_Ok.
    destruct (NoSyncNext s u i) as [nxt|]; [|done]. rewrite !bind_Ok.
    destruct (NoSyncSetNext s x nxt i) as [s1|]; [|done]. rewrite !bind_Ok.
    destruct (SetNext s1 u (Some x) i) as [s2|]; [|done]. rewrite !bind_Ok.
    intros H. destruct (IH _ _ _ _ _ H) as (tr & -> & Hl).
    rewrite bind_Ok. eexists. split; [done|].
    by rewrite !last_cons_cons in *.
Qed.

Lemma Insert_stores_last s k it s' :
  Insert compare_ s k = Ok (it, s') →
  ∃ tr, Insert_stores s k = Ok tr ∧ last (s :: tr) = Some s'.
Proof.
  unfold Insert, Insert_stores.
  destruct (Insert_search _ _ _ _ _ _) as [[x update]|]; [|done].
  rewrite !bind_Ok. cbn beta iota.
  destruct (Next s x 0) as [y|]; [|done]. rewrite !bind_Ok.
  destruct (match y with Some y0 => _ | None => _ end) as [found|]; [|done].
  rewrite !bind_Ok. destruct found; [intros [= <- <-]; by exists []|].
  destruct (Find compare_ s k) as [f|]; [|done]. rewrite !bind_Ok.
  destruct (assert _) as [[]|]; [|done]. rewrite !bind_Ok.
  unfold Insert_new, Insert_new_stores.
  destruct (randomLevel s) as [level s1].
  destruct (if decide (getHeight s1 < level) then _ else _) as [[u' s2]|];
    [|done].
  rewrite !bind_Ok. cbn beta iota. destruct (Make s2 k level) as [x' s3].
  destruct (Insert_link level 0 u' x' s3) as [sf|] eqn:E; [|done].
  rewrite bind_Ok. intros [= <- <-].
  destruct (Insert_link_stores_last _ _ _ _ _ _ E) as (tr & -> & Hl).
  rewrite bind_Ok. eexists. split; [done|].
  by rewrite !last_cons_cons.
Qed.

End SkipList_stores.

Section SkipList_stores_spec.
Context {T : Type} (compare_ : T → T → bool) (T0 : T).
Implicit Types (s t : @SkipList T) (x p l : nat) (k : T) (L : nat → list nat)
  (cond : T → bool).

Lemma Inv_raise s s' L :
  nodes s' = nodes s → height_ s ≤ height_ s' ≤ MaxLevel →
  Inv compare_ T0 s L → Inv compare_ T0 s' L.
Proof.
  intros Hn Hh [H1 H2 H3 H4 H5 H6 H7].
  assert (keyOf T0 s' = keyOf T0 s) as Hk.
  { unfold keyOf. by rewrite Hn. }
  split; rewrite ?Hn, ?Hk; auto.
  - lia.
  - intros l Hl. eapply chain_frame; [|apply (H2 l Hl)].
    intros a _. unfold Next, deref. by rewrite Hn.
  - intros l Hl. apply H3. lia.
Qed.

Lemma shape_Make s k level :
  shape (Make s k level).2 = shape s ++ [(k, level)].
Proof.
  unfold Make, shape. cbn [snd nodes]. rewrite fmap_app. simpl.
  by rewrite length_replicate.
Qed.

(** The keys of level [l] once [j] levels of the new node are linked. *)
Lemma fmap_linked_upto s0 t L cond k level j l :
  Inv compare_ T0 s0 L →
  shape t = shape s0 ++ [(k, level)] →
  keyOf T0 t <$> linked T0 s0 L cond (length (nodes s0)) j l =
    if decide (l < j)
    then (keyOf T0 s0 <$> below T0 s0 cond (L l)) ++
         k :: (keyOf T0 s0 <$> above T0 s0 cond (L l))
    else keyOf T0 s0 <$> L l.
Proof.
  intros HI Hsh. unfold linked.
  destruct (shape_snoc T0 s0 t k level Hsh) as (_ & Hkp & Hkq).
  assert (keyOf T0 t <$> L l = keyOf T0 s0 <$> L l) as HkL.
  { apply list_fmap_ext. intros i q Hq.
    apply Hkq, (Inv_valid compare_ T0 s0 L q l HI).
    apply list_elem_of_further. by eapply list_elem_of_lookup_2. }
  destruct (decide (l < j)); [|done].
  rewrite <- (below_above T0 s0 cond (L l)), !fmap_app in HkL.
  apply app_inj_1 in HkL as [HkA HkB]; [|by rewrite !length_fmap].
  by rewrite fmap_app, fmap_cons, HkA, HkB, Hkp.
Qed.

(** A list in which the first [j] levels of the new node are linked, and
    no more, is a skip list. *)
Lemma Inv_linked s0 t L cond k level j :
  let p := length (nodes s0) in
  Inv compare_ T0 s0 L → downward compare_ cond →
  Forall (λ b, lt compare_ k (keyOf T0 s0 b)) (above T0 s0 cond (L 0)) →
  Forall (λ a, lt compare_ (keyOf T0 s0 a) k) (below T0 s0 cond (L 0)) →
  j ≤ level → level ≤ height_ t → height_ s0 ≤ height_ t ≤ MaxLevel →
  shape t = shape s0 ++ [(k, level)] →
  (∀ l, l < MaxLevel → chain t l 0 (linked T0 s0 L cond p j l)) →
  Inv compare_ T0 t (linked T0 s0 L cond p j).
Proof.
  intros p HI Hd Hab Hbe Hj Hlev Hh Hsh Hch.
  pose proof (inv_height _ _ _ _ HI) as Hh0.
  destruct (shape_snoc T0 s0 t k level Hsh) as (Hlen' & Hkp & Hkq).
  assert (∀ l a, a ∈ 0 :: L l → a < p) as Hvalid.
  { intros l a Ha. by eapply Inv_valid. }
  split.
  - lia.
  - done.
  - intros l Hl. unfold linked. rewrite decide_False by lia.
    apply (inv_empty _ _ _ _ HI). lia.
  - intros l q. rewrite !(elem_of_linked compare_). intros [[Hl ->]|Hq].
    + left. split; [lia|done].
    + right. by apply (inv_sub _ _ _ _ HI).
  - intros l. unfold p. rewrite (fmap_linked_upto s0 t L cond k level j l HI Hsh).
    destruct (decide (l < j)) as [Hl|Hl]; [|apply (inv_sorted _ _ _ _ HI)].
    destruct (split_at_pred compare_ T0 s0 L cond l HI Hd) as [(HL & HA & HB & _) _];
      [lia|].
    assert (∀ b, b ∈ L l → b ∈ L 0) as Hl0.
    { intros b Hb. by eapply Inv_level0. }
    pose proof (below_Forall T0 s0 cond (L 0)) as Hbl0.
    rewrite Forall_forall in Hbl0, HA, HB, Hab, Hbe.
    apply sorted_insert.
    + rewrite <- fmap_app, <- HL. apply (inv_sorted _ _ _ _ HI).
    + apply Forall_fmap, Forall_forall. intros a Ha. simpl.
      apply Hbe.
      assert (a ∈ L 0) as Ha0.
      { apply Hl0. rewrite HL. apply elem_of_app. by left. }
      rewrite <- (below_above T0 s0 cond (L 0)) in Ha0.
      apply elem_of_app in Ha0 as [Ha0|Ha0]; [done|].
      destruct (split_at_pred compare_ T0 s0 L cond 0 HI Hd) as [(_ & _ & HB0 & _) _];
        [lia|].
      rewrite Forall_forall in HB0. specialize (HB0 a Ha0). specialize (HA a Ha).
      congruence.
    + apply Forall_fmap, Forall_forall. intros b Hb. simpl.
      apply Hab.
      assert (b ∈ L 0) as Hb0.
      { apply Hl0. rewrite HL. apply elem_of_app. by right. }
      rewrite <- (below_above T0 s0 cond (L 0)) in Hb0.
      apply elem_of_app in Hb0 as [Hb0|Hb0]; [|done].
      specialize (Hbl0 b Hb0). specialize (HB b Hb). congruence.
  - intros l. pose proof (inv_nodup _ _ _ _ HI l) as Hnd.
    unfold linked. destruct (decide (l < j)); [|done].
    rewrite <- (below_above T0 s0 cond (L l)) in Hnd.
    assert (p ∉ 0 :: L l) as Hp.
    { intros Hin. apply (Hvalid l) in Hin. lia. }
    rewrite <- (below_above T0 s0 cond (L l)) in Hp.
    revert Hnd Hp. rewrite !NoDup_cons, !NoDup_app, !NoDup_cons.
    rewrite !elem_of_cons, !elem_of_app. setoid_rewrite elem_of_cons.
    intros (H0 & HA & Hdis & HB) Hp. repeat split; auto.
    + intros [?|[?|?]]; [tauto|apply Hp; left; congruence|tauto].
    + intros x Hx [->|Hx']; [tauto|]. by apply (Hdis x).
  - intros l. pose proof (length_linked T0 s0 L cond p j l).
    pose proof (inv_bound _ _ _ _ HI l). lia.
Qed.

(** One round of the second loop of [Insert]. *)
Lemma link_round s0 L cond k level update i si :
  let p := length (nodes s0) in
  Inv compare_ T0 s0 L → downward compare_ cond →
  i < level → level ≤ MaxLevel →
  update !! i = Some (Some (pred T0 s0 L cond i)) →
  shape si = shape s0 ++ [(k, level)] →
  (∀ l, l < MaxLevel → chain si l 0 (linked T0 s0 L cond p i l)) →
  ∃ u nxt s1 s2,
    array_get update i = Ok u ∧ NoSyncNext si u i = Ok nxt ∧
    NoSyncSetNext si p nxt i = Ok s1 ∧ SetNext s1 u (Some p) i = Ok s2 ∧
    shape s1 = shape si ∧ height_ s1 = height_ si ∧
    shape s2 = shape si ∧ height_ s2 = height_ si ∧
    (∀ l, l < MaxLevel → chain s1 l 0 (linked T0 s0 L cond p i l)) ∧
    (∀ l, l < MaxLevel → chain s2 l 0 (linked T0 s0 L cond p (S i) l)).
Proof.
  intros p HI Hd Hi Hlev Hupd Hsh Hch.
  unfold array_get. rewrite Hupd.
  set (x := pred T0 s0 L cond i).
  destruct (split_at_pred compare_ T0 s0 L cond i HI Hd) as [(HL & HA & HB & Hx) _];
    [lia|].
  set (A := below T0 s0 cond (L i)) in *. set (B := above T0 s0 cond (L i)) in *.
  fold x in Hx.
  assert (∀ l a, a ∈ 0 :: L l → a < p) as Hvalid.
  { intros l a Ha. by eapply Inv_valid. }
  assert (x < p) as Hxp.
  { apply (Hvalid i). rewrite Hx, HL.
    destruct (lastd_nil_or 0 A) as [[_ ->]|H]; [apply list_elem_of_here|].
    apply list_elem_of_further, elem_of_app. by left. }
  pose proof (Hch i ltac:(lia)) as Hci. unfold linked in Hci.
  rewrite decide_False in Hci by lia. rewrite HL in Hci.
  pose proof (chain_app _ _ _ _ _ Hci) as Hcx. rewrite <- Hx in Hcx.
  pose proof (chain_Next _ _ _ _ Hcx) as Hnx.
  assert (∃ np, nodes si !! p = Some np ∧ length (forward np) = level)
    as (np & Hnp & Hnpl).
  { pose proof (f_equal (.!! p) Hsh) as H. unfold shape in H.
    rewrite list_lookup_fmap in H.
    rewrite lookup_app_r, length_fmap in H by (rewrite length_fmap; fold p; lia).
    fold p in H. rewrite Nat.sub_diag in H. simpl in H.
    destruct (nodes si !! p) as [np|]; simplify_eq/=. eauto. }
  destruct (SetNext_ok compare_ T0 si p (head B) i np Hnp)
    as (sa & Hsa1 & Hsa & Hha & _ & Hna); [lia|].
  destruct (Next_slot _ _ _ _ Hnx) as (nx & Hnx1 & Hnx2).
  destruct (shape_lookup si sa x nx Hsa Hnx1) as (nx' & Hnx' & _ & Hlen').
  destruct (SetNext_ok compare_ T0 sa x (Some p) i nx' Hnx')
    as (sb & Hsb1 & Hsb & Hhb & _ & Hnb); [lia|].
  assert (∀ a l, Next sb a l =
    if decide (a = x ∧ l = i) then Ok (Some p)
    else if decide (a = p ∧ l = i) then Ok (head B) else Next si a l) as Hnext.
  { intros a l. rewrite Hnb. destruct (decide (a = x ∧ l = i)); [done|].
    apply Hna. }
  exists x, (head B), sa, sb. unfold NoSyncNext, NoSyncSetNext.
  split; [done|]. split; [done|]. split; [done|]. split; [done|].
  split; [done|]. split; [done|]. split; [congruence|]. split; [congruence|].
  split.
  - intros l Hl. eapply chain_frame; [|apply Hch, Hl].
    intros a Ha. rewrite Hna. rewrite decide_False; [done|].
    intros [-> ->]. unfold linked in Ha. rewrite decide_False in Ha by lia.
    apply (Hvalid i) in Ha. lia.
  - intros l Hl. unfold linked. destruct (decide (l = i)) as [->|Hne].
    + rewrite decide_True by lia. fold A B.
      pose proof (inv_nodup _ _ _ _ HI i) as Hnd. rewrite HL in Hnd.
      apply (chain_link si sb i 0 A B p).
      * rewrite app_comm_cons in Hnd. by apply NoDup_app in Hnd as [? _].
      * done.
      * rewrite <- Hx, Hnext. by rewrite decide_True.
      * apply (chain_from_new si sb i x p B Hcx).
        -- rewrite Hnext. rewrite decide_False by lia.
           by rewrite decide_True.
        -- intros a Ha. rewrite Hnext.
           rewrite decide_False; [rewrite decide_False; [done|]|].
           ++ intros [-> _]. assert (p < p); [|lia].
              apply (Hvalid i). rewrite HL. apply list_elem_of_further, elem_of_app.
              by right.
           ++ intros [-> _]. rewrite app_comm_cons in Hnd.
              apply NoDup_app in Hnd as (_ & Hnd & _).
              apply (Hnd x); [|done]. rewrite Hx. apply lastd_elem.
      * intros a Ha Hax. rewrite Hnext. rewrite <- Hx in Hax.
        rewrite decide_False by tauto. rewrite decide_False; [done|].
        intros [-> _]. assert (p < p); [|lia].
        apply (Hvalid i). rewrite HL.
        apply elem_of_cons in Ha as [->|Ha]; [apply list_elem_of_here|].
        apply list_elem_of_further, elem_of_app. by left.
    + assert (linked T0 s0 L cond p (S i) l = linked T0 s0 L cond p i l) as He.
      { unfold linked. destruct (decide (l < i)).
        - by rewrite decide_True by lia.
        - by rewrite decide_False by lia. }
      unfold linked in He. rewrite He. fold (linked T0 s0 L cond p i l).
      eapply chain_frame; [|apply Hch, Hl].
      intros a _. rewrite Hnext.
      rewrite decide_False by tauto. by rewrite decide_False by tauto.
Qed.

(** [t] is a list in which [j] levels of the new node are linked. *)
Definition linked_upto s0 L cond k level (h : nat) (j : nat) t : Prop :=
  shape t = shape s0 ++ [(k, level)] ∧ height_ t = h ∧
  ∀ l, l < MaxLevel → chain t l 0 (linked T0 s0 L cond (length (nodes s0)) j l).

(** The stores of the second loop: the first leaves the levels as they
    are, and every later one leaves at least one level more linked. *)
Lemma Insert_link_stores_ok s0 L cond k level update n :
  let p := length (nodes s0) in
  Inv compare_ T0 s0 L → downward compare_ cond → level ≤ MaxLevel →
  (∀ l, l < level → update !! l = Some (Some (pred T0 s0 L cond l))) →
  ∀ i si, i + n = level → linked_upto s0 L cond k level (height_ si) i si →
    ∃ tr, Insert_link_stores n i update p si = Ok tr ∧
      match tr with
      | [] => n = 0
      | s1 :: tr' =>
          linked_upto s0 L cond k level (height_ si) i s1 ∧
          Forall (λ t, ∃ j, i < j ≤ level ∧
                    linked_upto s0 L cond k level (height_ si) j t) tr'
      end.
Proof.
  intros p HI Hd Hlev Hupd. subst p.
  induction n as [|n IH]; intros i si Hi (Hsh & _ & Hch);
    cbn [Insert_link_stores].
  { by exists []. }
  destruct (link_round s0 L cond k level update i si HI Hd ltac:(lia) Hlev
              (Hupd i ltac:(lia)) Hsh Hch)
    as (u & nxt & s1 & s2 & E1 & E2 & E3 & E4 & Hs1 & Hh1 & Hs2 & Hh2 & Hc1 & Hc2).
  rewrite E1, bind_Ok, E2, bind_Ok, E3, bind_Ok, E4, bind_Ok.
  destruct (IH (S i) s2) as (tr & -> & Htr).
  - lia.
  - split; [congruence|]. split; [done|]. done.
  - rewrite bind_Ok. eexists. split; [done|]. split.
    + split; [congruence|]. split; [done|]. done.
    + constructor.
      * exists (S i). split; [lia|]. split; [congruence|]. split; [done|]. done.
      * rewrite Hh2 in Htr. destruct tr as [|s1' tr']; [constructor|].
        destruct Htr as [H1 Htr]. constructor.
        -- exists (S i). split; [lia|]. done.
        -- eapply Forall_impl; [exact Htr|]. intros t (j & Hj & Ht).
           exists j. split; [lia|done].
Qed.

End SkipList_stores_spec.

Section SkipList_stores_top.
Context {T : Type} (compare_ : T → T → bool) (T0 : T).
Implicit Types (s t : @SkipList T) (x p l : nat) (k : T) (L : nat → list nat).

Lemma linked_upto_Repr s0 L k level h j t :
  let cond := λ k', compare_ k' k in
  Inv compare_ T0 s0 L → transitive compare_ →
  Forall (λ b, lt compare_ k (keyOf T0 s0 b)) (above T0 s0 cond (L 0)) →
  j ≤ level → level ≤ h → height_ s0 ≤ h ≤ MaxLevel →
  linked_upto T0 s0 L cond k level h j t →
  Repr compare_ T0 t
    (if decide (0 < j)
     then (keyOf T0 s0 <$> below T0 s0 cond (L 0)) ++
          k :: (keyOf T0 s0 <$> above T0 s0 cond (L 0))
     else keyOf T0 s0 <$> L 0).
Proof.
  intros cond HI Ht Hab Hj Hlev Hh (Hsh & Hht & Hch).
  exists (linked T0 s0 L cond (length (nodes s0)) j). split.
  - apply (Inv_linked compare_ T0 s0 t L cond k level j HI); try done.
    + by apply downward_lower.
    + apply (below_Forall T0 s0 cond (L 0)).
    + lia.
    + lia.
  - by apply (fmap_linked_upto compare_ T0 s0 t L cond k level j 0 HI).
Qed.

Lemma Insert_new_stores_ok s L k update :
  let cond := λ k', compare_ k' k in
  Inv compare_ T0 s L → transitive compare_ →
  length update = MaxLevel →
  (∀ l, l < height_ s → update !! l = Some (Some (pred T0 s L cond l))) →
  Forall (λ b, lt compare_ k (keyOf T0 s b)) (above T0 s cond (L 0)) →
  ∃ sh sm s1 after,
    Insert_new_stores s k update = Ok (sh :: sm :: s1 :: after) ∧
    Forall (λ t, Repr compare_ T0 t (keyOf T0 s <$> L 0)) [sh; sm; s1] ∧
    Forall (λ t, Repr compare_ T0 t
                   ((keyOf T0 s <$> below T0 s cond (L 0)) ++
                    k :: (keyOf T0 s <$> above T0 s cond (L 0)))) after.
Proof.
  intros cond HI Ht Hlen Hupd Hab.
  pose proof (downward_lower compare_ k Ht) as Hd. fold cond in Hd.
  pose proof (inv_height _ _ _ _ HI) as Hh.
  unfold Insert_new_stores, randomLevel.
  destruct (randomLevel_loop_ok MaxLevel 1 s) as (level & g & -> & Hlev);
    [unfold MaxLevel; lia|].
  unfold getHeight. cbn [height_ nodes gen_].
  assert (∃ u' h',
    (if decide (height_ s < level)
     then Insert_raise (level - height_ s) (height_ s) update
          ≫= λ update', Ok (update', mkSkipList (nodes s) level g)
     else Ok (update, mkSkipList (nodes s) (height_ s) g))
      = Ok (u', mkSkipList (nodes s) h' g) ∧
    h' = height_ s `max` level ∧
    ∀ l, l < level → u' !! l = Some (Some (pred T0 s L cond l)))
    as (u' & h' & -> & Hh' & Hu').
  { destruct (decide (height_ s < level)) as [Hlt|Hge].
    - destruct (Insert_raise_ok (level - height_ s) (height_ s) update)
        as (u' & -> & _ & Hin & Hout); [lia|].
      rewrite bind_Ok. exists u', level. split; [done|]. split; [lia|].
      intros l Hl. destruct (decide (l < height_ s)) as [Hl'|Hl'].
      + rewrite Hout by lia. by apply Hupd.
      + rewrite Hin by lia.
        by rewrite (pred_top compare_ T0 s L cond l HI) by lia.
    - exists update, (height_ s). split; [done|]. split; [lia|].
      intros l Hl. apply Hupd. lia. }
  rewrite bind_Ok. cbn beta iota. unfold Make. cbn [height_ nodes gen_].
  set (sh := mkSkipList (nodes s) h' g).
  set (sm := mkSkipList (nodes s ++ [mkNode k (replicate level None)]) h' g).
  assert (Inv compare_ T0 sh L) as HIh.
  { apply (Inv_raise compare_ T0 s sh L); [done| |done]. simpl. lia. }
  assert (height_ sm = h') as Hhm by done.
  assert (linked_upto T0 s L cond k level h' 0 sm) as Hm.
  { split; [|split; [done|]].
    - unfold shape, sm. cbn [nodes]. rewrite fmap_app. simpl.
      by rewrite length_replicate.
    - intros l Hl. unfold linked. rewrite decide_False by lia.
      eapply chain_frame; [|apply (inv_chain _ _ _ _ HI l Hl)].
      intros a Ha. unfold Next, deref, sm. cbn [nodes].
      rewrite lookup_app_l; [done|].
      by apply (Inv_valid compare_ T0 s L a l HI). }
  destruct (Insert_link_stores_ok compare_ T0 s L cond k level u' level HI Hd
              ltac:(lia) Hu' 0 sm ltac:(lia)) as (tr & -> & Htr).
  { by rewrite Hhm. }
  rewrite bind_Ok. rewrite Hhm in Htr.
  destruct tr as [|s1 after]; [lia|]. destruct Htr as [H1 Haft].
  exists sh, sm, s1, after. split; [done|].
  assert (∀ j t, j ≤ level → linked_upto T0 s L cond k level h' j t →
            Repr compare_ T0 t
              (if decide (0 < j)
               then (keyOf T0 s <$> below T0 s cond (L 0)) ++
                    k :: (keyOf T0 s <$> above T0 s cond (L 0))
               else keyOf T0 s <$> L 0)) as HR.
  { intros j t Hj Hjt.
    apply (linked_upto_Repr s L k level h' j t HI Ht Hab); [done|lia|lia|done]. }
  split.
  - constructor; [|constructor; [|constructor; [|constructor]]].
    + exists L. split; [done|]. unfold keyOf, sh. done.
    + apply (HR 0 sm); [lia|done].
    + apply (HR 0 s1); [lia|done].
  - eapply Forall_impl; [exact Haft|]. intros t (j & Hj & Hjt).
    pose proof (HR j t ltac:(lia) Hjt) as H. by rewrite decide_True in H by lia.
Qed.

Lemma Insert_stores_Repr s L k :
  let cond := λ k', compare_ k' k in
  transitive compare_ → Inv compare_ T0 s L →
  ∃ it s' before after,
    Insert compare_ s k = Ok (it, s') ∧
    Insert_stores compare_ s k = Ok (before ++ after) ∧
    last (s :: before ++ after) = Some s' ∧
    Forall (λ t, Repr compare_ T0 t (keyOf T0 s <$> L 0)) before ∧
    Forall (λ t, Repr compare_ T0 t
                   (ref_insert compare_ k (keyOf T0 s <$> L 0))) after ∧
    Repr compare_ T0 s' (ref_insert compare_ k (keyOf T0 s <$> L 0)).
Proof.
  intros cond Ht HI.
  pose proof (downward_lower compare_ k Ht) as Hd. fold cond in Hd.
  pose proof (inv_height _ _ _ _ HI) as Hh.
  assert (Repr compare_ T0 s (keyOf T0 s <$> L 0)) as Hr by (by exists L).
  destruct (Insert_Repr compare_ T0 s _ k Ht Hr) as (it & s' & Hins & Hr').
  destruct (Insert_stores_last compare_ s k it s' Hins) as (tr & Htr & Hlast).
  exists it, s'.
  assert (∃ before after, tr = before ++ after ∧
            Forall (λ t, Repr compare_ T0 t (keyOf T0 s <$> L 0)) before ∧
            Forall (λ t, Repr compare_ T0 t
                           (ref_insert compare_ k (keyOf T0 s <$> L 0))) after)
    as (before & after & -> & Hb & Ha).
  2:{ by exists before, after. }
  clear Hlast Hins Hr'. revert Htr.
  unfold Insert_stores, getHeight, head_.
  destruct (Insert_search_ok compare_ T0 s L k (height_ s) (replicate MaxLevel None)
              HI Hd) as (u & Hs & Hlen & Hlo & _); [lia|by rewrite length_replicate|].
  fold cond in Hs, Hlo.
  rewrite (pred_top compare_ T0 s L cond (height_ s) HI) in Hs by lia.
  rewrite Hs, bind_Ok. cbn beta iota.
  rewrite (Next_pred compare_ T0 s L cond HI Hd), bind_Ok.
  rewrite (Find_ok compare_ T0 s L k HI Hd). fold cond.
  destruct (split_at_pred compare_ T0 s L cond 0 HI Hd) as [(HL & HA & HB & _) _];
    [unfold MaxLevel; lia|].
  assert (keyOf T0 s <$> L 0 =
    (keyOf T0 s <$> below T0 s cond (L 0)) ++
    (keyOf T0 s <$> above T0 s cond (L 0))) as Hks.
  { by rewrite <- fmap_app, below_above. }
  assert (Forall (λ b, lt compare_ k (keyOf T0 s b)) (above T0 s cond (L 0)) →
          ref_insert compare_ k (keyOf T0 s <$> L 0) =
            (keyOf T0 s <$> below T0 s cond (L 0)) ++
            k :: (keyOf T0 s <$> above T0 s cond (L 0))) as Hnew.
  { intros Hab. rewrite Hks at 1. rewrite ref_insert_app.
    - f_equal. destruct (above T0 s cond (L 0)) as [|b B]; [done|]. simpl.
      apply Forall_inv in Hab. unfold lt in Hab. by rewrite Hab.
    - apply Forall_fmap, (below_Forall T0 s cond).
    - intros b Hb. destruct (above T0 s cond (L 0)); simplify_eq/=.
      by inversion HB. }
  assert (Forall (λ b, lt compare_ k (keyOf T0 s b)) (above T0 s cond (L 0)) →
          Insert_new_stores s k u = Ok tr →
          ∃ before after, tr = before ++ after ∧
            Forall (λ t, Repr compare_ T0 t (keyOf T0 s <$> L 0)) before ∧
            Forall (λ t, Repr compare_ T0 t
                           (ref_insert compare_ k (keyOf T0 s <$> L 0))) after)
    as Hgo.
  { intros Hab Hst.
    destruct (Insert_new_stores_ok s L k u HI Ht Hlen Hlo Hab)
      as (sh & sm & s1 & after & Hst' & Hb & Ha).
    rewrite Hst' in Hst. injection Hst as <-.
    exists [sh; sm; s1], after. split; [done|]. split; [done|].
    by rewrite (Hnew Hab). }
  destruct (above T0 s cond (L 0)) as [|y B] eqn:E; cbn [head].
  - rewrite !bind_Ok. cbn [assert bool_decide].
    rewrite bool_decide_eq_true_2 by done. cbn [assert]. rewrite bind_Ok.
    apply Hgo. constructor.
  - destruct (deref_valid compare_ T0 s L y 0 HI) as (n & -> & Hkn).
    { rewrite HL. apply elem_of_app. right. apply list_elem_of_here. }
    rewrite !bind_Ok, Hkn.
    assert (compare_ (keyOf T0 s y) k = false) as Hyk by (by inversion HB).
    destruct (keyEq compare_ k (keyOf T0 s y)) eqn:Heq.
    + intros [= <-]. by exists [], [].
    + unfold keyEq in Heq. rewrite Hyk in Heq. simpl in Heq.
      apply negb_false_iff in Heq.
      assert (Forall (λ b, lt compare_ k (keyOf T0 s b)) (y :: B)) as Hab.
      { constructor; [done|].
        pose proof (inv_sorted _ _ _ _ HI 0) as Hsd.
        rewrite HL, fmap_app in Hsd. apply StronglySorted_app_1_r in Hsd.
        rewrite fmap_cons in Hsd. apply StronglySorted_cons in Hsd as [Hsd _].
        rewrite Forall_fmap in Hsd. eapply Forall_impl; [exact Hsd|].
        intros b Hb. exact (Ht _ _ _ Heq Hb). }
      rewrite Heq. rewrite bool_decide_eq_true_2 by done. cbn [assert].
      rewrite bind_Ok. by apply Hgo.
Qed.

End SkipList_stores_top.

(** X17. Every store of [Insert] to the memory that a reader reads, the
    stores taken in the order of the program, leaves a skip list: from the
    list after any one of them a traversal gives the
    keys that were there before the insertion or those that are there after
    it, [Find] finds exactly the keys of that traversal and [LowerBound]
    stands on the first of them that is not less than its argument. First
    come the stores that leave the keys as they were, then those that leave
    the new key in, and the last of them leaves what [Insert] returns. *)
Theorem Insert_stores_leave_skip_lists :
  ∀ (T : Type) (compare_ : T → T → bool) (T0 : T) (gen : nat → nat)
    (ks : list T) (k : T),
    strict_weak_order compare_ →
    ∃ s l it s' l' before after,
      InsertAll compare_ (SkipList_new T0 gen) ks = Ok s ∧
      traverse s = Ok l ∧
      Insert compare_ s k = Ok (it, s') ∧
      traverse s' = Ok l' ∧
      Insert_stores compare_ s k = Ok (before ++ after) ∧
      last (s :: before ++ after) = Some s' ∧
      (∀ t, t ∈ before → traverse t = Ok l) ∧
      (∀ t, t ∈ after → traverse t = Ok l') ∧
      ∀ t k', t ∈ before ++ after →
        ∃ lt f lo, traverse t = Ok lt ∧
          Find compare_ t k' = Ok f ∧
          (f = End ↔ ¬ ∃ e, e ∈ lt ∧ equiv compare_ e k') ∧
          LowerBound compare_ t k' = Ok lo ∧
          bound_at t lt (λ e, compare_ e k') lo.
Proof.
  intros T compare_ T0 gen ks k Hs. pose proof (swo_trans _ Hs) as Ht.
  destruct (InsertAll_new_Full compare_ T0 gen ks Ht) as (s & L & Hi & HF & _).
  pose proof (full_inv _ _ _ _ HF) as HI.
  destruct (Insert_stores_Repr compare_ T0 s L k Ht HI)
    as (it & s' & before & after & Hins & Hst & Hlast & Hb & Ha & Hr').
  rewrite Forall_forall in Hb, Ha.
  exists s, (keyOf T0 s <$> L 0), it, s',
    (ref_insert compare_ k (keyOf T0 s <$> L 0)), before, after.
  split; [done|].
  split; [apply (Repr_traverse compare_ T0), (Full_Repr compare_ T0 s L HF)|].
  split; [done|]. split; [by apply (Repr_traverse compare_ T0)|].
  split; [done|]. split; [done|].
  split; [intros t Ht'; by apply (Repr_traverse compare_ T0), Hb|].
  split; [intros t Ht'; by apply (Repr_traverse compare_ T0), Ha|].
  intros t k' Hin.
  assert (∃ lt, Repr compare_ T0 t lt) as [lt Hrt].
  { apply elem_of_app in Hin as [Hin|Hin]; eexists; [by apply Hb|by apply Ha]. }
  destruct (Find_Repr compare_ T0 t lt k' Ht Hrt) as (f & Hf & Hend & _).
  destruct (Bound_Repr compare_ T0 t lt (λ e, compare_ e k')
              (downward_lower compare_ k' Ht) Hrt) as (lo & Hlo & Hbd).
  exists lt, f, lo. split; [by apply (Repr_traverse compare_ T0)|].
  split; [done|]. split; [done|]. split; [exact Hlo|done].
Qed.

Lemma Insert_stores_leave_skip_lists_witness :
  ∃ s l it s' l' before after,
    InsertAll Z.ltb (SkipList_new 0%Z (λ i, i mod 3)) [5; 3; 8]%Z = Ok s ∧
    traverse s = Ok l ∧
    Insert Z.ltb s 4%Z = Ok (it, s') ∧
    traverse s' = Ok l' ∧
    Insert_stores Z.ltb s 4%Z = Ok (before ++ after) ∧
    last (s :: before ++ after) = Some s' ∧
    (∀ t, t ∈ before → traverse t = Ok l) ∧
    (∀ t, t ∈ after → traverse t = Ok l') ∧
    ∀ t k', t ∈ before ++ after →
      ∃ lt f lo, traverse t = Ok lt ∧
        Find Z.ltb t k' = Ok f ∧
        (f = End ↔ ¬ ∃ e, e ∈ lt ∧ equiv Z.ltb e k') ∧
        LowerBound Z.ltb t k' = Ok lo ∧
        bound_at t lt (λ e, Z.ltb e k') lo.
Proof.
  apply (Insert_stores_leave_skip_lists Z Z.ltb 0%Z (λ i, i mod 3)
           [5; 3; 8]%Z 4%Z).
  split.
  - intros a. apply Z.ltb_irrefl.
  - intros a b c. unfold lt. rewrite !Z.ltb_lt. lia.
  - intros a b c. unfold equiv. rewrite !Z.ltb_ge. lia.
Defined.

(** ** Walking a block *)

Open Scope Z_scope.

(** A caller's loop over the values of a block,
    [for (it = b.begin(); it != b.end(); it++) out.push_back(it.Value());]
    from the cursor [it] on. *)
Fixpoint values_from (fuel : nat) (b : Block) (it : BlockConstIterator)
  : res (list (list Z)) :=
  match fuel with
  | O => Err OutOfFuel
  | S fuel' =>
      e ← end_ b;
      if equal it e then Ok []
      else
        v ← Value b it;
        it' ← increment b it;
        vs ← values_from fuel' b it';
        Ok (v :: vs)
  end.

Definition values (b : Block) : res (list (list Z)) :=
  it ← begin b; values_from (block_fuel b) b it.

(** The same loop, collecting [it.Key()] and [it.Value()]. *)
Fixpoint entries_from (fuel : nat) (b : Block) (it : BlockConstIterator)
  : res (list (list Z * list Z)) :=
  match fuel with
  | O => Err OutOfFuel
  | S fuel' =>
      e ← end_ b;
      if equal it e then Ok []
      else
        '(k, it) ← Key b it;
        v ← Value b it;
        it' ← increment b it;
        kvs ← entries_from fuel' b it';
        Ok ((k, v) :: kvs)
  end.

Definition entries (b : Block) : res (list (list Z * list Z)) :=
  it ← begin b; entries_from (block_fuel b) b it.

(** The value bytes of an entry. *)
Definition entry_value (b : Block) (e : entry) : list Z :=
  take (Z.to_nat (e_vlen e))
    (drop (Z.to_nat (e_key e + e_unshared e)) (data_ b)).

(** The entries before the first one on which a cursor stands where the
    end cursor stands. *)
Fixpoint visible (b : Block) (es : list entry) : list entry :=
  match es with
  | [] => []
  | e :: es' =>
      if decide (e_key e < data_end_ b) then e :: visible b es' else []
  end.

Section Block_walk.
Variable b : Block.
Hypothesis Hend : data_end_ b ≤ Z.of_nat (length (data_ b)).
Hypothesis H32 : data_end_ b < 2 ^ 32.

Lemma Value_entry e es it :
  layout b (e_off e) (e :: es) → on_entry b e it →
  Value b it = Ok (entry_value b e).
Proof using Hend.
  intros (_ & ? & _ & ? & ? & ? & ? & _) (Hb & _ & _ & Hu & Hv).
  unfold Value, entry_value. rewrite Hb, Hu, Hv.
  apply (read_bytes_ok b); lia.
Qed.

Lemma layout_tail e e' es :
  layout b (e_off e) (e :: e' :: es) → layout b (e_off e') (e' :: es).
Proof.
  intros (_ & _ & _ & _ & _ & _ & _ & Hlay).
  pose proof Hlay as (-> & _). done.
Qed.

Lemma on_entry_next e e' es it : on_entry b e' (next_cursor b e (e' :: es) it).
Proof. done. Qed.

Lemma not_at_end e it :
  on_entry b e it → e_key e < data_end_ b →
  equal it (mkIter (data_end_ b) 0 0 0 0 None 0 [] StatusOK) = false.
Proof.
  intros (Hb & _) Hlt. unfold equal. cbn [buf_].
  by rewrite bool_decide_eq_false_2 by lia.
Qed.

Lemma values_from_layout es : ∀ e it fuel,
  layout b (e_off e) (e :: es) → on_entry b e it →
  (length es + 1 < fuel)%nat →
  values_from fuel b it = Ok (entry_value b <$> visible b (e :: es)).
Proof using Hend H32.
  induction es as [|e' es IH]; intros e it fuel Hlay Hon Hf;
    (destruct fuel as [|fuel]; [lia|]);
    cbn [values_from visible]; rewrite end_cursor, bind_Ok;
    (destruct (decide (e_key e < data_end_ b)) as [Hlt|Hge];
     [rewrite (not_at_end e it Hon Hlt),
        (Value_entry e _ it Hlay Hon), bind_Ok,
        (increment_layout b it _ e _ Hend H32 Hlay Hon), bind_Ok
     |destruct Hlay as (_ & _ & _ & _ & ? & ? & ? & _);
      destruct Hon as (Hb & Hl & _); unfold equal; cbn [buf_ buf_len_];
      rewrite !bool_decide_eq_true_2 by lia; done]).
  - destruct fuel as [|fuel]; [simpl in Hf; lia|].
    cbn [values_from next_cursor]. rewrite end_cursor, bind_Ok.
    unfold equal. cbn [buf_ buf_len_].
    rewrite !bool_decide_eq_true_2 by done. done.
  - rewrite (IH e' _ fuel (layout_tail e e' es Hlay) (on_entry_next e e' es it));
      [done|simpl in Hf; lia].
Qed.

Lemma begin_layout e es :
  layout b 0 (e :: es) →
  ∃ it, begin b = Ok it ∧ scanning b e None it ∧ key_ it = [].
Proof using Hend H32.
  intros Hlay. apply (ConstIterator_restart b Hend H32 0 e es Hlay).
Qed.

Lemma values_layout es :
  layout b 0 es → values b = Ok (entry_value b <$> visible b es).
Proof using Hend H32.
  intros Hlay. unfold values. destruct es as [|e es].
  - simpl in Hlay. unfold begin.
    replace (ConstIterator b 0 0) with (end_ b)
      by (unfold end_; by rewrite <- Hlay).
    rewrite end_cursor, bind_Ok. unfold block_fuel. cbn [values_from].
    rewrite end_cursor, bind_Ok. unfold equal. cbn [buf_ buf_len_].
    by rewrite !bool_decide_eq_true_2.
  - destruct (begin_layout e es Hlay) as (it & -> & (Hon & _) & _).
    rewrite bind_Ok. pose proof Hlay as (Hoff & _). rewrite <- Hoff in Hlay.
    apply values_from_layout; [done|done|].
    pose proof (layout_length b _ _ Hlay) as Hlen. simpl in Hlen.
    destruct Hlay as (_ & ? & _). unfold block_fuel. lia.
Qed.

Lemma visible_all es :
  Forall (λ e, e_key e < data_end_ b) es → visible b es = es.
Proof.
  induction 1 as [|e es He _ IH]; simpl; [done|].
  by rewrite decide_True, IH.
Qed.

Lemma visible_but_last es e :
  Forall (λ e, e_key e < data_end_ b) es → data_end_ b ≤ e_key e →
  visible b (es ++ [e]) = es.
Proof.
  intros Hes He. induction Hes as [|e0 es He0 _ IH]; simpl.
  - by rewrite decide_False by lia.
  - by rewrite decide_True, IH.
Qed.

Lemma layout_last : ∀ es p e,
  layout b p (es ++ [e]) → e_key e + e_unshared e + e_vlen e = data_end_ b.
Proof.
  induction es as [|e0 es IH]; intros p e; simpl.
  - tauto.
  - intros (_ & _ & _ & _ & _ & _ & _ & Hlay). by eapply IH.
Qed.

Lemma entries_step e es it lk prev ks :
  layout b (e_off e) (e :: es) → e_key e < data_end_ b →
  scanning b e lk it → key_ it = [] →
  full_keys (data_ b) prev (e :: es) = Ok ks →
  in_place b lk prev (e :: es) ks →
  ∃ k ks', ks = k :: ks' ∧ full_keys (data_ b) k es = Ok ks' ∧
    in_place b (Some (e_key e)) k es ks' ∧
    Key b it = Ok (k, with_key it k) ∧
    Value b (with_key it k) = Ok (entry_value b e) ∧
    increment b (with_key it k) = Ok (next_cursor b e es (with_key it k)).
Proof using Hend H32.
  intros Hlay Hne Hsc Hk Hfk Hip. pose proof Hsc as (Hon & _).
  cbn [full_keys] in Hfk.
  destruct (assert _) as [[]|] in Hfk; [|done]. rewrite bind_Ok in Hfk.
  destruct (read_bytes (data_ b) (e_key e) (e_unshared e)) as [suf|] eqn:Hrd;
    [|done].
  rewrite bind_Ok in Hfk. cbn zeta in Hfk.
  set (k := take (Z.to_nat (e_shared e)) prev ++ suf) in *.
  destruct (full_keys (data_ b) k es) as [ks'|] eqn:Hfk'; [|done].
  rewrite bind_Ok in Hfk. injection Hfk as <-.
  destruct Hip as [Hpre Hip]. exists k, ks'.
  split; [done|]. split; [done|]. split; [done|].
  assert (on_entry b e (with_key it k)) as Hon' by done.
  split; [|split].
  - rewrite (Key_scanning b Hend H32 it e es lk Hlay Hne Hsc Hk).
    unfold cursor_key. by rewrite Hpre, Hrd, !bind_Ok.
  - by apply (Value_entry e es).
  - by apply (increment_layout b _ (e_off e) e es).
Qed.

Lemma entries_from_layout es : ∀ ks e it lk prev fuel,
  layout b (e_off e) (e :: es) →
  Forall (λ e, e_key e < data_end_ b) (e :: es) →
  scanning b e lk it → key_ it = [] →
  full_keys (data_ b) prev (e :: es) = Ok ks →
  in_place b lk prev (e :: es) ks →
  (length es + 1 < fuel)%nat →
  entries_from fuel b it = Ok (zip ks (entry_value b <$> (e :: es))).
Proof using Hend H32.
  induction es as [|e' es IH]; intros ks e it lk prev fuel Hlay Hne Hsc Hk Hfk Hip Hf;
    (destruct fuel as [|fuel]; [lia|]);
    pose proof (Forall_inv Hne) as Hne1; cbv beta in Hne1;
    destruct (entries_step e _ it lk prev ks Hlay Hne1 Hsc Hk Hfk Hip)
      as (k & ks' & -> & Hfk' & Hip' & HKey & HVal & Hinc);
    cbn [entries_from]; rewrite end_cursor, bind_Ok;
    rewrite (not_at_end e it (proj1 Hsc) Hne1);
    rewrite HKey, bind_Ok; cbn beta iota; rewrite HVal, bind_Ok, Hinc, bind_Ok.
  - destruct fuel as [|fuel]; [simpl in Hf; lia|].
    cbn [entries_from next_cursor]. rewrite end_cursor, bind_Ok.
    unfold equal. cbn [buf_ buf_len_].
    rewrite !bool_decide_eq_true_2 by done. cbn [andb]. rewrite bind_Ok.
    simpl in Hfk'. by injection Hfk' as <-.
  - rewrite (IH ks' e' _ (Some (e_key e)) k fuel (layout_tail e e' es Hlay)
               (Forall_inv_tail Hne)); [done|done|done|done|done|simpl in Hf; lia].
Qed.

End Block_walk.

(** X9. On a block whose entries decode one after the other up to the
    restart array, none of them with nothing stored, the loop from
    [begin()] to [end()] visits every entry in order, and [Value()] on each
    is the value bytes of that entry. *)
Theorem iteration_reads_every_value :
  ∀ (b : Block) (es : list entry),
    data_end_ b ≤ Z.of_nat (length (data_ b)) → data_end_ b < 2 ^ 32 →
    decode_entries (block_fuel b) (data_ b) 0 (data_end_ b) = Ok es →
    Forall (λ e, e_key e < data_end_ b) es →
    values b = Ok (entry_value b <$> es).
Proof.
  intros b es Hend H32 Hdec Hne.
  pose proof (decode_entries_layout b _ 0 es ltac:(lia) Hend Hdec) as Hlay.
  rewrite (values_layout b Hend H32 es Hlay). by rewrite visible_all.
Qed.

Lemma iteration_reads_every_value_witness :
  values block_6 =
    Ok (entry_value block_6 <$>
          [mkEntry 0 0 2 1 3; mkEntry 6 1 1 1 9; mkEntry 11 1 1 1 14;
           mkEntry 16 0 2 1 19; mkEntry 22 1 1 1 25; mkEntry 27 1 1 1 30]).
Proof.
  apply (iteration_reads_every_value block_6).
  - vm_compute. discriminate.
  - reflexivity.
  - reflexivity.
  - repeat constructor.
Defined.

(** X10. On such a block, when the shared prefix of every entry can be
    read where the previous entry stores its key, [Key()] on each cursor of
    the loop from [begin()] to [end()] is the full key of its entry. *)
Theorem iteration_reports_full_keys :
  ∀ (b : Block) (es : list entry) (ks : list (list Z)),
    data_end_ b ≤ Z.of_nat (length (data_ b)) → data_end_ b < 2 ^ 32 →
    decode_entries (block_fuel b) (data_ b) 0 (data_end_ b) = Ok es →
    Forall (λ e, e_key e < data_end_ b) es →
    full_keys (data_ b) [] es = Ok ks →
    in_place b None [] es ks →
    entries b = Ok (zip ks (entry_value b <$> es)).
Proof.
  intros b es ks Hend H32 Hdec Hne Hfk Hip.
  pose proof (decode_entries_layout b _ 0 es ltac:(lia) Hend Hdec) as Hlay.
  unfold entries. destruct es as [|e es].
  - simpl in Hlay, Hfk. injection Hfk as <-. unfold begin.
    replace (ConstIterator b 0 0) with (end_ b)
      by (unfold end_; by rewrite <- Hlay).
    rewrite end_cursor, bind_Ok. unfold block_fuel. cbn [entries_from].
    rewrite end_cursor, bind_Ok. unfold equal. cbn [buf_ buf_len_].
    by rewrite !bool_decide_eq_true_2.
  - destruct (begin_layout b Hend H32 e es Hlay) as (it & -> & Hsc & Hk).
    rewrite bind_Ok. pose proof Hlay as (Hoff & _). rewrite <- Hoff in Hlay.
    apply (entries_from_layout b Hend H32 es ks e it None []); try done.
    pose proof (layout_length b _ _ Hlay) as Hlen. simpl in Hlen.
    destruct Hlay as (_ & ? & _). unfold block_fuel. lia.
Qed.

Lemma iteration_reports_full_keys_witness :
  entries block_4 =
    Ok (zip [[97]; [97; 98]; [98]; [98; 99]]
          (entry_value block_4 <$>
             [mkEntry 0 0 1 0 3; mkEntry 4 1 1 0 7; mkEntry 8 0 1 0 11;
              mkEntry 12 1 1 0 15])).
Proof.
  apply (iteration_reports_full_keys block_4).
  - vm_compute. discriminate.
  - reflexivity.
  - reflexivity.
  - repeat constructor.
  - reflexivity.
  - vm_compute. repeat split; reflexivity.
Defined.

(** X11. Cursors are compared by where they stand, and a cursor stands
    where the stored key bytes of its entry start: a last entry that stores
    no key byte and no value byte is taken for the end of the block, and the
    loop from [begin()] to [end()] visits the entries before it only. *)
Theorem empty_last_entry_is_not_visited :
  ∀ (b : Block) (es : list entry) (e : entry),
    data_end_ b ≤ Z.of_nat (length (data_ b)) → data_end_ b < 2 ^ 32 →
    decode_entries (block_fuel b) (data_ b) 0 (data_end_ b) = Ok (es ++ [e]) →
    Forall (λ e, e_key e < data_end_ b) es →
    e_unshared e = 0 → e_vlen e = 0 →
    values b = Ok (entry_value b <$> es).
Proof.
  intros b es e Hend H32 Hdec Hne Hun Hvl.
  pose proof (decode_entries_layout b _ 0 _ ltac:(lia) Hend Hdec) as Hlay.
  rewrite (values_layout b Hend H32 _ Hlay).
  rewrite visible_but_last; [done|done|].
  apply layout_last in Hlay. lia.
Qed.

Lemma empty_last_entry_is_not_visited_witness :
  let b := mkBlock [0; 0; 0;  0; 0; 0; 0;  1; 0; 0; 0] 11 1 3 in
  Block_new [0; 0; 0;  0; 0; 0; 0;  1; 0; 0; 0] = Ok b ∧
  decode_entries (block_fuel b) (data_ b) 0 (data_end_ b)
    = Ok [mkEntry 0 0 0 0 3] ∧
  values b = Ok [].
Proof.
  intros b. split; [reflexivity|]. split; [reflexivity|].
  apply (empty_last_entry_is_not_visited b [] (mkEntry 0 0 0 0 3)).
  - vm_compute. discriminate.
  - reflexivity.
  - reflexivity.
  - constructor.
  - reflexivity.
  - reflexivity.
Defined.

(** *** The trailer *)

Lemma byte_at_byte (mem : list Z) (p : Z) :
  Forall (λ c, 0 ≤ c < 256) mem → 0 ≤ p < Z.of_nat (length mem) →
  ∃ c, byte_at mem p = Ok c ∧ 0 ≤ c < 256.
Proof.
  intros Hb Hp. unfold byte_at. rewrite decide_True by lia.
  destruct (lookup_lt_is_Some_2 mem (Z.to_nat p)) as [c Hc]; [lia|].
  rewrite Hc. exists c. split; [done|].
  rewrite Forall_forall in Hb. apply Hb. by eapply list_elem_of_lookup_2.
Qed.

Lemma ReadNum32_byte (mem : list Z) (p : Z) :
  Forall (λ c, 0 ≤ c < 256) mem → 0 ≤ p → p + 4 ≤ Z.of_nat (length mem) →
  ∃ r, ReadNum32 mem p = Ok r ∧ 0 ≤ r < 2 ^ 32.
Proof.
  intros Hb Hp Hl. unfold ReadNum32.
  destruct (byte_at_byte mem p Hb) as (c0 & -> & ?); [lia|].
  destruct (byte_at_byte mem (p + 1) Hb) as (c1 & -> & ?); [lia|].
  destruct (byte_at_byte mem (p + 2) Hb) as (c2 & -> & ?); [lia|].
  destruct (byte_at_byte mem (p + 3) Hb) as (c3 & -> & ?); [lia|].
  rewrite !bind_Ok. eexists. split; [done|].
  change (2 ^ 32) with 4294967296. lia.
Qed.

(** What the constructor does, by the size of the content. *)
Lemma Block_new_cases :
  ∀ content : list Z,
    Forall (λ c, 0 ≤ c < 256) content →
    let size := Z.of_nat (length content) in
    (size < 4 → Block_new content = Err Undefined) ∧
    (4 ≤ size →
       ∃ n, ReadNum32 content (size - 4) = Ok n ∧ 0 ≤ n < 2 ^ 32 ∧
         (n < 2 ^ 30 - 1 →
            Block_new content =
              if decide (4 * (n + 1) ≤ size)
              then Ok (mkBlock content size n (size - 4 * (n + 1)))
              else Err AssertFail)).
Proof.
  intros content Hb size. split.
  - intros Hlt. unfold Block_new, ReadNum32. fold size.
    assert (byte_at content (size - 4) = Err Undefined) as ->; [|done].
    unfold byte_at. by rewrite decide_False by lia.
  - intros Hge.
    destruct (ReadNum32_byte content (size - 4) Hb) as (n & Hn & Hn32);
      [lia|unfold size; lia|].
    exists n. split; [done|]. split; [done|]. intros Hsmall.
    unfold Block_new. fold size. rewrite Hn, bind_Ok.
    unfold uint32. rewrite Z.mod_small by lia.
    destruct (decide (4 * (n + 1) ≤ size)).
    + by rewrite bool_decide_eq_true_2.
    + by rewrite bool_decide_eq_false_2.
Qed.

(** X12. The constructor reads the restart count from the last four bytes
    before it checks anything: on fewer than four bytes the read is outside
    the content. On four bytes or more, with a count below [2 ^ 30 - 1], it
    asserts that the count and so many offsets fit in the content, and the
    entries end where the offsets start. *)
Theorem Block_new_checks_trailer :
  ∀ content : list Z,
    Forall (λ c, 0 ≤ c < 256) content →
    let size := Z.of_nat (length content) in
    (size < 4 → Block_new content = Err Undefined) ∧
    (4 ≤ size →
       ∃ n, ReadNum32 content (size - 4) = Ok n ∧ 0 ≤ n < 2 ^ 32 ∧
         (n < 2 ^ 30 - 1 →
            Block_new content =
              if decide (4 * (n + 1) ≤ size)
              then Ok (mkBlock content size n (size - 4 * (n + 1)))
              else Err AssertFail)).
Proof. exact Block_new_cases. Qed.

Lemma Block_new_checks_trailer_witness :
  Block_new [0; 1; 0; 98; 0; 0; 0; 0; 1; 0; 0; 0]
    = Ok (mkBlock [0; 1; 0; 98; 0; 0; 0; 0; 1; 0; 0; 0] 12 1 4) ∧
  Block_new [1; 0; 0] = Err Undefined.
Proof.
  split.
  - destruct (Block_new_checks_trailer [0; 1; 0; 98; 0; 0; 0; 0; 1; 0; 0; 0])
      as [_ H].
    + repeat constructor; lia.
    + destruct H as (n & Hn & _ & H); [simpl; lia|].
      vm_compute in Hn. injection Hn as <-. apply H. lia.
  - apply (Block_new_checks_trailer [1; 0; 0]).
    + repeat constructor; lia.
    + simpl. lia.
Defined.

(** X13. On a block that the constructor accepted, with byte contents and
    a restart count below [2 ^ 30 - 1], so that [4 * (num_restart_ + 1)]
    does not wrap in 32 bits, and for an index from 0 to [2 ^ 31 - 1]:
    [restartPoint] fails its first assertion on an index above
    [num_restart_]; on any other it reads inside the restart array and
    returns an offset within the entries, or fails its second assertion.
    Its first assertion lets the index [num_restart_] through, one past the
    last restart point, and what it reads then is the restart count. *)
Theorem restartPoint_reads_inside_trailer :
  ∀ (content : list Z) (b : Block) (i : Z),
    Forall (λ c, 0 ≤ c < 256) content →
    Block_new content = Ok b → num_restart_ b < 2 ^ 30 - 1 →
    0 ≤ i < 2 ^ 31 →
    (num_restart_ b < i → restartPoint b i = Err AssertFail) ∧
    (i ≤ num_restart_ b →
       restartPoint b i = Err AssertFail ∨
       ∃ r, restartPoint b i = Ok r ∧ 0 ≤ r ≤ data_end_ b ∧
         ReadNum32 content
           (Z.of_nat (length content) - 4 * (num_restart_ b - i + 1)) = Ok r) ∧
    (i = num_restart_ b →
       restartPoint b i =
         if decide (num_restart_ b ≤ data_end_ b) then Ok (num_restart_ b)
         else Err AssertFail).
Proof.
  intros content b i Hb Hnew Hsmall Hi.
  set (size := Z.of_nat (length content)) in *.
  assert (4 ≤ size) as Hsize.
  { destruct (decide (4 ≤ size)); [done|].
    destruct (Block_new_cases content Hb) as [H _].
    fold size in H. rewrite H in Hnew by lia. done. }
  destruct (Block_new_cases content Hb) as [_ H].
  destruct (H Hsize) as (n & Hn & Hn32 & Hblk). fold size in Hn, Hblk.
  assert (num_restart_ b = n) as Hnb.
  { unfold Block_new in Hnew. fold size in Hnew. rewrite Hn, bind_Ok in Hnew.
    destruct (assert _) as [[]|]; [|done]. rewrite bind_Ok in Hnew.
    by injection Hnew as <-. }
  rewrite Hnb in Hsmall. rewrite Hblk in Hnew by done.
  destruct (decide (4 * (n + 1) ≤ size)) as [Hfit|]; [|done].
  injection Hnew as <-. cbn [num_restart_ data_end_ data_ size_].
  unfold restartPoint. cbn [num_restart_ data_end_ data_ size_].
  unfold uint32. rewrite (Z.mod_small i) by lia. split; [|split].
  - intros Hgt. by rewrite bool_decide_eq_false_2 by lia.
  - intros Hle. rewrite bool_decide_eq_true_2 by lia. cbn [assert].
    rewrite bind_Ok. rewrite Z.mod_small by lia.
    destruct (ReadNum32_byte content (size - 4 * (n - i + 1)) Hb)
      as (r & Hr & Hr32); [lia|unfold size; lia|].
    rewrite Hr, bind_Ok.
    destruct (decide (r ≤ size - 4 * (n + 1))).
    + right. exists r. rewrite bool_decide_eq_true_2 by done.
      split; [done|]. split; [lia|done].
    + left. by rewrite bool_decide_eq_false_2.
  - intros ->. rewrite bool_decide_eq_true_2 by lia. cbn [assert].
    rewrite bind_Ok. rewrite Z.mod_small by lia.
    replace (size - 4 * (n - n + 1)) with (size - 4) by lia.
    rewrite Hn, bind_Ok.
    destruct (decide (n ≤ size - 4 * (n + 1))).
    + by rewrite bool_decide_eq_true_2.
    + by rewrite bool_decide_eq_false_2.
Qed.

Lemma restartPoint_reads_inside_trailer_witness :
  restartPoint block_6 1 = Ok 16 ∧ restartPoint block_6 2 = Ok 2 ∧
  restartPoint block_6 3 = Err AssertFail.
Proof.
  pose proof (λ i, restartPoint_reads_inside_trailer (data_ block_6) block_6 i
                     ltac:(repeat constructor; lia) block_6_new
                     ltac:(simpl; lia)) as H.
  split; [|split].
  - destruct (H 1 ltac:(lia)) as (_ & H1 & _).
    destruct (H1 ltac:(simpl; lia)) as [He|(r & Hr & _ & Hrd)].
    + vm_compute in He. discriminate.
    + vm_compute in Hrd. injection Hrd as <-. exact Hr.
  - destruct (H 2 ltac:(lia)) as (_ & _ & H2). exact (H2 eq_refl).
  - destruct (H 3 ltac:(lia)) as (H3 & _). apply H3. simpl. lia.
Defined.

(** The bound on the restart count is needed. With a count of [2 ^ 30 - 1]
    the product [4 * (num_restart_ + 1)] wraps to 0: the constructor
    accepts the four bytes of the count alone, and [restartPoint(0)] reads
    the four bytes after them. *)
Lemma restartPoint_wrapped_count :
  Block_new [255; 255; 255; 63]
    = Ok (mkBlock [255; 255; 255; 63] 4 (2 ^ 30 - 1) 4) ∧
  restartPoint (mkBlock [255; 255; 255; 63] 4 (2 ^ 30 - 1) 4) 0
    = Err Undefined.
Proof. split; reflexivity. Qed.

(** *** Searching where there is nothing to decode *)

(** A call that does not return: an exception leaves it, an assertion
    fails, or it reads outside the block. *)
Definition fails {A} (r : res A) : Prop :=
  r = Err Thrown ∨ r = Err AssertFail ∨ r = Err Undefined.

Lemma restartPoint_cases (b : Block) (id : Z) :
  (∃ r, restartPoint b id = Ok r ∧ r ≤ data_end_ b) ∨
  restartPoint b id = Err AssertFail ∨ restartPoint b id = Err Undefined.
Proof.
  unfold restartPoint.
  destruct (bool_decide (uint32 id ≤ num_restart_ b)); cbn [assert];
    [rewrite bind_Ok|by right; left].
  assert (∀ p, (∃ r, ReadNum32 (data_ b) p = Ok r) ∨
               ReadNum32 (data_ b) p = Err Undefined) as Hrd.
  { intros p. unfold ReadNum32.
    assert (∀ q, (∃ c, byte_at (data_ b) q = Ok c) ∨
                 byte_at (data_ b) q = Err Undefined) as Hby.
    { intros q. unfold byte_at. destruct (decide (0 ≤ q)); [|by right].
      destruct (data_ b !! Z.to_nat q); [left; eauto|by right]. }
    destruct (Hby p) as [[c0 ->]| ->]; [rewrite bind_Ok|by right].
    destruct (Hby (p + 1)) as [[c1 ->]| ->]; [rewrite bind_Ok|by right].
    destruct (Hby (p + 2)) as [[c2 ->]| ->]; [rewrite bind_Ok|by right].
    destruct (Hby (p + 3)) as [[c3 ->]| ->]; [rewrite bind_Ok|by right].
    left. eauto. }
  destruct (Hrd (size_ b - uint32 (4 * (num_restart_ b - id + 1))))
    as [[r ->]| ->]; [rewrite bind_Ok|by right; right].
  destruct (bool_decide (r ≤ data_end_ b)) eqn:E; cbn [assert].
  - left. exists r. split; [done|]. by apply bool_decide_eq_true in E.
  - right. by left.
Qed.

(** Without entries there is no restart key to read. *)
Lemma keyAtRestartPoint_no_entries (b : Block) (id : Z) :
  data_end_ b = 0 → fails (keyAtRestartPoint b id).
Proof.
  intros Hz. unfold keyAtRestartPoint, fails.
  destruct (restartPoint_cases b id) as [(r & -> & Hr)|[-> | ->]];
    [|by right; left|by right; right].
  rewrite bind_Ok. cbn zeta. unfold GetVar32. cbn [RawData Len GetVar32_loop].
  rewrite Hz. destruct (decide (0 - r ≤ 0)); [by left|].
  assert (byte_at (data_ b) r = Err Undefined) as ->.
  { unfold byte_at. by rewrite decide_False by lia. }
  by right; right.
Qed.

Lemma keyAtRestartPoint_thrown (b : Block) (id : Z) :
  data_end_ b = 0 → restartPoint b id = Ok 0 →
  keyAtRestartPoint b id = Err Thrown.
Proof.
  intros Hz Hr. unfold keyAtRestartPoint. rewrite Hr, bind_Ok. cbn zeta.
  unfold GetVar32. cbn [RawData Len GetVar32_loop]. rewrite Hz.
  by rewrite decide_True by lia.
Qed.

(** X14. A block without entries cannot be searched: whatever its restart
    array holds, [lower_bound] and [find] do not return, not even the end
    cursor. Where the restart offset read is 0, it is the exception of the
    length decoder, which [keyAtRestartPoint] does not catch, that leaves
    them. *)
Theorem search_without_entries_fails :
  ∀ (Compare : list Z → list Z → Z) (b : Block) (target : list Z),
    data_end_ b = 0 →
    fails (lower_bound Compare b target) ∧ fails (find Compare b target) ∧
    (restartPoint b 0 = Ok 0 → num_restart_ b ≤ 1 →
     lower_bound Compare b target = Err Thrown ∧
     find Compare b target = Err Thrown).
Proof.
  intros Compare b target Hz.
  assert (fails (lower_bound Compare b target)) as Hlb.
  { unfold lower_bound. cbn [restart_search].
    destruct (decide (1 < num_restart_ b - 0)).
    - destruct (keyAtRestartPoint_no_entries b ((0 + num_restart_ b) `quot` 2) Hz)
        as [-> |[-> | ->]]; [by left|by right; left|by right; right].
    - rewrite bind_Ok. cbn beta iota.
      destruct (keyAtRestartPoint_no_entries b 0 Hz)
        as [-> |[-> | ->]]; [by left|by right; left|by right; right]. }
  split; [done|]. split.
  - unfold find. destruct Hlb as [-> |[-> | ->]];
      [by left|by right; left|by right; right].
  - intros Hr0 Hn1.
    assert (lower_bound Compare b target = Err Thrown) as Hthrown.
    { unfold lower_bound. cbn [restart_search].
      rewrite decide_False by lia. rewrite bind_Ok. cbn beta iota.
      by rewrite (keyAtRestartPoint_thrown b 0 Hz Hr0). }
    split; [done|]. unfold find. by rewrite Hthrown.
Qed.

Lemma search_without_entries_fails_witness :
  let b := mkBlock [0; 0; 0; 0; 1; 0; 0; 0] 8 1 0 in
  Block_new [0; 0; 0; 0; 1; 0; 0; 0] = Ok b ∧
  lower_bound BytewiseCompare b [97] = Err Thrown ∧
  find BytewiseCompare b [97] = Err Thrown.
Proof.
  intros b. split; [reflexivity|].
  destruct (search_without_entries_fails BytewiseCompare b [97])
    as (_ & _ & H); [reflexivity|].
  apply H; [reflexivity|simpl; lia].
Defined.

(** *** A header that does not decode *)

(** [it] after a step that found the first or the second length field of
    the next header not to decode: where it was, with [sh] as its
    shared-prefix length. *)
Definition stuck (it : BlockConstIterator) (sh : Z) : BlockConstIterator :=
  mkIter (buf_ it) (buf_len_ it) sh (unshared_ it) (value_len_ it)
    (Some (buf_ it)) (restart_pos_ it) [] Corruption.

Section Truncated.
Variable Compare : list Z → list Z → Z.
Variable b : Block.
Hypothesis Hend : data_end_ b ≤ Z.of_nat (length (data_ b)).
Hypothesis H64 : data_end_ b < 2 ^ 64.

Lemma increment_truncated it sh :
  0 ≤ buf_ it → buf_ it + buf_len_ it = data_end_ b →
  0 ≤ unshared_ it → 0 ≤ value_len_ it →
  let p := buf_ it + unshared_ it + value_len_ it in
  p < data_end_ b →
  (GetVar32 (data_ b) (mkSlice p (data_end_ b - p)) = Err Thrown ∧
   sh = shared_ it) ∨
  (∃ buf, GetVar32 (data_ b) (mkSlice p (data_end_ b - p)) = Ok (sh, buf) ∧
     GetVar32 (data_ b) buf = Err Thrown) →
  increment b it = Ok (stuck it sh).
Proof using H64.
  intros Hbuf Hlen Hun Hvl p Hp Hfail. unfold increment, Skip. simpl.
  rewrite bool_decide_eq_true_2 by (subst p; lia). simpl.
  rewrite bool_decide_eq_true_2 by (subst p; lia). simpl.
  fold p. unfold init, size_t.
  rewrite Z.mod_small by (subst p; lia). rewrite decide_True by lia.
  destruct Hfail as [[-> ->]|(buf & -> & Hsnd)]; simpl.
  - done.
  - rewrite Hsnd. simpl. done.
Qed.

End Truncated.

(** [Key()] changes nothing of a cursor but the key it caches. *)
Lemma Key_fields (b : Block) (it it' : BlockConstIterator) (k : list Z) :
  Key b it = Ok (k, it') →
  buf_ it ≠ data_end_ b ∧ it' = with_key it (key_ it').
Proof.
  unfold Key. destruct (bool_decide (buf_ it ≠ data_end_ b)) eqn:E; [|done].
  apply bool_decide_eq_true in E. cbn [assert]. rewrite bind_Ok.
  destruct (key_ it) as [|c kk] eqn:Hk.
  - destruct (match last_key_ it with Some _ => _ | None => _ end) as [[]|];
      [|done]. rewrite bind_Ok.
    destruct (append_from _ _ _) as [pre|]; [|done]. rewrite bind_Ok.
    destruct (read_bytes _ _ _) as [suf|]; [|done]. rewrite bind_Ok.
    intros [= <- <-]. done.
  - intros [= <- <-]. split; [done|]. destruct it. unfold with_key. simpl in *.
    by rewrite Hk.
Qed.

(** X15. [lower_bound] never looks at the status of its cursor. When the
    first or the second length field of the header after an entry does not
    decode, [operator++] leaves the cursor on that entry with the decode
    failure as its status, and does so again however often it is called:
    if the keys that [Key()] reports there are less than the target, the
    scan of [lower_bound] from a cursor on that entry never ends. *)
Theorem scan_never_ends_on_truncated_header :
  ∀ (Compare : list Z → list Z → Z) (b : Block) (it : BlockConstIterator)
    (sh : Z),
    data_end_ b ≤ Z.of_nat (length (data_ b)) → data_end_ b < 2 ^ 64 →
    0 ≤ buf_ it → buf_ it + buf_len_ it = data_end_ b →
    0 ≤ unshared_ it → 0 ≤ value_len_ it →
    let p := buf_ it + unshared_ it + value_len_ it in
    p < data_end_ b →
    (GetVar32 (data_ b) (mkSlice p (data_end_ b - p)) = Err Thrown ∧
     sh = shared_ it) ∨
    (∃ buf, GetVar32 (data_ b) (mkSlice p (data_end_ b - p)) = Ok (sh, buf) ∧
       GetVar32 (data_ b) buf = Err Thrown) →
    ∃ it', increment b it = Ok it' ∧
      stat_ it' = Corruption ∧ buf_ it' = buf_ it ∧
      increment b it' = Ok it' ∧
      ∀ target k it'', Key b it' = Ok (k, it'') → Compare k target < 0 →
        (∀ fuel, scan Compare fuel b target it' = Err OutOfFuel) ∧
        (∀ k0 it0, Key b it = Ok (k0, it0) → Compare k0 target < 0 →
           ∀ fuel, scan Compare fuel b target it = Err OutOfFuel).
Proof.
  intros Compare b it sh Hend H64 Hbuf Hlen Hun Hvl p Hp Hfail.
  exists (stuck it sh).
  assert (∀ k, increment b (with_key (stuck it sh) k) = Ok (stuck it sh))
    as Hinc.
  { intros k.
    rewrite (increment_truncated b H64 (with_key (stuck it sh) k) sh);
      try done.
    destruct Hfail as [[Hg Hsh]|Hfail]; [|by right].
    left. split; [exact Hg|done]. }
  split; [by apply increment_truncated|]. split; [done|]. split; [done|].
  split; [apply (Hinc [])|].
  intros target k it'' HKey Hlt.
  destruct (Key_fields b _ _ _ HKey) as [_ Hit''].
  assert (increment b it'' = Ok (stuck it sh)) as Hinc''
    by (rewrite Hit''; apply Hinc).
  assert (∀ fuel, scan Compare fuel b target (stuck it sh) = Err OutOfFuel)
    as Hstuck.
  { induction fuel as [|fuel IH]; [done|]. cbn [scan].
    rewrite end_cursor, bind_Ok.
    assert (equal (stuck it sh)
              (mkIter (data_end_ b) 0 0 0 0 None 0 [] StatusOK) = false) as ->.
    { unfold equal. cbn [buf_ stuck].
      by rewrite bool_decide_eq_false_2 by (subst p; lia). }
    rewrite HKey, bind_Ok. cbn beta iota. rewrite decide_False by lia.
    by rewrite Hinc'', bind_Ok. }
  split; [exact Hstuck|].
  intros k0 it0 HKey0 Hlt0 [|fuel]; [done|]. cbn [scan].
  rewrite end_cursor, bind_Ok.
  assert (equal it (mkIter (data_end_ b) 0 0 0 0 None 0 [] StatusOK) = false)
    as ->.
  { unfold equal. cbn [buf_].
    by rewrite bool_decide_eq_false_2 by (subst p; lia). }
  rewrite HKey0, bind_Ok. cbn beta iota. rewrite decide_False by lia.
  destruct (Key_fields b _ _ _ HKey0) as [_ Hit0].
  assert (increment b it0 = Ok (stuck it sh)) as ->.
  { rewrite Hit0.
    by rewrite (increment_truncated b H64 (with_key it _) sh). }
  rewrite bind_Ok. apply Hstuck.
Qed.

Lemma scan_never_ends_on_truncated_header_witness :
  let b := mkBlock [0; 1; 0; 98; 0; 129; 0; 0; 0; 0; 1; 0; 0; 0] 14 1 6 in
  let it := mkIter 3 3 0 1 0 None 0 [] StatusOK in
  begin b = Ok it ∧
  ∃ it', increment b it = Ok it' ∧
    stat_ it' = Corruption ∧ buf_ it' = 3 ∧
    increment b it' = Ok it' ∧
    (∀ fuel, scan BytewiseCompare fuel b [99] it' = Err OutOfFuel) ∧
    (∀ fuel, scan BytewiseCompare fuel b [99] it = Err OutOfFuel).
Proof.
  intros b it. split; [reflexivity|].
  destruct (scan_never_ends_on_truncated_header BytewiseCompare b it 0)
    as (it' & Hi & Hst & Hb & Hi' & Hscan).
  - vm_compute. discriminate.
  - reflexivity.
  - vm_compute. discriminate.
  - reflexivity.
  - vm_compute. discriminate.
  - vm_compute. discriminate.
  - reflexivity.
  - right. eexists. split; reflexivity.
  - exists it'. split; [exact Hi|]. split; [exact Hst|]. split; [exact Hb|].
    split; [exact Hi'|].
    pose proof Hi as Hi2. vm_compute in Hi2. injection Hi2 as <-.
    destruct (Hscan [99] [98] (mkIter 3 3 0 1 0 (Some 3) 0 [98] Corruption))
      as [H1 H2]; [reflexivity|reflexivity|].
    split; [exact H1|].
    apply (H2 [98] (mkIter 3 3 0 1 0 None 0 [98] StatusOK)); reflexivity.
Defined.

Close Scope Z_scope.

(** ** The memtable: an entry the table holds already *)

Lemma preimage_strict_weak_order {A B} (f : A → B) (cmp : B → B → bool) :
  strict_weak_order cmp → strict_weak_order (λ a c, cmp (f a) (f c)).
Proof.
  intros [Hi Ht He]. split.
  - intros a. apply Hi.
  - intros a c d. unfold lt. apply Ht.
  - intros a c d. unfold equiv. apply He.
Qed.

Lemma Bytewise_descending_strict_weak_order :
  strict_weak_order (λ a c, bool_decide (BytewiseCompare c a < 0)%Z).
Proof.
  split.
  - intros a. apply bool_decide_eq_false_2.
    induction a as [|x a IH]; simpl; [lia|]. repeat case_decide; lia.
  - intros a c d. unfold lt. rewrite !bool_decide_eq_true.
    intros Hac Hcd. exact (BytewiseCompare_transitive _ _ _ Hcd Hac).
  - intros a c d. unfold equiv. rewrite !bool_decide_eq_false.
    revert c d. induction a as [|x a IH]; intros [|y c] [|z d]; simpl; try lia.
    repeat case_decide; try lia. apply IH.
Qed.

(** X16. [Add] of an entry that the order of the table takes for one that
    the table holds leaves the table as it is: the entry it built is copied
    into a new region of the arena, and no node of the list points to
    it. *)
Theorem Add_equivalent_entry_leaves_table :
  ∀ (InternalKeyBuf : list Z → Z → ValueType → list Z)
    (compare_ : list Z → list Z → bool) (gen : nat → nat)
    (ops : list (Z * ValueType * list Z * list Z))
    (sequence : Z) (type : ValueType) (key value : list Z),
    strict_weak_order compare_ →
    ∃ m l, AddAll InternalKeyBuf compare_ (MemTable_new gen) ops = Ok m ∧
      traverse (table_ m) = Ok l ∧
      let e := entry_of InternalKeyBuf (sequence, type, key, value) in
      ∀ e', e' ∈ l → equiv compare_ e e' →
        ∃ m', Add InternalKeyBuf compare_ m sequence type key value = Ok m' ∧
          table_ m' = table_ m ∧
          regions (arena_ m') = regions (arena_ m) ++ [e].
Proof.
  intros InternalKeyBuf compare_ gen ops sequence type key value Hs.
  pose proof (swo_trans _ Hs) as Ht.
  destruct (AddAll_ok InternalKeyBuf compare_ ops (MemTable_new gen) [] Ht
              (Repr_new compare_ [] gen)) as (m & Hm & _ & Hr).
  eexists m, _. split; [done|].
  split; [exact (Repr_traverse compare_ [] _ _ Hr)|].
  intros e e' He' Heq.
  destruct (Insert_existing compare_ [] (table_ m) _ e e' Hs Hr He' Heq)
    as (pre & post & it & _ & Hins & _).
  unfold Add, allocate, memcpy, pointee. cbn [regions].
  set (buf := AppendVarString (AppendVarString [] _) value).
  assert (buf = e) as Hbuf.
  { unfold buf, e, entry_of, AppendVarString. simpl. by rewrite <- !app_assoc. }
  rewrite list_lookup_middle by done.
  rewrite decide_True by (by rewrite length_replicate).
  rewrite bind_Ok. cbn [regions].
  rewrite take_ge by done. rewrite drop_ge by (by rewrite length_replicate).
  rewrite app_nil_r.
  assert (<[length (regions (arena_ m)) := buf]>
            (regions (arena_ m) ++ [replicate (length buf) 0%Z])
          = regions (arena_ m) ++ [buf]) as ->.
  { rewrite insert_app_r_alt by done. by rewrite Nat.sub_diag. }
  rewrite list_lookup_middle by done. rewrite bind_Ok.
  rewrite Hbuf, Hins, bind_Ok. cbn beta iota. eexists. split; [done|]. done.
Qed.

Lemma Add_equivalent_entry_leaves_table_witness :
  let compare_ := λ a c : list Z,
    bool_decide (BytewiseCompare (take 4 c) (take 4 a) < 0)%Z in
  ∃ m m',
    AddAll example_ikey compare_ (MemTable_new (λ i, i mod 3))
      [(5%Z, kTypeValue, [97%Z], [120%Z])] = Ok m ∧
    traverse (table_ m) = Ok [[3; 97; 5; 1; 1; 120]%Z] ∧
    Add example_ikey compare_ m 5%Z kTypeValue [97%Z] [121%Z] = Ok m' ∧
    table_ m' = table_ m ∧
    regions (arena_ m')
      = [[3; 97; 5; 1; 1; 120]%Z; [3; 97; 5; 1; 1; 121]%Z].
Proof.
  intros compare_.
  destruct (Add_equivalent_entry_leaves_table example_ikey compare_
              (λ i, i mod 3) [(5%Z, kTypeValue, [97%Z], [120%Z])]
              5%Z kTypeValue [97%Z] [121%Z]) as (m & l & Hm & Hl & H).
  - exact (preimage_strict_weak_order (take 4) _
             Bytewise_descending_strict_weak_order).
  - pose proof Hm as Hm'. vm_compute in Hm'. injection Hm' as <-.
    pose proof Hl as Hl'. vm_compute in Hl'. injection Hl' as <-.
    destruct (H [3; 97; 5; 1; 1; 120]%Z) as (m' & Hadd & Htab & Hreg).
    + apply list_elem_of_here.
    + split; reflexivity.
    + eexists _, m'. split; [exact Hm|]. split; [exact Hl|].
      split; [exact Hadd|]. split; [exact Htab|]. exact Hreg.
Defined.
